(** * The Rubber Band command-line driver (libs/rubberband/src/main.cpp)

    A shallow embedding of [main]: the option switch fed by [getopt_long],
    the crispness table, the construction of the stretcher's option word,
    the two input passes (study, process) and the drain loop, run against
    an arbitrary stretcher engine and a model of the sound files.

    [double] is IEEE binary64, Rocq's primitive [float]; a C [float] sample
    is carried by the binary64 number of the same value.  [int] and
    [size_t] are [Z] with their wrap-around written out. *)

From Stdlib Require Import ZArith List Bool Lia.
From Stdlib Require String.
Import String.StringSyntax.
Delimit Scope string_scope with string.
From Stdlib Require Import Floats.
Import ListNotations.

Local Open Scope Z_scope.

(** ** Machine integers *)

Definition INT_MAX : Z := 2147483647.

(** Two's-complement wrap of an [int] result. *)
Definition wrap_int (z : Z) : Z := (z + 2147483648) mod 4294967296 - 2147483648.

(** Wrap of a [size_t] result (64-bit). *)
Definition wrap_size_t (z : Z) : Z := z mod 18446744073709551616.

(** ** The options as [getopt_long] hands them to the switch

    One constructor per value of [c]; an option with an argument carries
    [atof(optarg)] or [atoi(optarg)]. *)

Inductive cli_opt : Type :=
| OptHelp                        (* 'h' *)
| OptTime (x : float)            (* 't' *)
| OptTempo (m : float)           (* 'T' *)
| OptPitch (x : float)           (* 'p' *)
| OptFrequency (x : float)       (* 'f' *)
| OptDebug (n : Z)               (* 'd' *)
| OptRealtime                    (* 'R' *)
| OptPrecise                     (* 'P' *)
| OptNoThreads                   (* '0' *)
| OptThreads                     (* '@' *)
| OptNoTransients                (* '1' *)
| OptNoPeaklock                  (* '2' *)
| OptWindowLong                  (* '3' *)
| OptWindowShort                 (* '4' *)
| OptThresh0 (x : float)         (* '5' *)
| OptThresh1 (x : float)         (* '6' *)
| OptThresh2 (x : float)         (* '7' *)
| OptBlTransients                (* '8' *)
| OptNoSoftening                 (* '9' *)
| OptCrisp (n : Z)               (* 'c', --crisp and --crispness *)
| OptQuiet                       (* 'q' *)
| OptUnrecognised.               (* '?' : the default branch *)

Inductive transients_mode : Type :=
| NoTransients
| BandLimitedTransients
| Transients.

(** The local variables of [main] that the option loop assigns. *)
Record locals : Type := mkLocals {
  ratio : float;
  pitchshift : float;
  frequencyshift : float;
  debug : Z;
  realtime : bool;
  precise : bool;
  threading : Z;
  peaklock : bool;
  longwin : bool;
  shortwin : bool;
  softening : bool;
  crispness : Z;
  help : bool;
  quiet : bool;
  haveRatio : bool;
  transients : transients_mode;
  fthresh0 : float;
  fthresh1 : float;
  fthresh2 : float
}.

Definition initial_locals : locals :=
  {| ratio := 1%float; pitchshift := 1%float; frequencyshift := 1%float;
     debug := 0; realtime := false; precise := false; threading := 0;
     peaklock := true; longwin := false; shortwin := false;
     softening := true; crispness := -1; help := false; quiet := false;
     haveRatio := false; transients := Transients;
     fthresh0 := (-1)%float; fthresh1 := (-1)%float; fthresh2 := (-1)%float |}.

Definition set_ratio (v : locals) (x : float) : locals :=
  mkLocals x (pitchshift v) (frequencyshift v) (debug v) (realtime v)
    (precise v) (threading v) (peaklock v) (longwin v) (shortwin v)
    (softening v) (crispness v) (help v) (quiet v) (haveRatio v)
    (transients v) (fthresh0 v) (fthresh1 v) (fthresh2 v).

Definition set_pitchshift (v : locals) (x : float) : locals :=
  mkLocals (ratio v) x (frequencyshift v) (debug v) (realtime v)
    (precise v) (threading v) (peaklock v) (longwin v) (shortwin v)
    (softening v) (crispness v) (help v) (quiet v) (haveRatio v)
    (transients v) (fthresh0 v) (fthresh1 v) (fthresh2 v).

Definition set_frequencyshift (v : locals) (x : float) : locals :=
  mkLocals (ratio v) (pitchshift v) x (debug v) (realtime v)
    (precise v) (threading v) (peaklock v) (longwin v) (shortwin v)
    (softening v) (crispness v) (help v) (quiet v) (haveRatio v)
    (transients v) (fthresh0 v) (fthresh1 v) (fthresh2 v).

Definition set_debug (v : locals) (n : Z) : locals :=
  mkLocals (ratio v) (pitchshift v) (frequencyshift v) n (realtime v)
    (precise v) (threading v) (peaklock v) (longwin v) (shortwin v)
    (softening v) (crispness v) (help v) (quiet v) (haveRatio v)
    (transients v) (fthresh0 v) (fthresh1 v) (fthresh2 v).

Definition set_realtime (v : locals) (b : bool) : locals :=
  mkLocals (ratio v) (pitchshift v) (frequencyshift v) (debug v) b
    (precise v) (threading v) (peaklock v) (longwin v) (shortwin v)
    (softening v) (crispness v) (help v) (quiet v) (haveRatio v)
    (transients v) (fthresh0 v) (fthresh1 v) (fthresh2 v).

Definition set_precise (v : locals) (b : bool) : locals :=
  mkLocals (ratio v) (pitchshift v) (frequencyshift v) (debug v) (realtime v)
    b (threading v) (peaklock v) (longwin v) (shortwin v)
    (softening v) (crispness v) (help v) (quiet v) (haveRatio v)
    (transients v) (fthresh0 v) (fthresh1 v) (fthresh2 v).

Definition set_threading (v : locals) (n : Z) : locals :=
  mkLocals (ratio v) (pitchshift v) (frequencyshift v) (debug v) (realtime v)
    (precise v) n (peaklock v) (longwin v) (shortwin v)
    (softening v) (crispness v) (help v) (quiet v) (haveRatio v)
    (transients v) (fthresh0 v) (fthresh1 v) (fthresh2 v).

Definition set_peaklock (v : locals) (b : bool) : locals :=
  mkLocals (ratio v) (pitchshift v) (frequencyshift v) (debug v) (realtime v)
    (precise v) (threading v) b (longwin v) (shortwin v)
    (softening v) (crispness v) (help v) (quiet v) (haveRatio v)
    (transients v) (fthresh0 v) (fthresh1 v) (fthresh2 v).

Definition set_longwin (v : locals) (b : bool) : locals :=
  mkLocals (ratio v) (pitchshift v) (frequencyshift v) (debug v) (realtime v)
    (precise v) (threading v) (peaklock v) b (shortwin v)
    (softening v) (crispness v) (help v) (quiet v) (haveRatio v)
    (transients v) (fthresh0 v) (fthresh1 v) (fthresh2 v).

Definition set_shortwin (v : locals) (b : bool) : locals :=
  mkLocals (ratio v) (pitchshift v) (frequencyshift v) (debug v) (realtime v)
    (precise v) (threading v) (peaklock v) (longwin v) b
    (softening v) (crispness v) (help v) (quiet v) (haveRatio v)
    (transients v) (fthresh0 v) (fthresh1 v) (fthresh2 v).

Definition set_softening (v : locals) (b : bool) : locals :=
  mkLocals (ratio v) (pitchshift v) (frequencyshift v) (debug v) (realtime v)
    (precise v) (threading v) (peaklock v) (longwin v) (shortwin v)
    b (crispness v) (help v) (quiet v) (haveRatio v)
    (transients v) (fthresh0 v) (fthresh1 v) (fthresh2 v).

Definition set_crispness (v : locals) (n : Z) : locals :=
  mkLocals (ratio v) (pitchshift v) (frequencyshift v) (debug v) (realtime v)
    (precise v) (threading v) (peaklock v) (longwin v) (shortwin v)
    (softening v) n (help v) (quiet v) (haveRatio v)
    (transients v) (fthresh0 v) (fthresh1 v) (fthresh2 v).

Definition set_help (v : locals) (b : bool) : locals :=
  mkLocals (ratio v) (pitchshift v) (frequencyshift v) (debug v) (realtime v)
    (precise v) (threading v) (peaklock v) (longwin v) (shortwin v)
    (softening v) (crispness v) b (quiet v) (haveRatio v)
    (transients v) (fthresh0 v) (fthresh1 v) (fthresh2 v).

Definition set_quiet (v : locals) (b : bool) : locals :=
  mkLocals (ratio v) (pitchshift v) (frequencyshift v) (debug v) (realtime v)
    (precise v) (threading v) (peaklock v) (longwin v) (shortwin v)
    (softening v) (crispness v) (help v) b (haveRatio v)
    (transients v) (fthresh0 v) (fthresh1 v) (fthresh2 v).

Definition set_haveRatio (v : locals) (b : bool) : locals :=
  mkLocals (ratio v) (pitchshift v) (frequencyshift v) (debug v) (realtime v)
    (precise v) (threading v) (peaklock v) (longwin v) (shortwin v)
    (softening v) (crispness v) (help v) (quiet v) b
    (transients v) (fthresh0 v) (fthresh1 v) (fthresh2 v).

Definition set_transients (v : locals) (t : transients_mode) : locals :=
  mkLocals (ratio v) (pitchshift v) (frequencyshift v) (debug v) (realtime v)
    (precise v) (threading v) (peaklock v) (longwin v) (shortwin v)
    (softening v) (crispness v) (help v) (quiet v) (haveRatio v)
    t (fthresh0 v) (fthresh1 v) (fthresh2 v).

Definition set_fthresh0 (v : locals) (x : float) : locals :=
  mkLocals (ratio v) (pitchshift v) (frequencyshift v) (debug v) (realtime v)
    (precise v) (threading v) (peaklock v) (longwin v) (shortwin v)
    (softening v) (crispness v) (help v) (quiet v) (haveRatio v)
    (transients v) x (fthresh1 v) (fthresh2 v).

Definition set_fthresh1 (v : locals) (x : float) : locals :=
  mkLocals (ratio v) (pitchshift v) (frequencyshift v) (debug v) (realtime v)
    (precise v) (threading v) (peaklock v) (longwin v) (shortwin v)
    (softening v) (crispness v) (help v) (quiet v) (haveRatio v)
    (transients v) (fthresh0 v) x (fthresh2 v).

Definition set_fthresh2 (v : locals) (x : float) : locals :=
  mkLocals (ratio v) (pitchshift v) (frequencyshift v) (debug v) (realtime v)
    (precise v) (threading v) (peaklock v) (longwin v) (shortwin v)
    (softening v) (crispness v) (help v) (quiet v) (haveRatio v)
    (transients v) (fthresh0 v) (fthresh1 v) x.

(** C's [a != b] on doubles: true as well when either side is a NaN. *)
Definition fneq (a b : float) : bool := negb (PrimFloat.eqb a b).

(** The body of [switch (c)] inside the option loop.  The three thresholds
    are narrowed to [float] on assignment in the source and never read
    again; they are kept here as parsed. *)
Definition option_switch (v : locals) (c : cli_opt) : locals :=
  match c with
  | OptHelp => set_help v true
  | OptTime x => set_haveRatio (set_ratio v (PrimFloat.mul (ratio v) x)) true
  | OptTempo m =>
      set_haveRatio
        (if fneq m 0%float then set_ratio v (PrimFloat.div (ratio v) m) else v)
        true
  | OptPitch x => set_haveRatio (set_pitchshift v x) true
  | OptFrequency x => set_haveRatio (set_frequencyshift v x) true
  | OptDebug n => set_debug v n
  | OptRealtime => set_realtime v true
  | OptPrecise => set_precise v true
  | OptNoThreads => set_threading v 1
  | OptThreads => set_threading v 2
  | OptNoTransients => set_transients v NoTransients
  | OptNoPeaklock => set_peaklock v false
  | OptWindowLong => set_longwin v true
  | OptWindowShort => set_shortwin v true
  | OptThresh0 x => set_fthresh0 v x
  | OptThresh1 x => set_fthresh1 v x
  | OptThresh2 x => set_fthresh2 v x
  | OptBlTransients => set_transients v BandLimitedTransients
  | OptNoSoftening => set_softening v false
  | OptCrisp n => set_crispness v n
  | OptQuiet => set_quiet v true
  | OptUnrecognised => set_help v true
  end.

(** The [while (1)] loop around [getopt_long]: one switch per option, in
    command-line order, until [getopt_long] returns -1. *)
Definition parse_from (v : locals) (opts : list cli_opt) : locals :=
  fold_left option_switch opts v.

Definition parse_options (opts : list cli_opt) : locals :=
  parse_from initial_locals opts.

(** What [getopt_long] leaves behind: the options it delivered, [optind],
    and [argv] (whose length is [argc]). *)
Record invocation : Type := mkInvocation {
  opts : list cli_opt;
  optind : Z;
  argv : list String.string
}.

Definition argc (inv : invocation) : Z := Z.of_nat (length (argv inv)).

(** The two positional arguments, [argv[optind]] and [argv[optind + 1]]. *)
Definition fileName (inv : invocation) : String.string :=
  nth (Z.to_nat (optind inv)) (argv inv) String.EmptyString.

Definition fileNameOut (inv : invocation) : String.string :=
  nth (Z.to_nat (optind inv + 1)) (argv inv) String.EmptyString.

(** [help || !haveRatio || optind + 2 != argc] *)
Definition usage_requested (v : locals) (inv : invocation) : bool :=
  help v || negb (haveRatio v) || negb (optind inv + 2 =? argc inv).

(** ** The crispness switch *)

Definition set_quality (v : locals) (t : transients_mode)
    (pl lw sw : bool) : locals :=
  set_shortwin (set_longwin (set_peaklock (set_transients v t) pl) lw) sw.

Definition crispness_switch (v : locals) : locals :=
  match crispness v with
  | -1 => set_crispness v 4
  | 0 => set_quality v NoTransients false true false
  | 1 => set_quality v NoTransients false false false
  | 2 => set_quality v NoTransients true false false
  | 3 => set_quality v BandLimitedTransients true false false
  | 4 => set_quality v Transients true false false
  | 5 => set_quality v Transients false false true
  | _ => v
  end.

(** ** The stretcher's option word

    The constants of [RubberBandStretcher.h] that [main] ors together.  The
    header is not part of the sources at hand, so their numeric values are
    a parameter ([bits]) of everything that follows. *)

Inductive OptionFlag : Type :=
| OptionProcessRealTime
| OptionStretchPrecise
| OptionPhaseIndependent
| OptionPhasePeakLocked
| OptionWindowLong
| OptionWindowShort
| OptionThreadingAuto
| OptionThreadingNever
| OptionThreadingAlways
| OptionTransientsSmooth
| OptionTransientsMixed
| OptionTransientsCrisp.

Definition OptionFlag_eqb (a b : OptionFlag) : bool :=
  match a, b with
  | OptionProcessRealTime, OptionProcessRealTime
  | OptionStretchPrecise, OptionStretchPrecise
  | OptionPhaseIndependent, OptionPhaseIndependent
  | OptionPhasePeakLocked, OptionPhasePeakLocked
  | OptionWindowLong, OptionWindowLong
  | OptionWindowShort, OptionWindowShort
  | OptionThreadingAuto, OptionThreadingAuto
  | OptionThreadingNever, OptionThreadingNever
  | OptionThreadingAlways, OptionThreadingAlways
  | OptionTransientsSmooth, OptionTransientsSmooth
  | OptionTransientsMixed, OptionTransientsMixed
  | OptionTransientsCrisp, OptionTransientsCrisp => true
  | _, _ => false
  end.

(** [has f fl]: the constant [f] was or-ed into the word built from [fl]. *)
Definition has (f : OptionFlag) (fl : list OptionFlag) : bool :=
  existsb (OptionFlag_eqb f) fl.

(** The constants [main] ors into [options], in source order: the six
    [if]s, then [switch (threading)], then [switch (transients)]. *)
Definition option_flags (v : locals) : list OptionFlag :=
  (if realtime v then [OptionProcessRealTime] else []) ++
  (if precise v then [OptionStretchPrecise] else []) ++
  (if negb (peaklock v) then [OptionPhaseIndependent] else []) ++
  (if negb (softening v) then [OptionPhasePeakLocked] else []) ++
  (if longwin v then [OptionWindowLong] else []) ++
  (if shortwin v then [OptionWindowShort] else []) ++
  match threading v with
  | 0 => [OptionThreadingAuto]
  | 1 => [OptionThreadingNever]
  | 2 => [OptionThreadingAlways]
  | _ => []
  end ++
  match transients v with
  | NoTransients => [OptionTransientsSmooth]
  | BandLimitedTransients => [OptionTransientsMixed]
  | Transients => [OptionTransientsCrisp]
  end.

(** [options = 0; options |= ...] over the constants chosen. *)
Definition options_word (bits : OptionFlag -> Z) (v : locals) : Z :=
  fold_left (fun options f => Z.lor options (bits f)) (option_flags v) 0.

(** [if (pitchshift != 1.0) frequencyshift *= pow(2.0, pitchshift / 12);]
    [pow] is the C library's. *)
Definition pitch_adjust (pow : float -> float -> float) (v : locals) : locals :=
  if fneq (pitchshift v) 1%float
  then set_frequencyshift v
         (PrimFloat.mul (frequencyshift v)
            (pow 2%float (PrimFloat.div (pitchshift v) 12%float)))
  else v.

(** ** Sound files (libsndfile)

    An input file is what [sf_open] reports of it ([SF_INFO]) and the frames
    it really holds, one list of [sf_channels] samples per frame. *)

Record sound_file : Type := mkSoundFile {
  sf_frames : Z;
  sf_samplerate : Z;
  sf_channels : nat;
  sf_data : list (list float)
}.

(** The files the run can see: [sf_open] for reading yields a file or fails,
    [sf_open] for writing succeeds or fails. *)
Record filesystem : Type := mkFilesystem {
  sf_open_read : String.string -> option sound_file;
  sf_open_write : String.string -> bool
}.

(** [sf_readf_float(sndfile, fbuf, n)] at frame position [pos]: the frames
    delivered, at most [n], none at the end of the file.  The count it
    returns is their number, so never negative: the [count < 0] test of
    pass 2 is kept as written, and never fires. *)
Definition sf_readf_float (f : sound_file) (pos : nat) (n : Z)
  : list (list float) :=
  firstn (Z.to_nat n) (skipn pos (sf_data f)).

Definition ibs : Z := 1024.

(** [ibuf[c][i] = fbuf[i * channels + c]] for [c < channels], [i < count]. *)
Definition deinterleave (channels : nat) (fbuf : list float) (count : nat)
  : list (list float) :=
  map (fun c => map (fun i => nth (i * channels + c) fbuf 0%float)
                    (seq 0 count))
      (seq 0 channels).

(** ** Output samples *)

(** [if (value > 1.f) value = 1.f; if (value < -1.f) value = -1.f;] *)
Definition clamp (value : float) : float :=
  let value := if PrimFloat.ltb 1%float value then 1%float else value in
  let value := if PrimFloat.ltb value (-1)%float then (-1)%float else value in
  value.

(** [a[k] = x] on an array held as a list. *)
Fixpoint store (a : list float) (k : nat) (x : float) : list float :=
  match a, k with
  | [], _ => []
  | _ :: t, O => x :: t
  | h :: t, S k' => h :: store t k' x
  end.

(** The two nested loops that fill [fobf] from [obf]; [fobf] starts as
    [channels * avail] floats of unspecified content. *)
Definition fill_fobf (channels avail : nat) (obf : nat -> nat -> float)
    (fobf : list float) : list float :=
  fold_left
    (fun fobf c =>
       fold_left
         (fun fobf i => store fobf (i * channels + c) (clamp (obf c i)))
         (seq 0 avail) fobf)
    (seq 0 channels) fobf.

(** ** The stretcher engine

    [RubberBandStretcher] is used through six entry points.  The engine is
    not part of the sources at hand: the driver is run against any
    implementation of this interface.  [ts_available] may change the
    engine's state (worker threads make progress between polls);
    [ts_retrieve] yields the content of [obf] after the call, indexed by
    channel and frame.
    [ts_construct] takes the default debug level in force, then the
    constructor's arguments: sample rate, channels, options, time ratio,
    frequency ratio. *)
Class Stretcher (T : Type) : Type := {
  ts_construct : Z -> Z -> nat -> Z -> float -> float -> T;
  ts_setExpectedInputDuration : T -> Z -> T;
  ts_study : T -> list (list float) -> Z -> bool -> T;
  ts_process : T -> list (list float) -> Z -> bool -> T;
  ts_available : T -> Z * T;
  ts_retrieve : T -> Z -> (nat -> nat -> float) * T
}.

(** What the driver does to the outside, in order. *)
Inductive event : Type :=
| EvStudy (ibuf : list (list float)) (count : Z) (final : bool)
| EvProcess (ibuf : list (list float)) (count : Z) (final : bool)
| EvAvailable (avail : Z)
| EvRetrieve (avail : Z)
| EvWrite (fobf : list float) (avail : Z)
| EvSleep (usec : Z).

Definition is_study (e : event) : bool :=
  match e with EvStudy _ _ _ => true | _ => false end.

Definition is_process (e : event) : bool :=
  match e with EvProcess _ _ _ => true | _ => false end.

(** The samples handed to [sf_writef_float] by an event. *)
Definition written (e : event) : list float :=
  match e with EvWrite fobf _ => fobf | _ => [] end.

Section Driver.

Context {T : Type} {engine : Stretcher T}.

(** The state the three loops thread: the stretcher, the read position of
    the input file, the counters and the events so far. *)
Record world : Type := mkWorld {
  w_ts : T;
  w_pos : nat;
  w_countIn : Z;
  w_countOut : Z;
  w_log : list event
}.

Definition emit (w : world) (ts : T) (es : list event) : world :=
  mkWorld ts (w_pos w) (w_countIn w) (w_countOut w) (w_log w ++ es).

Definition seek (w : world) (pos : nat) : world :=
  mkWorld (w_ts w) pos (w_countIn w) (w_countOut w) (w_log w).

Definition add_countIn (w : world) (count : Z) : world :=
  mkWorld (w_ts w) (w_pos w) (wrap_size_t (w_countIn w + count))
    (w_countOut w) (w_log w).

Definition add_countOut (w : world) (avail : Z) : world :=
  mkWorld (w_ts w) (w_pos w) (w_countIn w)
    (wrap_size_t (w_countOut w + avail)) (w_log w).

Variable uninit : float.
Variable sndfile : sound_file.

Definition channels : nat := sf_channels sndfile.

(** The body of [if (avail > 0) { ... }], the same in both loops. *)
Definition retrieve_and_write (avail : Z) (w : world) : world :=
  let '(obf, ts) := ts_retrieve (w_ts w) avail in
  let w := emit w ts [EvRetrieve avail] in
  let w := add_countOut w avail in
  let n := Z.to_nat avail in
  let fobf := fill_fobf channels n obf (repeat uninit (channels * n)) in
  emit w (w_ts w) [EvWrite fobf avail].

(** Pass 1.  [false] in the result: the fuel ran out inside the loop. *)
Fixpoint study_loop (fuel : nat) (frame : Z) (w : world) : bool * world :=
  if frame <? sf_frames sndfile then
    match fuel with
    | O => (false, w)
    | S fuel' =>
        let blk := sf_readf_float sndfile (w_pos w) ibs in
        let count := Z.of_nat (length blk) in
        let w := seek w (w_pos w + length blk) in
        if count <=? 0 then (true, w)
        else
          let ibuf := deinterleave channels (concat blk) (length blk) in
          let final := sf_frames sndfile <=? wrap_int (frame + ibs) in
          let w := emit w (ts_study (w_ts w) ibuf count final)
                     [EvStudy ibuf count final] in
          study_loop fuel' (wrap_int (frame + ibs)) w
    end
  else (true, w).

(** Pass 2. *)
Fixpoint process_loop (fuel : nat) (frame : Z) (w : world) : bool * world :=
  if frame <? sf_frames sndfile then
    match fuel with
    | O => (false, w)
    | S fuel' =>
        let blk := sf_readf_float sndfile (w_pos w) ibs in
        let count := Z.of_nat (length blk) in
        let w := seek w (w_pos w + length blk) in
        if count <? 0 then (true, w)
        else
          let w := add_countIn w count in
          let ibuf := deinterleave channels (concat blk) (length blk) in
          let final := sf_frames sndfile <=? wrap_int (frame + ibs) in
          let w := emit w (ts_process (w_ts w) ibuf count final)
                     [EvProcess ibuf count final] in
          let '(avail, ts) := ts_available (w_ts w) in
          let w := emit w ts [EvAvailable avail] in
          let w := if 0 <? avail then retrieve_and_write avail w else w in
          process_loop fuel' (wrap_int (frame + ibs)) w
    end
  else (true, w).

(** [while ((avail = ts.available()) >= 0) { ... }] *)
Fixpoint drain_loop (fuel : nat) (w : world) : bool * world :=
  match fuel with
  | O => (false, w)
  | S fuel' =>
      let '(avail, ts) := ts_available (w_ts w) in
      let w := emit w ts [EvAvailable avail] in
      if 0 <=? avail then
        drain_loop fuel'
          (if 0 <? avail then retrieve_and_write avail w
           else emit w (w_ts w) [EvSleep 10000])
      else (true, w)
  end.

(** One loop after the other; a loop that ran out of fuel ends the run. *)
Definition and_then (r : bool * world) (k : world -> bool * world)
  : bool * world :=
  if fst r then k (snd r) else r.

(** From [if (!realtime)] to the end of pass 2; [sf_seek] rewinds the input
    after pass 1. *)
Definition input_passes (fuel : nat) (rt : bool) (w : world) : bool * world :=
  and_then
    (if negb rt
     then and_then (study_loop fuel 0 w) (fun w => (true, seek w 0%nat))
     else (true, w))
    (fun w => process_loop fuel 0 w).

(** ... and on to the end of the drain loop. *)
Definition passes (fuel : nat) (rt : bool) (w : world) : bool * world :=
  and_then (input_passes fuel rt w) (fun w => drain_loop fuel w).

End Driver.

Arguments world T : clear implicits.

(** How a run ends: [main] returned [code], or the fuel ran out in a loop.
    The world is there once the stretcher has been constructed. *)
Inductive result (T : Type) : Type :=
| Returned (code : Z) (w : option (world T))
| Unfinished (w : world T).

Arguments Returned {T} code w.
Arguments Unfinished {T} w.

Section Main.

Context {T : Type} {engine : Stretcher T}.
Variable bits : OptionFlag -> Z.
Variable pow : float -> float -> float.
Variable uninit : float.
Variable fs : filesystem.

(** The stretcher and the world the loops start from. *)
Definition initial_world (v : locals) (sndfile : sound_file) : world T :=
  let options := options_word bits v in
  let v := pitch_adjust pow v in
  let ts := ts_construct (debug v) (sf_samplerate sndfile)
              (sf_channels sndfile) options (ratio v) (frequencyshift v) in
  let ts := ts_setExpectedInputDuration ts (sf_frames sndfile) in
  mkWorld ts 0%nat 0 0 [].

(** [main], from the option loop to [return 0].  What goes to [cerr] is
    left out, and so is [sfinfoOut], which only copies the input's format
    for [sf_open] in write mode.  [fuel] bounds the iterations of each
    loop. *)
Definition main (fuel : nat) (inv : invocation) : result T :=
  let v := parse_options (opts inv) in
  if usage_requested v inv then Returned 2 None
  else
    let v := crispness_switch v in
    match sf_open_read fs (fileName inv) with
    | None => Returned 1 None
    | Some sndfile =>
        if negb (sf_open_write fs (fileNameOut inv)) then Returned 1 None
        else
          let w := initial_world v sndfile in
          match passes uninit sndfile fuel (realtime v) w with
          | (true, w) => Returned 0 (Some w)
          | (false, w) => Unfinished w
          end
    end.

End Main.

Definition exit_code {T} (r : result T) : option Z :=
  match r with Returned code _ => Some code | Unfinished _ => None end.

Definition trace {T} (r : result T) : list event :=
  match r with
  | Returned _ None => []
  | Returned _ (Some w) => w_log w
  | Unfinished w => w_log w
  end.

(** ** A pass-through engine

    An implementation of the interface on which the driver can be run on
    concrete inputs: it queues what [process] is given, channel by channel,
    hands it back unchanged on [retrieve], and reports -1 once the final
    block has been seen and the queues are empty. *)

Record passthrough : Type := mkPassthrough {
  pt_queues : list (list float);
  pt_final : bool
}.

Fixpoint append_each (qs bs : list (list float)) : list (list float) :=
  match qs, bs with
  | q :: qs', b :: bs' => (q ++ b) :: append_each qs' bs'
  | _, _ => qs
  end.

Definition pt_ready (s : passthrough) : Z :=
  Z.of_nat (length (nth 0 (pt_queues s) [])).

#[export] Instance passthrough_engine : Stretcher passthrough := {
  ts_construct _ _ channels _ _ _ := mkPassthrough (repeat [] channels) false;
  ts_setExpectedInputDuration s _ := s;
  ts_study s _ _ _ := s;
  ts_process s ibuf _ final :=
    mkPassthrough (append_each (pt_queues s) ibuf) final;
  ts_available s :=
    (if pt_final s && (pt_ready s =? 0) then -1 else pt_ready s, s);
  ts_retrieve s avail :=
    (fun c i => nth i (nth c (pt_queues s) []) 0%float,
     mkPassthrough (map (skipn (Z.to_nat avail)) (pt_queues s)) (pt_final s))
}.

(** Sample values for the constants of the header: one bit per constant
    that departs from the defaults. *)
Definition sample_bits (f : OptionFlag) : Z :=
  match f with
  | OptionProcessRealTime => 1
  | OptionStretchPrecise => 16
  | OptionTransientsCrisp => 0
  | OptionTransientsMixed => 256
  | OptionTransientsSmooth => 512
  | OptionPhasePeakLocked => 4096
  | OptionPhaseIndependent => 8192
  | OptionThreadingAuto => 0
  | OptionThreadingNever => 65536
  | OptionThreadingAlways => 131072
  | OptionWindowShort => 1048576
  | OptionWindowLong => 2097152
  end.

(** A stand-in for the C library's [pow] where a run needs one; the runs
    below never shift the pitch. *)
Definition sample_pow (x y : float) : float := x.

(** A file system with one readable file, [in.wav], and any file writable
    but [ro.wav]. *)
Definition sample_fs (f : sound_file) : filesystem :=
  {| sf_open_read := fun name =>
       if String.eqb name "in.wav"%string then Some f else None;
     sf_open_write := fun name => negb (String.eqb name "ro.wav"%string) |}.

(** A mono file of three frames. *)
Definition three_frames : sound_file :=
  {| sf_frames := 3; sf_samplerate := 44100; sf_channels := 1;
     sf_data := [[0.5%float]; [2%float]; [(-3)%float]] |}.

(** A stereo file of two frames. *)
Definition stereo_frames : sound_file :=
  {| sf_frames := 2; sf_samplerate := 48000; sf_channels := 2;
     sf_data := [[0.5%float; 3%float]; [(-2)%float; 0.25%float]] |}.

(** Options [os] followed by the two file names; of [argv] only the
    entries from [optind] on are read. *)
Definition sample_invocation (os : list cli_opt) : invocation :=
  {| opts := os; optind := 3;
     argv := ["rubberband"; "-t"; "1"; "in.wav"; "out.wav"]%string |}.

Definition sample_main (f : sound_file) (fuel : nat) (inv : invocation)
  : result passthrough :=
  main sample_bits sample_pow 0%float (sample_fs f) fuel inv.

(** ** The configuration the stretcher is given, read off the constants *)

Inductive window_size : Type :=
| WindowShort
| WindowStandard
| WindowLong.

Record configuration : Type := mkConfiguration {
  cfg_transients : transients_mode;
  cfg_peaklock : bool;
  cfg_window : option window_size
}.

(** Transient mode, peak locking and window size as the word built from
    [fl] states them; a word with both window constants names no size. *)
Definition configuration_of (fl : list OptionFlag) : configuration :=
  {| cfg_transients :=
       if has OptionTransientsSmooth fl then NoTransients
       else if has OptionTransientsMixed fl then BandLimitedTransients
       else Transients;
     cfg_peaklock := negb (has OptionPhaseIndependent fl);
     cfg_window :=
       match has OptionWindowLong fl, has OptionWindowShort fl with
       | true, false => Some WindowLong
       | false, true => Some WindowShort
       | false, false => Some WindowStandard
       | true, true => None
       end |}.

(** The crispness table as the specification prints it (section 6). *)
Definition spec_crispness_row (n : Z) : option configuration :=
  match n with
  | 0 => Some (mkConfiguration NoTransients false (Some WindowLong))
  | 1 => Some (mkConfiguration NoTransients false (Some WindowStandard))
  | 2 => Some (mkConfiguration NoTransients true (Some WindowStandard))
  | 3 => Some (mkConfiguration BandLimitedTransients true (Some WindowStandard))
  | 4 => Some (mkConfiguration Transients true (Some WindowStandard))
  | 5 => Some (mkConfiguration Transients false (Some WindowShort))
  | _ => None
  end.

(** The locals once the option loop and the crispness switch have run. *)
Definition configured (os : list cli_opt) : locals :=
  crispness_switch (parse_options os).

Definition is_crisp (c : cli_opt) : bool :=
  match c with OptCrisp _ => true | _ => false end.

(** The options that set transient mode, peak locking or window size
    one by one. *)
Definition is_fine_tuning (c : cli_opt) : bool :=
  match c with
  | OptNoTransients | OptBlTransients | OptNoPeaklock
  | OptWindowLong | OptWindowShort => true
  | _ => false
  end.

Definition is_threading (c : cli_opt) : bool :=
  match c with OptNoThreads | OptThreads => true | _ => false end.

Definition is_precise (c : cli_opt) : bool :=
  match c with OptPrecise => true | _ => false end.

Definition is_realtime (c : cli_opt) : bool :=
  match c with OptRealtime => true | _ => false end.

(** ** Reading the trace *)

(** A sample lies in [-1.0, 1.0]. *)
Definition in_range (v : float) : bool :=
  PrimFloat.leb (-1)%float v && PrimFloat.leb v 1%float.

(** The study calls that take the whole of a file [f] through the engine,
    1024 frames at a time: call [k] carries frames [1024 k] onwards, and is
    marked final when it reaches the frame count the file reports. *)
Definition whole_input_study_call (f : sound_file) (k : nat) : event :=
  let blk := firstn 1024 (skipn (1024 * k) (sf_data f)) in
  EvStudy (deinterleave (sf_channels f) (concat blk) (length blk))
          (Z.of_nat (length blk))
          (sf_frames f <=? 1024 * (Z.of_nat k + 1)).

Definition whole_input_blocks (f : sound_file) : nat :=
  Z.to_nat ((sf_frames f + 1023) / 1024).

Definition whole_input_study_calls (f : sound_file) : list event :=
  map (whole_input_study_call f) (seq 0 (whole_input_blocks f)).

(** The frames carried by study call [k]. *)
Definition whole_input_block (f : sound_file) (k : nat) : list (list float) :=
  firstn 1024 (skipn (1024 * k) (sf_data f)).

(** The events of a drain loop that has ended: polls that return a
    positive count are followed by a retrieve and a write of that count,
    polls that return 0 by a sleep, and the one poll that returns a
    negative value ends the list. *)
Fixpoint drain_shape (es : list event) : bool :=
  match es with
  | [EvAvailable a] => a <? 0
  | EvAvailable a :: EvSleep _ :: rest => (a =? 0) && drain_shape rest
  | EvAvailable a :: EvRetrieve r :: EvWrite _ n :: rest =>
      (0 <? a) && (r =? a) && (n =? a) && drain_shape rest
  | _ => false
  end.

Definition polls (es : list event) : list Z :=
  flat_map (fun e => match e with EvAvailable a => [a] | _ => [] end) es.

(** An event of pass 2 or of the drain loop: never a study call, and a
    write carries a buffer filled by the two clamping loops. *)
Definition later_event (uninit : float) (sndfile : sound_file) (e : event)
  : Prop :=
  match e with
  | EvStudy _ _ _ => False
  | EvWrite fobf avail =>
      exists obf,
        fobf = fill_fobf (channels sndfile) (Z.to_nat avail) obf
                 (repeat uninit (channels sndfile * Z.to_nat avail))
  | _ => True
  end.

Section Convergence.

Context {T : Type} {engine : Stretcher T}.

(** Modelled from the spec: the engine ([RubberBandStretcher], not among
    the sources at hand) and its terminal convergence, "after process is
    called with final=true and output is drained via repeated
    retrieve/available polling, available() eventually returns the
    terminal sentinel", a negative value.  [drains_within n ts]: polled
    from state [ts], retrieving whatever is available each time, the
    engine returns the sentinel at the latest on poll [n + 1]. *)
Fixpoint drains_within (n : nat) (ts : T) : bool :=
  let '(avail, ts) := ts_available ts in
  if avail <? 0 then true
  else
    match n with
    | O => false
    | S n' =>
        drains_within n'
          (if 0 <? avail then snd (ts_retrieve ts avail) else ts)
    end.

End Convergence.

(** ** More readings of the command line and of the trace *)

(** The options that set [help]: [--help] and anything [getopt_long] does
    not recognise. *)
Definition is_help (c : cli_opt) : bool :=
  match c with OptHelp | OptUnrecognised => true | _ => false end.

(** The options that set [haveRatio]. *)
Definition is_ratio_option (c : cli_opt) : bool :=
  match c with
  | OptTime _ | OptTempo _ | OptPitch _ | OptFrequency _ => true
  | _ => false
  end.

Definition is_time_or_tempo (c : cli_opt) : bool :=
  match c with OptTime _ | OptTempo _ => true | _ => false end.

Definition is_pitch (c : cli_opt) : bool :=
  match c with OptPitch _ => true | _ => false end.

Definition is_frequency (c : cli_opt) : bool :=
  match c with OptFrequency _ => true | _ => false end.

Definition is_debug (c : cli_opt) : bool :=
  match c with OptDebug _ => true | _ => false end.

Definition is_no_peaklock (c : cli_opt) : bool :=
  match c with OptNoPeaklock => true | _ => false end.

Definition is_no_softening (c : cli_opt) : bool :=
  match c with OptNoSoftening => true | _ => false end.

Definition is_window_long (c : cli_opt) : bool :=
  match c with OptWindowLong => true | _ => false end.

Definition is_window_short (c : cli_opt) : bool :=
  match c with OptWindowShort => true | _ => false end.

Definition is_threading_flag (f : OptionFlag) : bool :=
  match f with
  | OptionThreadingAuto | OptionThreadingNever | OptionThreadingAlways => true
  | _ => false
  end.

Definition is_transients_flag (f : OptionFlag) : bool :=
  match f with
  | OptionTransientsSmooth | OptionTransientsMixed | OptionTransientsCrisp =>
      true
  | _ => false
  end.

(** The shape of a whole trace, for output buffers of [ch] channels: study
    and process calls, polls that found nothing (followed, in the drain
    loop, by a sleep), and polls that found [a > 0] frames, each followed
    at once by a retrieve of [a] frames and a write of [ch * a] samples. *)
Inductive driver_trace (ch : nat) : list event -> Prop :=
| dt_nil : driver_trace ch []
| dt_study ibuf count final es :
    driver_trace ch es -> driver_trace ch (EvStudy ibuf count final :: es)
| dt_process ibuf count final es :
    driver_trace ch es -> driver_trace ch (EvProcess ibuf count final :: es)
| dt_nothing a es :
    a <= 0 -> driver_trace ch es -> driver_trace ch (EvAvailable a :: es)
| dt_sleep usec es :
    driver_trace ch es -> driver_trace ch (EvSleep usec :: es)
| dt_output a fobf es :
    0 < a -> length fobf = (ch * Z.to_nat a)%nat ->
    driver_trace ch es ->
    driver_trace ch (EvAvailable a :: EvRetrieve a :: EvWrite fobf a :: es).

(** Frames asked of [retrieve], and frames handed to [process], over a
    trace. *)
Definition retrieved_total (es : list event) : Z :=
  fold_right
    (fun e t => match e with EvRetrieve a => a + t | _ => t end) 0 es.

Definition processed_total (es : list event) : Z :=
  fold_right
    (fun e t => match e with EvProcess _ count _ => count + t | _ => t end)
    0 es.

(** Process call [k] of pass 2 on a file [f]: the frames the file holds
    from [1024 k] on, at most 1024 and possibly none, final when the
    reported frame count is reached. *)
Definition process_call (f : sound_file) (k : nat) : event :=
  EvProcess
    (deinterleave (sf_channels f) (concat (whole_input_block f k))
       (length (whole_input_block f k)))
    (Z.of_nat (length (whole_input_block f k)))
    (sf_frames f <=? 1024 * (Z.of_nat k + 1)).

Definition final_of (e : event) : bool :=
  match e with
  | EvStudy _ _ final | EvProcess _ _ final => final
  | _ => false
  end.

(** The world a run ended in, or ran out of fuel in. *)
Definition final_world {T : Type} (r : result T) : option (world T) :=
  match r with
  | Returned _ w => w
  | Unfinished w => Some w
  end.

(** [countIn] and [countOut] against the trace so far. *)
Definition counted {T : Type} (w : world T) : Prop :=
  w_countIn w = wrap_size_t (processed_total (w_log w))
  /\ w_countOut w = wrap_size_t (retrieved_total (w_log w)).

(** The blocks of 1024 frames a file really holds, the last one possibly
    short. *)
Definition blocks_held (f : sound_file) : nat :=
  (length (sf_data f) + 1023) / 1024.

(** The blocks pass 1 gets to: it stops at the reported frame count or at
    the end of the data, whichever comes first. *)
Definition studied_blocks (f : sound_file) : nat :=
  Nat.min (whole_input_blocks f) (blocks_held f).

(** A study call read as the process call with the same arguments. *)
Definition study_as_process (e : event) : event :=
  match e with
  | EvStudy ibuf count final => EvProcess ibuf count final
  | _ => e
  end.

(** A file that reports 2000 frames and holds one. *)
Definition short_file : sound_file :=
  {| sf_frames := 2000; sf_samplerate := 44100; sf_channels := 1;
     sf_data := [[0.25%float]] |}.

(** ** Elapsed time

    [struct timeval] with its two [long] fields (64-bit), and the
    subtraction [main] does before it prints the elapsed time:
    [etv.tv_sec -= tv.tv_sec; if (etv.tv_usec < tv.tv_usec) {
    etv.tv_usec += 1000000; etv.tv_sec -= 1; } etv.tv_usec -= tv.tv_usec;] *)

Record timeval : Type := mkTimeval {
  tv_sec : Z;
  tv_usec : Z
}.

Definition wrap_long (z : Z) : Z :=
  (z + 9223372036854775808) mod 18446744073709551616 - 9223372036854775808.

Definition elapsed (tv etv : timeval) : timeval :=
  let etv := mkTimeval (wrap_long (tv_sec etv - tv_sec tv)) (tv_usec etv) in
  let etv :=
    if tv_usec etv <? tv_usec tv
    then mkTimeval (wrap_long (tv_sec etv - 1))
                   (wrap_long (tv_usec etv + 1000000))
    else etv in
  mkTimeval (tv_sec etv) (wrap_long (tv_usec etv - tv_usec tv)).

Definition microseconds (t : timeval) : Z := tv_sec t * 1000000 + tv_usec t.

(** ** The trace against the engine

    [engine_run ts es ts']: the events [es] are the record of calls made,
    in that order, on an engine in state [ts], which they leave in state
    [ts']: each study and process call is applied to the engine, each poll
    records the value [available] returned, and each retrieve is followed
    by the write of the buffer filled, by the two clamping loops, from
    what that [retrieve] delivered ([ch] channels, fresh memory holding
    [uninit]). *)

Section EngineRun.

Context {T : Type} {engine : Stretcher T}.
Variable uninit : float.
Variable ch : nat.

Inductive engine_run : T -> list event -> T -> Prop :=
| er_nil ts :
    engine_run ts [] ts
| er_study ts ibuf count final es ts' :
    engine_run (ts_study ts ibuf count final) es ts' ->
    engine_run ts (EvStudy ibuf count final :: es) ts'
| er_process ts ibuf count final es ts' :
    engine_run (ts_process ts ibuf count final) es ts' ->
    engine_run ts (EvProcess ibuf count final :: es) ts'
| er_available ts es ts' :
    engine_run (snd (ts_available ts)) es ts' ->
    engine_run ts (EvAvailable (fst (ts_available ts)) :: es) ts'
| er_output ts avail es ts' :
    engine_run (snd (ts_retrieve ts avail)) es ts' ->
    engine_run ts
      (EvRetrieve avail
       :: EvWrite
            (fill_fobf ch (Z.to_nat avail) (fst (ts_retrieve ts avail))
               (repeat uninit (ch * Z.to_nat avail)))
            avail
       :: es) ts'
| er_sleep ts usec es ts' :
    engine_run ts es ts' ->
    engine_run ts (EvSleep usec :: es) ts'.

End EngineRun.

(** ** The engine as the specification describes it *)

(** The frames every one of the queues can deliver. *)
Fixpoint min_length (qs : list (list float)) : nat :=
  match qs with
  | [] => 0
  | [q] => length q
  | q :: qs' => Nat.min (length q) (min_length qs')
  end.

(** Modelled from the spec: the stretcher engine ([RubberBandStretcher],
    whose implementation is not among the sources at hand), as far as the
    specification fixes what [available] answers.  Input accepted by
    [process] is buffered per channel and handed to the vocoder, which
    yields a block of output and keeps what it cannot use yet; the final
    call flushes what is buffered, and no input is accepted after it.
    Output is internal latency first ([se_latent]) and reaches the
    per-channel queues one block per poll.  [available] is the number of
    frames every queue can deliver, and the negative sentinel once the
    final call has been seen, the latency has drained and the queues hold
    nothing for some channel; [retrieve] takes the frames asked for off
    the front of each queue.  [study] builds a profile that no answer
    given here depends on.  The vocoder itself, the signal processing, is
    a parameter. *)
Record spec_engine : Type := mkSpecEngine {
  se_buffered : list (list float);
  se_latent : list (list (list float));
  se_queues : list (list float);
  se_final : bool
}.

(** Modelled from the spec: [process(inputBlock, final)]. *)
Definition spec_process
    (vocoder : bool -> list (list float)
               -> list (list float) * list (list float))
    (s : spec_engine) (ibuf : list (list float)) (count : Z) (final : bool)
  : spec_engine :=
  if se_final s then s
  else
    let buffered :=
      append_each (se_buffered s) (map (firstn (Z.to_nat count)) ibuf) in
    let '(out, kept) := vocoder final buffered in
    mkSpecEngine (if final then map (fun _ => []) buffered else kept)
      (se_latent s ++ [out]) (se_queues s) final.

(** Modelled from the spec: [available()], the frames immediately
    retrievable, or the negative sentinel. *)
Definition spec_available (s : spec_engine) : Z * spec_engine :=
  let '(queues, latent) :=
    match se_latent s with
    | [] => (se_queues s, [])
    | block :: rest => (append_each (se_queues s) block, rest)
    end in
  let ready := Z.of_nat (min_length queues) in
  (if se_final s && (match latent with [] => true | _ => false end)
      && (ready =? 0)
   then -1 else ready,
   mkSpecEngine (se_buffered s) latent queues (se_final s)).

(** Modelled from the spec: [retrieve(maxFrames)]. *)
Definition spec_retrieve (s : spec_engine) (avail : Z)
  : (nat -> nat -> float) * spec_engine :=
  (fun c i => nth i (nth c (se_queues s) []) 0%float,
   mkSpecEngine (se_buffered s) (se_latent s)
     (map (skipn (Z.to_nat avail)) (se_queues s)) (se_final s)).

(** Modelled from the spec: the interface, on that engine. *)
Definition spec_stretcher
    (vocoder : bool -> list (list float)
               -> list (list float) * list (list float))
  : Stretcher spec_engine :=
  {| ts_construct := fun _ _ channels _ _ _ =>
       mkSpecEngine (repeat [] channels) [] (repeat [] channels) false;
     ts_setExpectedInputDuration := fun s _ => s;
     ts_study := fun s _ _ _ => s;
     ts_process := spec_process vocoder;
     ts_available := spec_available;
     ts_retrieve := spec_retrieve |}.

(** A vocoder for sample runs: it lets its input through and keeps
    nothing. *)
Definition sample_vocoder (final : bool) (buffered : list (list float))
  : list (list float) * list (list float) :=
  (buffered, map (fun _ => []) buffered).

(** A file that reports and holds 1025 frames: two blocks. *)
Definition two_blocks : sound_file :=
  {| sf_frames := 1025; sf_samplerate := 44100; sf_channels := 1;
     sf_data := repeat [0.5%float] 1025 |}.

(** * Properties *)

(** ** Sample runs *)

Example stereo_offline_run :
  sample_main stereo_frames 2 (sample_invocation [OptTime 1%float])
  = Returned 0
      (Some
         {| w_ts := {| pt_queues := [[]; []]; pt_final := true |};
            w_pos := 2; w_countIn := 2; w_countOut := 2;
            w_log :=
              [EvStudy [[0.5%float; (-2)%float]; [3%float; 0.25%float]] 2 true;
               EvProcess [[0.5%float; (-2)%float]; [3%float; 0.25%float]] 2 true;
               EvAvailable 2; EvRetrieve 2;
               EvWrite [0.5%float; 1%float; (-1)%float; 0.25%float] 2;
               EvAvailable (-1)] |}).
Proof. vm_compute. reflexivity. Qed.

Example stereo_realtime_trace :
  trace (sample_main stereo_frames 2
           (sample_invocation [OptRealtime; OptTime 1%float]))
  = [EvProcess [[0.5%float; (-2)%float]; [3%float; 0.25%float]] 2 true;
     EvAvailable 2; EvRetrieve 2;
     EvWrite [0.5%float; 1%float; (-1)%float; 0.25%float] 2;
     EvAvailable (-1)].
Proof. vm_compute. reflexivity. Qed.

Example out_of_fuel :
  exit_code (sample_main stereo_frames 0 (sample_invocation [OptTime 1%float]))
  = None.
Proof. reflexivity. Qed.

Example realtime_crisp5_word :
  option_flags (configured [OptRealtime; OptCrisp 5; OptNoSoftening])
  = [OptionProcessRealTime; OptionPhaseIndependent; OptionPhasePeakLocked;
     OptionWindowShort; OptionThreadingAuto; OptionTransientsCrisp]
  /\ options_word sample_bits
       (configured [OptRealtime; OptCrisp 5; OptNoSoftening])
     = 1060865.
Proof. split; reflexivity. Qed.

(** ** The option loop *)

Lemma parse_from_app (v : locals) (a b : list cli_opt) :
  parse_from v (a ++ b) = parse_from (parse_from v a) b.
Proof. unfold parse_from. apply fold_left_app. Qed.

Lemma parse_from_snoc (v : locals) (a : list cli_opt) (c : cli_opt) :
  parse_from v (a ++ [c]) = option_switch (parse_from v a) c.
Proof. rewrite parse_from_app. reflexivity. Qed.

(** A property kept by every option of the list is kept by the loop. *)
Lemma parse_from_invariant (P : locals -> Prop) (l : list cli_opt) :
  (forall v c, In c l -> P v -> P (option_switch v c)) ->
  forall v, P v -> P (parse_from v l).
Proof.
  induction l as [|c l IH]; intros Hstep v Hv; simpl.
  - exact Hv.
  - apply IH.
    + intros v' c' Hin. apply Hstep. now right.
    + apply Hstep; [now left | exact Hv].
Qed.

Lemma haveRatio_option_switch (v : locals) (c : cli_opt) :
  haveRatio v = true -> haveRatio (option_switch v c) = true.
Proof. destruct c; simpl; auto. Qed.

Lemma haveRatio_sticky (l : list cli_opt) (v : locals) :
  haveRatio v = true -> haveRatio (parse_from v l) = true.
Proof.
  apply (parse_from_invariant (fun v => haveRatio v = true)).
  intros v' c _. apply haveRatio_option_switch.
Qed.

Lemma haveRatio_after (pre post : list cli_opt) (c : cli_opt) :
  haveRatio (option_switch (parse_options pre) c) = true ->
  haveRatio (parse_options (pre ++ c :: post)) = true.
Proof.
  intros H. unfold parse_options. rewrite parse_from_app. simpl.
  now apply haveRatio_sticky.
Qed.

Lemma float_one_is_not_infinity : 1%float <> infinity.
Proof.
  intro H. apply (f_equal (fun x => PrimFloat.eqb x 1%float)) in H.
  vm_compute in H. discriminate.
Qed.

(** C5, as stated, at [--tempo 0]: the ratio stays 1.0, while 1.0 divided
    by 0 is infinity. *)
Lemma tempo_zero_is_not_a_division :
  ratio (parse_options [OptTempo 0%float])
  <> PrimFloat.div (ratio (parse_options [])) 0%float.
Proof. vm_compute. exact float_one_is_not_infinity. Qed.

(** C5 (amended): the time ratio starts at 1.0; each [--time X] multiplies
    it by X; each [--tempo X] divides it by X when X differs from 0 (C's
    [!=]) and leaves it as it is when X is 0; either option, whatever X,
    sets [haveRatio], which no later option clears. *)
Theorem time_and_tempo_accumulate :
  ratio (parse_options []) = 1%float
  /\ (forall pre x,
        ratio (parse_options (pre ++ [OptTime x]))
        = PrimFloat.mul (ratio (parse_options pre)) x)
  /\ (forall pre m,
        ratio (parse_options (pre ++ [OptTempo m]))
        = if fneq m 0%float
          then PrimFloat.div (ratio (parse_options pre)) m
          else ratio (parse_options pre))
  /\ (forall pre post x,
        haveRatio (parse_options (pre ++ OptTime x :: post)) = true
        /\ haveRatio (parse_options (pre ++ OptTempo x :: post)) = true).
Proof.
  repeat split.
  - intros pre x. unfold parse_options. now rewrite parse_from_snoc.
  - intros pre m. unfold parse_options. rewrite parse_from_snoc. simpl.
    now destruct (fneq m 0%float).
  - now apply haveRatio_after.
  - now apply haveRatio_after.
Qed.

(** ** Crispness *)

Lemma crispness_kept (post : list cli_opt) (v : locals) :
  existsb is_crisp post = false ->
  crispness (parse_from v post) = crispness v.
Proof.
  intros Hno.
  apply (parse_from_invariant (fun v' => crispness v' = crispness v));
    [|reflexivity].
  intros v' c Hin Hv'.
  assert (Hc : is_crisp c = false).
  { destruct (is_crisp c) eqn:E; [|reflexivity].
    rewrite <- Hno. symmetry. apply existsb_exists. now exists c. }
  destruct c; simpl in *; try discriminate; try exact Hv'.
  now destruct (fneq m 0%float).
Qed.

Lemma crispness_of_last_option (pre post : list cli_opt) (n : Z) :
  existsb is_crisp post = false ->
  crispness (parse_options (pre ++ OptCrisp n :: post)) = n.
Proof.
  intros Hno. unfold parse_options. rewrite parse_from_app. simpl.
  now rewrite crispness_kept.
Qed.

Lemma spec_crispness_row_levels (n : Z) (row : configuration) :
  spec_crispness_row n = Some row ->
  n = 0 \/ n = 1 \/ n = 2 \/ n = 3 \/ n = 4 \/ n = 5.
Proof.
  destruct n as [|p|p]; simpl; try discriminate; [tauto|].
  destruct p as [[p|p|]|[p|p|]|]; try discriminate; try tauto;
    destruct p; try discriminate; tauto.
Qed.

(** What the constants say is what the four locals hold. *)
Lemma configuration_of_option_flags (v : locals) :
  configuration_of (option_flags v)
  = {| cfg_transients := transients v;
       cfg_peaklock := peaklock v;
       cfg_window :=
         match longwin v, shortwin v with
         | true, false => Some WindowLong
         | false, true => Some WindowShort
         | false, false => Some WindowStandard
         | true, true => None
         end |}.
Proof.
  destruct v as [r p f d rt pr th pl lw sw so cr h q hr tr t0 t1 t2].
  unfold configuration_of, option_flags, has; simpl.
  destruct rt, pr, pl, so, lw, sw, tr;
    destruct th as [|[[t|t|]|[t|t|]|]|t]; reflexivity.
Qed.

Lemma fine_tuning_kept (os : list cli_opt) (v : locals) :
  existsb is_fine_tuning os = false ->
  transients (parse_from v os) = transients v
  /\ peaklock (parse_from v os) = peaklock v
  /\ longwin (parse_from v os) = longwin v
  /\ shortwin (parse_from v os) = shortwin v.
Proof.
  intros Hno.
  apply (parse_from_invariant
           (fun v' => transients v' = transients v
                      /\ peaklock v' = peaklock v
                      /\ longwin v' = longwin v
                      /\ shortwin v' = shortwin v)); [|tauto].
  intros v' c Hin Hv'.
  assert (Hc : is_fine_tuning c = false).
  { destruct (is_fine_tuning c) eqn:E; [|reflexivity].
    rewrite <- Hno. symmetry. apply existsb_exists. now exists c. }
  destruct c; simpl in *; try discriminate; try exact Hv'.
  now destruct (fneq m 0%float).
Qed.

(** C1: a crispness level N in 0..5, given by the last [--crispness] (or
    [--crisp]) of the command line, yields exactly row N of the table,
    whatever the other options; with no crispness option the level is 4,
    and then, unless a fine-tuning option says otherwise, the configuration
    is row 4. *)
Theorem crispness_table_exact (pre post : list cli_opt) (n : Z)
    (row : configuration) :
  spec_crispness_row n = Some row ->
  existsb is_crisp post = false ->
  configuration_of (option_flags (configured (pre ++ OptCrisp n :: post)))
  = row
  /\ crispness (configured (pre ++ OptCrisp n :: post)) = n
  /\ crispness (configured post) = 4
  /\ (existsb is_fine_tuning post = false ->
      Some (configuration_of (option_flags (configured post)))
      = spec_crispness_row 4).
Proof.
  intros Hrow Hpost.
  pose proof (crispness_of_last_option pre post n Hpost) as Hn.
  pose proof (crispness_kept post initial_locals Hpost) as Hd.
  unfold configured. rewrite !configuration_of_option_flags.
  unfold crispness_switch. fold (parse_options post) in Hd.
  rewrite Hn, Hd. simpl (crispness initial_locals).
  repeat split.
  - destruct (spec_crispness_row_levels n row Hrow)
      as [E|[E|[E|[E|[E|E]]]]]; subst n; simpl in Hrow;
      injection Hrow as <-; reflexivity.
  - destruct (spec_crispness_row_levels n row Hrow)
      as [E|[E|[E|[E|[E|E]]]]]; subst n; simpl; exact Hn.
  - intros Hfine.
    destruct (fine_tuning_kept post initial_locals Hfine)
      as (Ht & Hp & Hl & Hs).
    fold (parse_options post) in Ht, Hp, Hl, Hs.
    simpl. rewrite Ht, Hp, Hl, Hs. reflexivity.
Qed.

Lemma crispness_table_exact_witness :
  configuration_of
    (option_flags
       (configured
          ([OptNoPeaklock; OptWindowShort; OptTime 2%float]
             ++ OptCrisp 0 :: [OptQuiet])))
  = mkConfiguration NoTransients false (Some WindowLong)
  /\ crispness
       (configured
          ([OptNoPeaklock; OptWindowShort; OptTime 2%float]
             ++ OptCrisp 0 :: [OptQuiet]))
     = 0
  /\ crispness (configured [OptQuiet]) = 4
  /\ Some (configuration_of (option_flags (configured [OptQuiet])))
     = spec_crispness_row 4.
Proof.
  destruct (crispness_table_exact
              [OptNoPeaklock; OptWindowShort; OptTime 2%float] [OptQuiet] 0
              (mkConfiguration NoTransients false (Some WindowLong))
              eq_refl eq_refl) as (H1 & H2 & H3 & H4).
  exact (conj H1 (conj H2 (conj H3 (H4 eq_refl)))).
Defined.

(** ** Real-time mode and the option word *)

Lemma has_option_flags (v : locals) :
  has OptionProcessRealTime (option_flags v) = realtime v
  /\ has OptionStretchPrecise (option_flags v) = precise v
  /\ has OptionThreadingAuto (option_flags v) = (threading v =? 0)
  /\ has OptionThreadingNever (option_flags v) = (threading v =? 1)
  /\ has OptionThreadingAlways (option_flags v) = (threading v =? 2).
Proof.
  destruct v as [r p f d rt pr th pl lw sw so cr h q hr tr t0 t1 t2].
  unfold option_flags, has; simpl.
  destruct rt, pr, pl, so, lw, sw, tr;
    destruct th as [|[[t|t|]|[t|t|]|]|t]; repeat split; reflexivity.
Qed.

(** The crispness switch touches neither mode, precision nor threading. *)
Lemma crispness_switch_keeps (v : locals) :
  realtime (crispness_switch v) = realtime v
  /\ precise (crispness_switch v) = precise v
  /\ threading (crispness_switch v) = threading v.
Proof.
  unfold crispness_switch.
  destruct (crispness v) as [|[[p|p|]|[p|p|]|]|[p|p|]];
    try (repeat split; reflexivity);
    destruct p; repeat split; reflexivity.
Qed.

Lemma realtime_parse_from (os : list cli_opt) (v : locals) :
  realtime (parse_from v os) = realtime v || existsb is_realtime os.
Proof.
  revert v. induction os as [|c os IH]; intros v; simpl.
  - now rewrite orb_false_r.
  - rewrite IH. destruct c; simpl; try reflexivity.
    + now destruct (fneq m 0%float).
    + now rewrite orb_true_r.
Qed.

Lemma precise_parse_from (os : list cli_opt) (v : locals) :
  precise (parse_from v os) = precise v || existsb is_precise os.
Proof.
  revert v. induction os as [|c os IH]; intros v; simpl.
  - now rewrite orb_false_r.
  - rewrite IH. destruct c; simpl; try reflexivity.
    + now destruct (fneq m 0%float).
    + now rewrite orb_true_r.
Qed.

Lemma threading_parse_from (os : list cli_opt) (v : locals) :
  existsb is_threading os = false ->
  threading (parse_from v os) = threading v.
Proof.
  revert v. induction os as [|c os IH]; intros v; simpl; [reflexivity|].
  intros H. apply orb_false_iff in H as [Hc Hos].
  rewrite IH by exact Hos.
  destruct c; simpl in *; try discriminate; try reflexivity.
  now destruct (fneq m 0%float).
Qed.

(** C2, as stated, at [--time 2 --realtime]: the word holds the real-time
    constant, the automatic threading constant and the crisp transients
    constant, neither "threading never" nor "precise". *)
Lemma realtime_alone_asks_for_threading_auto :
  option_flags (configured [OptTime 2%float; OptRealtime])
  = [OptionProcessRealTime; OptionThreadingAuto; OptionTransientsCrisp]
  /\ has OptionThreadingNever
       (option_flags (configured [OptTime 2%float; OptRealtime])) = false
  /\ has OptionStretchPrecise
       (option_flags (configured [OptTime 2%float; OptRealtime])) = false.
Proof. repeat split. Qed.

(** C2 (amended): with [--realtime] and neither [--no-threads] nor
    [--threads], the option word the driver builds holds the real-time
    constant and the automatic threading constant, not "never" nor
    "always", and holds the precise constant exactly when [--precise] is
    given: forcing precision on and threading off is left to the engine. *)
Theorem realtime_option_word (os : list cli_opt) :
  existsb is_realtime os = true ->
  existsb is_threading os = false ->
  has OptionProcessRealTime (option_flags (configured os)) = true
  /\ has OptionThreadingAuto (option_flags (configured os)) = true
  /\ has OptionThreadingNever (option_flags (configured os)) = false
  /\ has OptionThreadingAlways (option_flags (configured os)) = false
  /\ has OptionStretchPrecise (option_flags (configured os))
     = existsb is_precise os.
Proof.
  intros Hrt Hth.
  destruct (has_option_flags (configured os)) as (H1 & H2 & H3 & H4 & H5).
  destruct (crispness_switch_keeps (parse_options os)) as (K1 & K2 & K3).
  rewrite H1, H2, H3, H4, H5. unfold configured.
  rewrite K1, K2, K3. unfold parse_options.
  rewrite realtime_parse_from, precise_parse_from,
    (threading_parse_from os initial_locals Hth), Hrt.
  repeat split.
Qed.

Lemma realtime_option_word_witness :
  has OptionProcessRealTime
    (option_flags (configured [OptRealtime; OptPitch 3%float])) = true
  /\ has OptionThreadingAuto
       (option_flags (configured [OptRealtime; OptPitch 3%float])) = true
  /\ has OptionThreadingNever
       (option_flags (configured [OptRealtime; OptPitch 3%float])) = false
  /\ has OptionThreadingAlways
       (option_flags (configured [OptRealtime; OptPitch 3%float])) = false
  /\ has OptionStretchPrecise
       (option_flags (configured [OptRealtime; OptPitch 3%float]))
     = existsb is_precise [OptRealtime; OptPitch 3%float].
Proof.
  apply (realtime_option_word [OptRealtime; OptPitch 3%float]); reflexivity.
Defined.

(** ** Pitch *)

(** C3 at [--pitch 1]: one semitone is the value [pitchshift] starts with,
    so the test [pitchshift != 1.0] fails and the frequency ratio stays the
    [--frequency] value (1.0 without one), whatever [pow] computes; at
    [--pitch 2] the same path multiplies by [pow(2.0, 2.0 / 12)]. *)
Theorem pitch_of_one_semitone_is_dropped (pow : float -> float -> float)
    (f : float) :
  frequencyshift (pitch_adjust pow (configured [OptFrequency f; OptPitch 1%float]))
  = f
  /\ frequencyshift (pitch_adjust pow (configured [OptPitch 1%float]))
     = 1%float
  /\ frequencyshift (pitch_adjust pow (configured [OptFrequency f; OptPitch 2%float]))
     = PrimFloat.mul f (pow 2%float (PrimFloat.div 2%float 12%float)).
Proof. repeat split. Qed.

(** Away from 1.0 the semitones are converted and multiplied in. *)
Lemma pitch_adjust_converts (pow : float -> float -> float) (v : locals) :
  fneq (pitchshift v) 1%float = true ->
  frequencyshift (pitch_adjust pow v)
  = PrimFloat.mul (frequencyshift v)
      (pow 2%float (PrimFloat.div (pitchshift v) 12%float)).
Proof. intros H. unfold pitch_adjust. now rewrite H. Qed.

(** ** The loops: what they append to the trace *)

Lemma wrap_int_small (z : Z) :
  -2147483648 <= z <= INT_MAX -> wrap_int z = z.
Proof.
  unfold wrap_int, INT_MAX. intros H.
  rewrite Z.mod_small by lia. lia.
Qed.

Section LoopFacts.

Context {T : Type} {engine : Stretcher T}.
Variable uninit : float.
Variable sndfile : sound_file.

Lemma retrieve_and_write_ts (avail : Z) (w : world T) :
  w_ts (retrieve_and_write uninit sndfile avail w)
  = snd (ts_retrieve (w_ts w) avail).
Proof.
  unfold retrieve_and_write. now destruct (ts_retrieve (w_ts w) avail).
Qed.

Lemma retrieve_and_write_log (avail : Z) (w : world T) :
  w_log (retrieve_and_write uninit sndfile avail w)
  = w_log w
    ++ [EvRetrieve avail;
        EvWrite (fill_fobf (channels sndfile) (Z.to_nat avail)
                   (fst (ts_retrieve (w_ts w) avail))
                   (repeat uninit (channels sndfile * Z.to_nat avail)))
                avail].
Proof.
  unfold retrieve_and_write. destruct (ts_retrieve (w_ts w) avail); simpl.
  now rewrite <- app_assoc.
Qed.

Lemma retrieve_and_write_later (avail : Z) (w : world T) :
  exists es,
    w_log (retrieve_and_write uninit sndfile avail w) = w_log w ++ es
    /\ Forall (later_event uninit sndfile) es.
Proof.
  eexists. split; [apply retrieve_and_write_log|].
  repeat constructor. simpl. now eexists.
Qed.

Lemma study_loop_S (fuel : nat) (frame : Z) (w : world T) :
  study_loop sndfile (S fuel) frame w
  = if frame <? sf_frames sndfile then
      let blk := sf_readf_float sndfile (w_pos w) ibs in
      let count := Z.of_nat (length blk) in
      let w := seek w (w_pos w + length blk) in
      if count <=? 0 then (true, w)
      else
        let ibuf := deinterleave (channels sndfile) (concat blk) (length blk) in
        let final := sf_frames sndfile <=? wrap_int (frame + ibs) in
        study_loop sndfile fuel (wrap_int (frame + ibs))
          (emit w (ts_study (w_ts w) ibuf count final)
             [EvStudy ibuf count final])
    else (true, w).
Proof. reflexivity. Qed.

Lemma process_loop_S (fuel : nat) (frame : Z) (w : world T) :
  process_loop uninit sndfile (S fuel) frame w
  = if frame <? sf_frames sndfile then
      let blk := sf_readf_float sndfile (w_pos w) ibs in
      let count := Z.of_nat (length blk) in
      let w := seek w (w_pos w + length blk) in
      if count <? 0 then (true, w)
      else
        let w := add_countIn w count in
        let ibuf := deinterleave (channels sndfile) (concat blk) (length blk) in
        let final := sf_frames sndfile <=? wrap_int (frame + ibs) in
        let w := emit w (ts_process (w_ts w) ibuf count final)
                   [EvProcess ibuf count final] in
        let '(avail, ts) := ts_available (w_ts w) in
        let w := emit w ts [EvAvailable avail] in
        let w := if 0 <? avail
                 then retrieve_and_write uninit sndfile avail w else w in
        process_loop uninit sndfile fuel (wrap_int (frame + ibs)) w
    else (true, w).
Proof. reflexivity. Qed.

Lemma loop_O (frame : Z) (w : world T) :
  study_loop sndfile 0 frame w
  = (if frame <? sf_frames sndfile then (false, w) else (true, w))
  /\ process_loop uninit sndfile 0 frame w
     = (if frame <? sf_frames sndfile then (false, w) else (true, w)).
Proof. split; reflexivity. Qed.

(** Pass 1 appends study calls only. *)
Lemma study_loop_log (fuel : nat) :
  forall frame w, exists es,
    w_log (snd (study_loop sndfile fuel frame w)) = w_log w ++ es
    /\ forallb is_study es = true.
Proof.
  induction fuel as [|fuel IH]; intros frame w.
  - destruct (loop_O frame w) as [-> _].
    exists []. rewrite app_nil_r.
    now destruct (frame <? sf_frames sndfile).
  - rewrite study_loop_S.
    destruct (frame <? sf_frames sndfile);
      [|exists []; now rewrite app_nil_r].
    cbv zeta.
    destruct (Z.of_nat (length (sf_readf_float sndfile (w_pos w) ibs)) <=? 0);
      [exists []; simpl; now rewrite app_nil_r|].
    match goal with
    | |- context [study_loop sndfile fuel ?f ?w'] =>
        destruct (IH f w') as (es & Hlog & Hes)
    end.
    rewrite Hlog. simpl. rewrite <- app_assoc.
    eexists. split; [reflexivity|]. simpl. exact Hes.
Qed.

(** Pass 2 appends no study call, and writes clamped buffers only. *)
Lemma process_loop_log (fuel : nat) :
  forall frame w, exists es,
    w_log (snd (process_loop uninit sndfile fuel frame w)) = w_log w ++ es
    /\ Forall (later_event uninit sndfile) es.
Proof.
  induction fuel as [|fuel IH]; intros frame w.
  - destruct (loop_O frame w) as [_ ->].
    exists []. rewrite app_nil_r.
    now destruct (frame <? sf_frames sndfile).
  - rewrite process_loop_S.
    destruct (frame <? sf_frames sndfile);
      [|exists []; now rewrite app_nil_r].
    cbv zeta.
    destruct (Z.of_nat (length (sf_readf_float sndfile (w_pos w) ibs)) <? 0);
      [exists []; simpl; now rewrite app_nil_r|].
    match goal with
    | |- context [ts_available ?s] => destruct (ts_available s) as [avail ts]
    end.
    match goal with
    | |- context [process_loop uninit sndfile fuel ?f ?w'] =>
        destruct (IH f w') as (es & Hlog & Hes)
    end.
    rewrite Hlog.
    destruct (0 <? avail).
    + match goal with
      | |- context [retrieve_and_write uninit sndfile avail ?w'] =>
          destruct (retrieve_and_write_later avail w') as (es' & -> & Hes')
      end.
      simpl. rewrite <- !app_assoc.
      eexists. split; [reflexivity|].
      simpl. repeat (constructor; [exact I|]).
      apply Forall_app. now split.
    + simpl. rewrite <- !app_assoc.
      eexists. split; [reflexivity|].
      simpl. repeat (constructor; [exact I|]). exact Hes.
Qed.

(** So does the drain loop. *)
Lemma drain_loop_log (fuel : nat) :
  forall w, exists es,
    w_log (snd (drain_loop uninit sndfile fuel w)) = w_log w ++ es
    /\ Forall (later_event uninit sndfile) es.
Proof.
  induction fuel as [|fuel IH]; intros w; simpl.
  - exists []. now rewrite app_nil_r.
  - destruct (ts_available (w_ts w)) as [avail ts].
    destruct (0 <=? avail).
    + match goal with
      | |- context [drain_loop uninit sndfile fuel ?w'] =>
          destruct (IH w') as (es & Hlog & Hes)
      end.
      rewrite Hlog.
      destruct (0 <? avail).
      * match goal with
        | |- context [retrieve_and_write uninit sndfile avail ?w'] =>
            destruct (retrieve_and_write_later avail w') as (es' & -> & Hes')
        end.
        simpl. rewrite <- !app_assoc.
        eexists. split; [reflexivity|].
        simpl. constructor; [exact I|]. apply Forall_app. now split.
      * simpl. rewrite <- !app_assoc.
        eexists. split; [reflexivity|].
        simpl. repeat (constructor; [exact I|]). exact Hes.
    + simpl. eexists. split; [reflexivity|]. repeat constructor.
Qed.

End LoopFacts.

(** ** Termination of the two passes *)

Section Termination.

Context {T : Type} {engine : Stretcher T}.
Variable uninit : float.
Variable sndfile : sound_file.
Hypothesis frames_fit : sf_frames sndfile <= INT_MAX - ibs.

Lemma next_frame (frame : Z) :
  0 <= frame -> frame < sf_frames sndfile ->
  wrap_int (frame + ibs) = frame + ibs.
Proof.
  intros H0 H1. apply wrap_int_small.
  unfold INT_MAX, ibs in *. lia.
Qed.

Lemma study_loop_terminates (fuel : nat) :
  forall frame (w : world T),
    0 <= frame ->
    sf_frames sndfile - frame <= ibs * Z.of_nat fuel ->
    fst (study_loop sndfile fuel frame w) = true.
Proof.
  induction fuel as [|fuel IH]; intros frame w H0 Hfuel.
  - destruct (loop_O uninit sndfile frame w) as [-> _].
    destruct (frame <? sf_frames sndfile) eqn:E; [|reflexivity].
    apply Z.ltb_lt in E. unfold ibs in *. lia.
  - rewrite study_loop_S.
    destruct (frame <? sf_frames sndfile) eqn:E; [|reflexivity].
    apply Z.ltb_lt in E. cbv zeta.
    destruct (Z.of_nat (length (sf_readf_float sndfile (w_pos w) ibs)) <=? 0);
      [reflexivity|].
    rewrite (next_frame frame H0 E).
    apply IH; unfold ibs in *; lia.
Qed.

Lemma process_loop_terminates (fuel : nat) :
  forall frame (w : world T),
    0 <= frame ->
    sf_frames sndfile - frame <= ibs * Z.of_nat fuel ->
    fst (process_loop uninit sndfile fuel frame w) = true.
Proof.
  induction fuel as [|fuel IH]; intros frame w H0 Hfuel.
  - destruct (loop_O uninit sndfile frame w) as [_ ->].
    destruct (frame <? sf_frames sndfile) eqn:E; [|reflexivity].
    apply Z.ltb_lt in E. unfold ibs in *. lia.
  - rewrite process_loop_S.
    destruct (frame <? sf_frames sndfile) eqn:E; [|reflexivity].
    apply Z.ltb_lt in E. cbv zeta.
    destruct (Z.of_nat (length (sf_readf_float sndfile (w_pos w) ibs)) <? 0);
      [reflexivity|].
    match goal with
    | |- context [ts_available ?s] => destruct (ts_available s) as [avail ts]
    end.
    rewrite (next_frame frame H0 E).
    apply IH; unfold ibs in *; lia.
Qed.

Lemma input_passes_terminate (fuel : nat) (rt : bool) (w : world T) :
  sf_frames sndfile <= ibs * Z.of_nat fuel ->
  fst (input_passes uninit sndfile fuel rt w) = true.
Proof.
  intros Hfuel. unfold input_passes, and_then.
  destruct rt; simpl.
  - apply process_loop_terminates; lia.
  - rewrite (study_loop_terminates fuel 0 w) by lia. simpl.
    apply process_loop_terminates; lia.
Qed.

End Termination.

(** ** Pass 1 takes the whole input through [study] *)

Lemma blocks_cover (A : Type) (n : nat) :
  forall l : list A,
    (length l <= 1024 * n)%nat ->
    concat (map (fun k => firstn 1024 (skipn (1024 * k) l)) (seq 0 n)) = l.
Proof.
  induction n as [|n IH]; intros l Hlen.
  - destruct l; [reflexivity|simpl in Hlen; lia].
  - rewrite <- cons_seq, <- seq_shift.
    cbn [map concat]. rewrite map_map, Nat.mul_0_r. cbn [skipn].
    transitivity (firstn 1024 l ++ skipn 1024 l); [|apply firstn_skipn].
    f_equal.
    transitivity
      (concat (map (fun k => firstn 1024 (skipn (1024 * k) (skipn 1024 l)))
                 (seq 0 n))).
    + f_equal. apply map_ext. intros k.
      rewrite skipn_skipn. do 2 f_equal. lia.
    + apply IH. rewrite length_skipn. lia.
Qed.

Lemma whole_input_blocks_spec (f : sound_file) (k : nat) :
  (k < whole_input_blocks f)%nat <-> 1024 * Z.of_nat k < sf_frames f.
Proof.
  unfold whole_input_blocks.
  pose proof (Z.div_mod (sf_frames f + 1023) 1024 ltac:(lia)) as Hdm.
  pose proof (Z.mod_pos_bound (sf_frames f + 1023) 1024 ltac:(lia)) as Hb.
  split; intros H; lia.
Qed.

Lemma whole_input_final (f : sound_file) (k : nat) :
  (k < whole_input_blocks f)%nat ->
  (sf_frames f <=? 1024 * (Z.of_nat k + 1)) = (S k =? whole_input_blocks f)%nat.
Proof.
  intros Hk.
  destruct (Nat.eqb_spec (S k) (whole_input_blocks f)) as [E|E].
  - apply Z.leb_le.
    assert (H : ~ (S k < whole_input_blocks f)%nat) by lia.
    rewrite whole_input_blocks_spec in H. lia.
  - apply Z.leb_gt.
    assert (H : (S k < whole_input_blocks f)%nat) by lia.
    rewrite whole_input_blocks_spec in H. lia.
Qed.

Section WholeInput.

Context {T : Type} {engine : Stretcher T}.
Variable sndfile : sound_file.
Hypothesis frames_fit : sf_frames sndfile <= INT_MAX - ibs.
Hypothesis frames_true :
  Z.of_nat (length (sf_data sndfile)) = sf_frames sndfile.

Lemma study_loop_whole_input (fuel : nat) :
  forall (k : nat) (w w' : world T),
    w_pos w = Nat.min (1024 * k) (length (sf_data sndfile)) ->
    study_loop sndfile fuel (1024 * Z.of_nat k) w = (true, w') ->
    w_log w'
    = w_log w
      ++ map (whole_input_study_call sndfile)
           (seq k (whole_input_blocks sndfile - k)).
Proof.
  assert (Hend : forall (k : nat) (w : world T),
             (1024 * Z.of_nat k <? sf_frames sndfile) = false ->
             w_log w = w_log w
                       ++ map (whole_input_study_call sndfile)
                            (seq k (whole_input_blocks sndfile - k))).
  { intros k w E. apply Z.ltb_ge in E.
    assert (H : ~ (k < whole_input_blocks sndfile)%nat)
      by (rewrite whole_input_blocks_spec; lia).
    replace (whole_input_blocks sndfile - k)%nat with 0%nat by lia.
    simpl. now rewrite app_nil_r. }
  induction fuel as [|fuel IH]; intros k w w' Hpos Hrun.
  - destruct (loop_O 0%float sndfile (1024 * Z.of_nat k) w) as [E _].
    rewrite E in Hrun. clear E.
    destruct (1024 * Z.of_nat k <? sf_frames sndfile) eqn:E;
      [discriminate|].
    injection Hrun as <-. now apply Hend.
  - rewrite study_loop_S in Hrun.
    destruct (1024 * Z.of_nat k <? sf_frames sndfile) eqn:E;
      [|injection Hrun as <-; now apply Hend].
    apply Z.ltb_lt in E. cbv zeta in Hrun.
    assert (Hk : (k < whole_input_blocks sndfile)%nat)
      by (rewrite whole_input_blocks_spec; lia).
    assert (Hp : w_pos w = (1024 * k)%nat) by lia.
    assert (Hblk : sf_readf_float sndfile (w_pos w) ibs
                   = firstn 1024 (skipn (1024 * k) (sf_data sndfile))).
    { unfold sf_readf_float. rewrite Hp. reflexivity. }
    rewrite Hblk in Hrun.
    set (blk := firstn 1024 (skipn (1024 * k) (sf_data sndfile))) in *.
    assert (Hlen : length blk
                   = Nat.min 1024 (length (sf_data sndfile) - 1024 * k)).
    { unfold blk. now rewrite length_firstn, length_skipn. }
    destruct (Z.of_nat (length blk) <=? 0) eqn:Ec;
      [apply Z.leb_le in Ec; lia|].
    rewrite (next_frame sndfile frames_fit (1024 * Z.of_nat k)) in Hrun
      by lia.
    replace (1024 * Z.of_nat k + ibs) with (1024 * Z.of_nat (S k)) in Hrun
      by (unfold ibs; lia).
    apply IH in Hrun; [|unfold emit, seek; cbn [w_pos]; lia].
    rewrite Hrun. unfold emit, seek; cbn [w_log]. rewrite <- app_assoc. f_equal.
    replace (whole_input_blocks sndfile - k)%nat
      with (S (whole_input_blocks sndfile - S k)) by lia.
    simpl. f_equal. unfold whole_input_study_call. fold blk.
    do 2 f_equal. lia.
Qed.

End WholeInput.

(** ** The output buffer *)

Lemma length_store (a : list float) :
  forall k x, length (store a k x) = length a.
Proof.
  induction a as [|h t IH]; intros [|k] x; simpl; auto.
Qed.

Lemma nth_store (a : list float) :
  forall k x j d,
    nth j (store a k x) d
    = if (j =? k)%nat && (k <? length a)%nat then x else nth j a d.
Proof.
  induction a as [|h t IH]; intros [|k] x [|j] d; simpl; try reflexivity.
  - now rewrite andb_false_r.
  - rewrite IH. reflexivity.
Qed.

Lemma index_split (ch c i j : nat) :
  (c < ch)%nat ->
  (j =? i * ch + c)%nat = (j mod ch =? c)%nat && (j / ch =? i)%nat.
Proof.
  intros Hc.
  destruct (Nat.eqb_spec j (i * ch + c)) as [E|E].
  - subst j. symmetry. apply andb_true_iff. split; apply Nat.eqb_eq.
    + rewrite Nat.add_comm, Nat.Div0.mod_add. now apply Nat.mod_small.
    + rewrite Nat.div_add_l by lia. rewrite (Nat.div_small c ch) by lia. lia.
  - symmetry. apply andb_false_iff.
    destruct (Nat.eqb_spec (j mod ch) c) as [E1|E1]; [|now left].
    destruct (Nat.eqb_spec (j / ch) i) as [E2|E2]; [|now right].
    exfalso. apply E. rewrite (Nat.div_mod_eq j ch). rewrite E1, E2. lia.
Qed.

Lemma existsb_seq (m n : nat) :
  existsb (Nat.eqb m) (seq 0 n) = (m <? n)%nat.
Proof.
  destruct (Nat.ltb_spec m n) as [H|H].
  - apply existsb_exists. exists m. split; [apply in_seq; lia|].
    apply Nat.eqb_refl.
  - destruct (existsb (Nat.eqb m) (seq 0 n)) eqn:E; [|reflexivity].
    apply existsb_exists in E as (x & Hin & Hx).
    apply in_seq in Hin. apply Nat.eqb_eq in Hx. lia.
Qed.

(** The inner loop, for one channel [c]. *)
Lemma fill_channel (ch c : nat) (g : nat -> float) (frames : list nat) :
  (c < ch)%nat ->
  forall a,
    length (fold_left (fun a i => store a (i * ch + c) (g i)) frames a)
    = length a
    /\ forall j d,
         nth j (fold_left (fun a i => store a (i * ch + c) (g i)) frames a) d
         = if (j <? length a)%nat && (j mod ch =? c)%nat
              && existsb (Nat.eqb (j / ch)) frames
           then g (j / ch)%nat else nth j a d.
Proof.
  intros Hc. induction frames as [|i frames IH]; intros a; simpl.
  - split; [reflexivity|]. intros j d. now rewrite andb_false_r.
  - destruct (IH (store a (i * ch + c) (g i))) as [Hlen Hnth].
    rewrite length_store in Hlen. split; [exact Hlen|].
    intros j d. rewrite Hnth, length_store, nth_store.
    rewrite (index_split ch c i j Hc).
    destruct (Nat.ltb_spec j (length a)) as [Hj|Hj];
      destruct (Nat.eqb_spec (j mod ch) c) as [E1|E1];
      destruct (Nat.eqb_spec (j / ch) i) as [E2|E2];
      destruct (existsb (Nat.eqb (j / ch)) frames); simpl;
      try reflexivity.
    all: replace (i * ch + c)%nat with j
           by (rewrite (Nat.div_mod_eq j ch) at 1; rewrite E1, E2; lia).
    all: destruct (Nat.ltb_spec j (length a)); try lia; now subst i.
Qed.

(** Both loops. *)
Lemma fill_channels (ch n : nat) (obf : nat -> nat -> float)
    (cs : list nat) :
  (forall c, In c cs -> (c < ch)%nat) ->
  forall a,
    length
      (fold_left
         (fun a c =>
            fold_left (fun a i => store a (i * ch + c) (clamp (obf c i)))
              (seq 0 n) a) cs a)
    = length a
    /\ forall j d,
         nth j
           (fold_left
              (fun a c =>
                 fold_left (fun a i => store a (i * ch + c) (clamp (obf c i)))
                   (seq 0 n) a) cs a) d
         = if (j <? length a)%nat && existsb (Nat.eqb (j mod ch)) cs
              && (j / ch <? n)%nat
           then clamp (obf (j mod ch) (j / ch))%nat else nth j a d.
Proof.
  induction cs as [|c cs IH]; intros Hcs a; simpl.
  - split; [reflexivity|]. intros j d.
    now rewrite andb_false_r.
  - assert (Hc : (c < ch)%nat) by (apply Hcs; now left).
    destruct (fill_channel ch c (fun i => clamp (obf c i)) (seq 0 n) Hc a)
      as [Hlen1 Hnth1].
    destruct (IH (fun c' H => Hcs c' (or_intror H))
                (fold_left
                   (fun a i => store a (i * ch + c) (clamp (obf c i)))
                   (seq 0 n) a)) as [Hlen Hnth].
    rewrite Hlen1 in Hlen. split; [exact Hlen|].
    intros j d. rewrite Hnth, Hlen1, Hnth1, existsb_seq.
    destruct (Nat.ltb_spec j (length a)) as [Hj|Hj];
      destruct (Nat.eqb_spec (j mod ch) c) as [E1|E1];
      destruct (existsb (Nat.eqb (j mod ch)) cs);
      destruct (Nat.ltb_spec (j / ch) n) as [Hn|Hn]; simpl;
      try reflexivity; now subst c.
Qed.

(** What the two loops leave in [fobf]: sample [i] of channel [c], clamped,
    at index [i * channels + c], and nothing else. *)
Lemma fill_fobf_spec (ch n : nat) (obf : nat -> nat -> float)
    (a : list float) :
  length a = (ch * n)%nat ->
  length (fill_fobf ch n obf a) = (ch * n)%nat
  /\ (forall c i d, (c < ch)%nat -> (i < n)%nat ->
        nth (i * ch + c) (fill_fobf ch n obf a) d = clamp (obf c i))
  /\ (forall v, In v (fill_fobf ch n obf a) ->
        exists c i, (c < ch)%nat /\ (i < n)%nat /\ v = clamp (obf c i)).
Proof.
  intros Hlen. unfold fill_fobf.
  destruct (fill_channels ch n obf (seq 0 ch)
              (fun c H => proj2 (proj1 (in_seq ch 0 c) H)) a) as [Hl Hnth].
  assert (Hall : forall j d, (j < ch * n)%nat ->
            nth j
              (fold_left
                 (fun a c =>
                    fold_left
                      (fun a i => store a (i * ch + c) (clamp (obf c i)))
                      (seq 0 n) a) (seq 0 ch) a) d
            = clamp (obf (j mod ch) (j / ch))%nat
              /\ (j mod ch < ch)%nat /\ (j / ch < n)%nat).
  { intros j d Hj.
    assert (Hch : (0 < ch)%nat) by (destruct ch; simpl in *; lia).
    assert (Hm : (j mod ch < ch)%nat) by (apply Nat.mod_upper_bound; lia).
    assert (Hd : (j / ch < n)%nat)
      by (apply Nat.Div0.div_lt_upper_bound; lia).
    rewrite Hnth, Hlen, existsb_seq.
    destruct (Nat.ltb_spec j (ch * n)); [|lia].
    destruct (Nat.ltb_spec (j mod ch) ch); [|lia].
    destruct (Nat.ltb_spec (j / ch) n); [|lia].
    simpl. tauto. }
  split; [now rewrite Hl|]. split.
  - intros c i d Hc Hi.
    assert (Hj : (i * ch + c < ch * n)%nat) by nia.
    destruct (Hall (i * ch + c)%nat d Hj) as (-> & _ & _).
    pose proof (index_split ch c i (i * ch + c) Hc) as Hs.
    rewrite Nat.eqb_refl in Hs. symmetry in Hs.
    apply andb_true_iff in Hs as [H1 H2].
    apply Nat.eqb_eq in H1, H2. now rewrite H1, H2.
  - intros v Hin.
    destruct (In_nth _ _ 0%float Hin) as (j & Hj & <-).
    rewrite Hl, Hlen in Hj.
    destruct (Hall j 0%float Hj) as (-> & Hm & Hd).
    now exists (j mod ch)%nat, (j / ch)%nat.
Qed.

(** ** Clamping *)

Lemma SFcompare_antisym (a b : spec_float) (c : comparison) :
  SFcompare a b = Some c -> SFcompare b a = Some (CompOpp c).
Proof.
  destruct a as [sa|sa| |sa ma ea], b as [sb|sb| |sb mb eb]; simpl;
    try discriminate; intros H; injection H as <-;
    try (destruct sa; reflexivity); try (destruct sb; reflexivity);
    try (destruct sa, sb; reflexivity).
  f_equal. rewrite (Z.compare_antisym ea eb).
  change (PosDef.Pos.compare_cont Eq mb ma) with (Pos.compare mb ma).
  change (PosDef.Pos.compare_cont Eq ma mb) with (Pos.compare ma mb).
  rewrite (Pos.compare_antisym ma mb).
  destruct sa, sb; cbn [CompOpp]; try reflexivity;
    destruct (ea ?= eb); cbn [CompOpp]; reflexivity.
Qed.

Lemma SFcompare_refl (a : spec_float) :
  a <> S754_nan -> SFcompare a a = Some Eq.
Proof.
  intros Ha. destruct (SFcompare a a) as [c|] eqn:E.
  - pose proof (SFcompare_antisym a a c E) as E'.
    rewrite E in E'. destruct c; try discriminate. reflexivity.
  - destruct a as [s|s| |s m e]; simpl in E; try discriminate.
    now elim Ha.
Qed.

Lemma is_nan_spec (x : float) :
  PrimFloat.is_nan x = true <-> Prim2SF x = S754_nan.
Proof.
  unfold PrimFloat.is_nan. rewrite eqb_spec. unfold SFeqb. split.
  - intros H. destruct (Prim2SF x) as [s|s| |s m e] eqn:E; try reflexivity;
      rewrite SFcompare_refl in H by discriminate; discriminate.
  - intros ->. reflexivity.
Qed.

Lemma not_lt_is_ge (a x : float) :
  PrimFloat.is_nan a = false -> PrimFloat.is_nan x = false ->
  PrimFloat.ltb a x = false -> PrimFloat.leb x a = true.
Proof.
  intros Ha Hx. rewrite ltb_spec, leb_spec. unfold SFltb, SFleb.
  assert (Ha' : Prim2SF a <> S754_nan)
    by (intro E; apply is_nan_spec in E; congruence).
  assert (Hx' : Prim2SF x <> S754_nan)
    by (intro E; apply is_nan_spec in E; congruence).
  destruct (SFcompare (Prim2SF a) (Prim2SF x)) as [c|] eqn:E.
  - rewrite (SFcompare_antisym _ _ c E). destruct c; simpl; congruence.
  - destruct (Prim2SF a) as [s|s| |s m e], (Prim2SF x) as [s'|s'| |s' m' e'];
      simpl in E; congruence.
Qed.

Lemma lt_not_nan (a x : float) :
  PrimFloat.ltb a x = true -> PrimFloat.is_nan x = false.
Proof.
  rewrite ltb_spec. unfold SFltb. intros H.
  destruct (PrimFloat.is_nan x) eqn:E; [|reflexivity].
  apply is_nan_spec in E. rewrite E in H.
  destruct (Prim2SF a); discriminate.
Qed.

Lemma nan_not_lt (a x : float) :
  PrimFloat.is_nan x = true ->
  PrimFloat.ltb a x = false /\ PrimFloat.ltb x a = false.
Proof.
  intros E. apply is_nan_spec in E.
  rewrite !ltb_spec. unfold SFltb. rewrite E. split; [|reflexivity].
  destruct (Prim2SF a); reflexivity.
Qed.

Lemma below_minus_one_not_above_one (x : float) :
  PrimFloat.ltb x (-1)%float = true -> PrimFloat.ltb 1%float x = false.
Proof.
  assert (Hm : Prim2SF (-1)%float = S754_finite true 4503599627370496 (-52))
    by (vm_compute; reflexivity).
  assert (Hp : Prim2SF 1%float = S754_finite false 4503599627370496 (-52))
    by (vm_compute; reflexivity).
  rewrite !ltb_spec, Hm, Hp. unfold SFltb, SFcompare.
  destruct (Prim2SF x) as [s|s| |s m e];
    try discriminate; try reflexivity; destruct s;
    try discriminate; reflexivity.
Qed.

(** [clamp], case by case. *)
Lemma clamp_cases (x : float) :
  (PrimFloat.ltb 1%float x = true -> clamp x = 1%float)
  /\ (PrimFloat.ltb x (-1)%float = true -> clamp x = (-1)%float)
  /\ (PrimFloat.ltb 1%float x = false ->
      PrimFloat.ltb x (-1)%float = false -> clamp x = x).
Proof.
  unfold clamp. repeat split.
  - intros ->. reflexivity.
  - intros H. rewrite (below_minus_one_not_above_one x H). now rewrite H.
  - intros -> ->. reflexivity.
Qed.

(** A clamped sample is never above 1.0, never below -1.0, and inside
    [-1.0, 1.0] exactly when the sample was a number. *)
Lemma clamp_range (x : float) :
  PrimFloat.ltb 1%float (clamp x) = false
  /\ PrimFloat.ltb (clamp x) (-1)%float = false
  /\ in_range (clamp x) = negb (PrimFloat.is_nan x).
Proof.
  destruct (clamp_cases x) as (H1 & H2 & H3).
  destruct (PrimFloat.ltb 1%float x) eqn:E1.
  - rewrite (H1 eq_refl), (lt_not_nan _ _ E1). repeat split.
  - destruct (PrimFloat.ltb x (-1)%float) eqn:E2.
    + rewrite (H2 eq_refl).
      assert (Hn : PrimFloat.is_nan x = false).
      { destruct (PrimFloat.is_nan x) eqn:E; [|reflexivity].
        destruct (nan_not_lt (-1)%float x E) as [_ H]. congruence. }
      rewrite Hn. repeat split.
    + rewrite (H3 eq_refl eq_refl). split; [exact E1|]. split; [exact E2|].
      unfold in_range. destruct (PrimFloat.is_nan x) eqn:En; simpl.
      * apply is_nan_spec in En. rewrite !leb_spec. unfold SFleb.
        rewrite En. simpl.
        destruct (Prim2SF (-1)%float); reflexivity.
      * rewrite (not_lt_is_ge 1%float x eq_refl En E1).
        apply not_lt_is_ge in E2; [|exact En|reflexivity].
        now rewrite E2.
Qed.

(** ** The drain loop *)

Lemma drain_shape_polls (n : nat) :
  forall es,
    (length es <= n)%nat ->
    drain_shape es = true ->
    exists ps a,
      polls es = ps ++ [a] /\ a < 0 /\ Forall (fun p => 0 <= p) ps.
Proof.
  induction n as [|n IH]; intros es Hlen Hshape.
  - destruct es; [discriminate|simpl in Hlen; lia].
  - destruct es as [|[| |a| | |] [|e2 es]]; try discriminate.
    + exists [], a. simpl in Hshape. apply Z.ltb_lt in Hshape.
      repeat split; auto.
    + destruct e2 as [| | |r|fobf m|usec]; try discriminate.
      * destruct es as [|[| | | |fobf m|] es]; try discriminate.
        simpl in Hshape.
        apply andb_true_iff in Hshape as [Hshape Hrest].
        apply andb_true_iff in Hshape as [Hshape _].
        apply andb_true_iff in Hshape as [Ha _].
        apply Z.ltb_lt in Ha.
        destruct (IH es) as (ps & b & Hp & Hb & Hps);
          [simpl in Hlen; lia|exact Hrest|].
        exists (a :: ps), b. simpl. rewrite Hp.
        repeat split; auto. constructor; [lia|exact Hps].
      * simpl in Hshape.
        apply andb_true_iff in Hshape as [Ha Hrest].
        apply Z.eqb_eq in Ha.
        destruct (IH es) as (ps & b & Hp & Hb & Hps);
          [simpl in Hlen; lia|exact Hrest|].
        exists (a :: ps), b. simpl. rewrite Hp.
        repeat split; auto. constructor; [lia|exact Hps].
Qed.

Section DrainFacts.

Context {T : Type} {engine : Stretcher T}.
Variable uninit : float.
Variable sndfile : sound_file.

(** The events of the drain loop: those of a loop that has ended, or, when
    the fuel ran out, those of one that has met no negative count yet. *)
Lemma drain_loop_shape (fuel : nat) :
  forall w : world T, exists es,
    w_log (snd (drain_loop uninit sndfile fuel w)) = w_log w ++ es
    /\ (if fst (drain_loop uninit sndfile fuel w)
        then drain_shape es = true
        else drain_shape (es ++ [EvAvailable (-1)]) = true).
Proof.
  induction fuel as [|fuel IH]; intros w; simpl.
  - exists []. now rewrite app_nil_r.
  - destruct (ts_available (w_ts w)) as [avail ts].
    destruct (0 <=? avail) eqn:E0.
    + apply Z.leb_le in E0.
      match goal with
      | |- context [drain_loop uninit sndfile fuel ?w'] =>
          destruct (IH w') as (es & Hlog & Hes);
          destruct (drain_loop uninit sndfile fuel w') as [b w2]
      end.
      simpl in *. rewrite Hlog.
      destruct (0 <? avail) eqn:E1.
      * rewrite retrieve_and_write_log. simpl. rewrite <- !app_assoc.
        eexists. split; [reflexivity|].
        destruct b; simpl; rewrite E1, Z.eqb_refl; exact Hes.
      * apply Z.ltb_ge in E1. simpl. rewrite <- !app_assoc.
        eexists. split; [reflexivity|].
        assert (Ha : (avail =? 0) = true) by (apply Z.eqb_eq; lia).
        destruct b; simpl; rewrite Ha; exact Hes.
    + apply Z.leb_gt in E0. simpl. eexists. split; [reflexivity|].
      simpl. now apply Z.ltb_lt.
Qed.

Lemma drain_loop_terminates (n : nat) :
  forall (fuel : nat) (w : world T),
    drains_within n (w_ts w) = true ->
    (n < fuel)%nat ->
    fst (drain_loop uninit sndfile fuel w) = true.
Proof.
  induction n as [|n IH]; intros [|fuel] w Hd Hn; try lia; simpl in *.
  - destruct (ts_available (w_ts w)) as [avail ts].
    destruct (avail <? 0) eqn:E; [|discriminate].
    apply Z.ltb_lt in E.
    destruct (Z.leb_spec 0 avail); [lia|reflexivity].
  - destruct (ts_available (w_ts w)) as [avail ts].
    destruct (avail <? 0) eqn:E.
    + apply Z.ltb_lt in E.
      destruct (Z.leb_spec 0 avail); [lia|reflexivity].
    + apply Z.ltb_ge in E.
      destruct (Z.leb_spec 0 avail); [|lia].
      apply IH; [|lia].
      destruct (0 <? avail).
      * now rewrite retrieve_and_write_ts.
      * exact Hd.
Qed.

End DrainFacts.

(** ** The whole run *)

Lemma later_not_study (uninit : float) (sndfile : sound_file)
    (es : list event) :
  Forall (later_event uninit sndfile) es ->
  forallb (fun e => negb (is_study e)) es = true.
Proof.
  induction 1 as [|e es He _ IH]; [reflexivity|].
  simpl. rewrite IH. now destruct e.
Qed.

Section RunFacts.

Context {T : Type} {engine : Stretcher T}.
Variable bits : OptionFlag -> Z.
Variable pow : float -> float -> float.
Variable uninit : float.
Variable fs : filesystem.

(** Past the usage test and the two [sf_open]s, [main] is the three loops. *)
Lemma main_opened (fuel : nat) (inv : invocation) (f : sound_file) :
  usage_requested (parse_options (opts inv)) inv = false ->
  sf_open_read fs (fileName inv) = Some f ->
  sf_open_write fs (fileNameOut inv) = true ->
  main bits pow uninit fs fuel inv
  = (if fst (passes uninit f fuel (realtime (configured (opts inv)))
               (initial_world bits pow (configured (opts inv)) f))
     then Returned 0
            (Some (snd (passes uninit f fuel (realtime (configured (opts inv)))
                          (initial_world bits pow (configured (opts inv)) f))))
     else Unfinished
            (snd (passes uninit f fuel (realtime (configured (opts inv)))
                    (initial_world bits pow (configured (opts inv)) f)))).
Proof.
  intros Hu Hr Hw. unfold main. rewrite Hu, Hr, Hw. simpl.
  fold (configured (opts inv)).
  now destruct (passes uninit f fuel _ _) as [[|] w].
Qed.

Lemma main_trace (fuel : nat) (inv : invocation) (f : sound_file) :
  usage_requested (parse_options (opts inv)) inv = false ->
  sf_open_read fs (fileName inv) = Some f ->
  sf_open_write fs (fileNameOut inv) = true ->
  trace (main bits pow uninit fs fuel inv)
  = w_log (snd (passes uninit f fuel (realtime (configured (opts inv)))
                  (initial_world bits pow (configured (opts inv)) f))).
Proof.
  intros Hu Hr Hw. rewrite (main_opened fuel inv f Hu Hr Hw).
  now destruct (fst (passes uninit f fuel _ _)).
Qed.

(** Without the usage test passed and both files open, nothing is done. *)
Lemma main_trace_nil (fuel : nat) (inv : invocation) :
  usage_requested (parse_options (opts inv)) inv = true
  \/ sf_open_read fs (fileName inv) = None
  \/ sf_open_write fs (fileNameOut inv) = false ->
  trace (main bits pow uninit fs fuel inv) = [].
Proof.
  unfold main.
  destruct (usage_requested (parse_options (opts inv)) inv);
    [reflexivity|].
  destruct (sf_open_read fs (fileName inv)) as [f|]; [|reflexivity].
  destruct (sf_open_write fs (fileNameOut inv)); [|reflexivity].
  intros [H|[H|H]]; discriminate.
Qed.

(** The trace of the three loops: study calls, then the rest; the rest is
    there only once pass 1 has run to its end. *)
Lemma passes_trace (sndfile : sound_file) (fuel : nat) (rt : bool)
    (w : world T) :
  exists s es,
    w_log (snd (passes uninit sndfile fuel rt w)) = w_log w ++ s ++ es
    /\ forallb is_study s = true
    /\ Forall (later_event uninit sndfile) es
    /\ (rt = true -> s = [])
    /\ (rt = false -> es <> [] ->
        exists w1, study_loop sndfile fuel 0 w = (true, w1)
                   /\ w_log w1 = w_log w ++ s).
Proof.
  assert (Hrest : forall w1 : world T, exists es,
             w_log (snd (and_then (process_loop uninit sndfile fuel 0 w1)
                           (fun w => drain_loop uninit sndfile fuel w)))
             = w_log w1 ++ es
             /\ Forall (later_event uninit sndfile) es).
  { intros w1.
    destruct (process_loop_log uninit sndfile fuel 0 w1) as (es2 & H2 & F2).
    unfold and_then.
    destruct (process_loop uninit sndfile fuel 0 w1) as [[|] w2];
      simpl in *; [|now exists es2].
    destruct (drain_loop_log uninit sndfile fuel w2) as (es3 & H3 & F3).
    exists (es2 ++ es3). rewrite H3, H2, app_assoc.
    split; [reflexivity|]. apply Forall_app. now split. }
  unfold passes, input_passes. destruct rt; cbn [negb].
  - destruct (Hrest w) as (es & Hlog & Hes).
    exists [], es. unfold and_then in *. cbn [fst snd app].
    split; [exact Hlog|]. split; [reflexivity|]. split; [exact Hes|].
    split; [reflexivity|discriminate].
  - destruct (study_loop_log uninit sndfile fuel 0 w) as (s & Hs & Fs).
    destruct (study_loop sndfile fuel 0 w) as [[|] w1].
    + destruct (Hrest (seek w1 0%nat)) as (es & Hlog & Hes).
      exists s, es. unfold and_then in *. cbn [fst snd] in *.
      change (w_log (seek w1 0%nat)) with (w_log w1) in Hlog.
      rewrite Hs, <- app_assoc in Hlog.
      split; [exact Hlog|]. split; [exact Fs|]. split; [exact Hes|].
      split; [discriminate|]. intros _ _. now exists w1.
    + exists s, []. unfold and_then. cbn [fst snd] in *.
      rewrite app_nil_r.
      split; [exact Hs|]. split; [exact Fs|]. split; [constructor|].
      split; [discriminate|]. intros _ H. now elim H.
Qed.

End RunFacts.

Lemma realtime_configured (os : list cli_opt) :
  realtime (configured os) = existsb is_realtime os.
Proof.
  unfold configured.
  destruct (crispness_switch_keeps (parse_options os)) as (-> & _ & _).
  unfold parse_options. now rewrite realtime_parse_from.
Qed.

Lemma whole_input_blocks_enough (f : sound_file) :
  Z.of_nat (length (sf_data f)) = sf_frames f ->
  (length (sf_data f) <= 1024 * whole_input_blocks f)%nat.
Proof.
  intros H. unfold whole_input_blocks.
  pose proof (Z.div_mod (sf_frames f + 1023) 1024 ltac:(lia)) as Hdm.
  pose proof (Z.mod_pos_bound (sf_frames f + 1023) 1024 ltac:(lia)) as Hb.
  lia.
Qed.

(** ** Exit codes *)

(** C4: [main] returns 2 when help was asked for, no ratio option was
    given or the positional arguments are not exactly two; past that, 1
    when the input or the output file fails to open; past that, 0 whenever
    it returns at all, and it does return once the two passes have enough
    fuel for the file and the engine reports its sentinel. *)
Theorem exit_codes {T : Type} {engine : Stretcher T}
    (bits : OptionFlag -> Z) (pow : float -> float -> float)
    (uninit : float) (fs : filesystem) (fuel : nat) (inv : invocation) :
  (help (parse_options (opts inv)) = true
   \/ haveRatio (parse_options (opts inv)) = false
   \/ argc inv - optind inv <> 2 ->
   main bits pow uninit fs fuel inv = Returned 2 None)
  /\ (usage_requested (parse_options (opts inv)) inv = false ->
      sf_open_read fs (fileName inv) = None
      \/ sf_open_write fs (fileNameOut inv) = false ->
      main bits pow uninit fs fuel inv = Returned 1 None)
  /\ (forall f,
        usage_requested (parse_options (opts inv)) inv = false ->
        sf_open_read fs (fileName inv) = Some f ->
        sf_open_write fs (fileNameOut inv) = true ->
        (exit_code (main bits pow uninit fs fuel inv) = Some 0
         \/ exit_code (main bits pow uninit fs fuel inv) = None)
        /\ (forall n,
              sf_frames f <= INT_MAX - ibs ->
              sf_frames f <= ibs * Z.of_nat fuel ->
              (n < fuel)%nat ->
              drains_within n
                (w_ts (snd (input_passes uninit f fuel
                              (realtime (configured (opts inv)))
                              (initial_world bits pow
                                 (configured (opts inv)) f)))) = true ->
              exit_code (main bits pow uninit fs fuel inv) = Some 0)).
Proof.
  split; [|split].
  - intros H. unfold main.
    replace (usage_requested (parse_options (opts inv)) inv) with true;
      [reflexivity|].
    symmetry. unfold usage_requested.
    destruct H as [H|[H|H]].
    + now rewrite H.
    + rewrite H. now destruct (help (parse_options (opts inv))).
    + destruct (Z.eqb_spec (optind inv + 2) (argc inv)) as [E|E]; [lia|].
      simpl. apply orb_true_r.
  - intros Hu H. unfold main. rewrite Hu.
    destruct (sf_open_read fs (fileName inv)) as [f|]; [|reflexivity].
    destruct H as [H|H]; [discriminate|]. now rewrite H.
  - intros f Hu Hr Hw.
    rewrite (main_opened bits pow uninit fs fuel inv f Hu Hr Hw).
    split.
    + destruct (fst (passes uninit f fuel _ _)); [now left|now right].
    + intros n Hfit Hfuel Hn Hd.
      unfold passes, and_then.
      rewrite (input_passes_terminate uninit f Hfit fuel _ _ Hfuel).
      now rewrite (drain_loop_terminates uninit f n fuel _ Hd Hn).
Qed.

Lemma exit_codes_witness :
  exit_code (sample_main three_frames 2 (sample_invocation [OptTime 1%float]))
  = Some 0
  /\ sample_main three_frames 2 (sample_invocation []) = Returned 2 None
  /\ sample_main three_frames 2
       {| opts := [OptTime 1%float]; optind := 3;
          argv := ["rubberband"; "-t"; "1"; "in.wav"]%string |}
     = Returned 2 None
  /\ sample_main three_frames 2
       {| opts := [OptTime 1%float]; optind := 3;
          argv := ["rubberband"; "-t"; "1"; "no.wav"; "out.wav"]%string |}
     = Returned 1 None
  /\ sample_main three_frames 2
       {| opts := [OptTime 1%float]; optind := 3;
          argv := ["rubberband"; "-t"; "1"; "in.wav"; "ro.wav"]%string |}
     = Returned 1 None.
Proof.
  split; [|split; [|split; [|split]]].
  - apply (proj2 (proj2 (exit_codes sample_bits sample_pow 0%float
                           (sample_fs three_frames) 2
                           (sample_invocation [OptTime 1%float])))
             three_frames eq_refl eq_refl eq_refl) with (n := 1%nat).
    + unfold INT_MAX, ibs. simpl. lia.
    + unfold ibs. simpl. lia.
    + lia.
    + reflexivity.
  - apply (exit_codes sample_bits sample_pow 0%float
             (sample_fs three_frames) 2 (sample_invocation [])).
    right. left. reflexivity.
  - apply (exit_codes sample_bits sample_pow 0%float
             (sample_fs three_frames) 2).
    right. right. unfold argc. simpl. lia.
  - apply (exit_codes sample_bits sample_pow 0%float
             (sample_fs three_frames) 2); [reflexivity|].
    left. reflexivity.
  - apply (exit_codes sample_bits sample_pow 0%float
             (sample_fs three_frames) 2); [reflexivity|].
    right. reflexivity.
Defined.

(** C10: [--tempo] with the value 0 (C's [m != 0.0] false) leaves the time
    ratio as it was and still sets [haveRatio]; with no help asked for and
    two positional arguments the run then gets past the usage test: [main]
    does not return 2. *)
Theorem tempo_zero_accepted {T : Type} {engine : Stretcher T}
    (bits : OptionFlag -> Z) (pow : float -> float -> float)
    (uninit : float) (fs : filesystem) (fuel : nat) (inv : invocation)
    (m : float) (v : locals) :
  PrimFloat.eqb m 0%float = true ->
  In (OptTempo m) (opts inv) ->
  help (parse_options (opts inv)) = false ->
  optind inv + 2 = argc inv ->
  ratio (option_switch v (OptTempo m)) = ratio v
  /\ haveRatio (option_switch v (OptTempo m)) = true
  /\ usage_requested (parse_options (opts inv)) inv = false
  /\ exit_code (main bits pow uninit fs fuel inv) <> Some 2.
Proof.
  intros Hm Hin Hh Hpos.
  assert (Hu : usage_requested (parse_options (opts inv)) inv = false).
  { unfold usage_requested. rewrite Hh.
    destruct (in_split _ _ Hin) as (pre & post & ->).
    rewrite haveRatio_after by reflexivity.
    simpl. now rewrite (proj2 (Z.eqb_eq _ _) Hpos). }
  split; [|split; [|split]].
  - simpl. unfold fneq. now rewrite Hm.
  - reflexivity.
  - exact Hu.
  - unfold main. rewrite Hu.
    destruct (sf_open_read fs (fileName inv)) as [f|]; [|discriminate].
    destruct (negb (sf_open_write fs (fileNameOut inv))); [discriminate|].
    destruct (passes uninit f fuel _ _) as [[|] w]; discriminate.
Qed.

Lemma tempo_zero_accepted_witness :
  ratio (option_switch initial_locals (OptTempo 0%float))
  = ratio initial_locals
  /\ haveRatio (option_switch initial_locals (OptTempo 0%float)) = true
  /\ usage_requested
       (parse_options (opts (sample_invocation [OptTempo 0%float])))
       (sample_invocation [OptTempo 0%float]) = false
  /\ exit_code (sample_main three_frames 2
                  (sample_invocation [OptTempo 0%float])) <> Some 2.
Proof.
  apply (tempo_zero_accepted sample_bits sample_pow 0%float
           (sample_fs three_frames) 2
           (sample_invocation [OptTempo 0%float]) 0%float initial_locals).
  - reflexivity.
  - now left.
  - reflexivity.
  - reflexivity.
Defined.

(** ** Written samples *)

(** C9, as stated, on a file whose one sample is a NaN: the pass-through
    engine hands the NaN back, neither comparison of the clamp holds for
    it, and the NaN is written: a value outside [-1.0, 1.0]. *)
Lemma nan_sample_is_written_unclamped :
  trace (sample_main
           {| sf_frames := 1; sf_samplerate := 44100; sf_channels := 1;
              sf_data := [[nan]] |}
           2 (sample_invocation [OptTime 1%float]))
  = [EvStudy [[nan]] 1 true; EvProcess [[nan]] 1 true; EvAvailable 1;
     EvRetrieve 1; EvWrite [nan] 1; EvAvailable (-1)]
  /\ in_range nan = false.
Proof. split; vm_compute; reflexivity. Qed.

(** * Further properties of the driver *)

(** ** The usage test, option by option *)

Lemma help_parse_from (os : list cli_opt) (v : locals) :
  help (parse_from v os) = help v || existsb is_help os.
Proof.
  revert v. induction os as [|c os IH]; intros v; simpl.
  - now rewrite orb_false_r.
  - rewrite IH. destruct c; simpl; try reflexivity;
      try (now rewrite orb_true_r).
    now destruct (fneq m 0%float).
Qed.

Lemma haveRatio_parse_from (os : list cli_opt) (v : locals) :
  haveRatio (parse_from v os) = haveRatio v || existsb is_ratio_option os.
Proof.
  revert v. induction os as [|c os IH]; intros v; simpl.
  - now rewrite orb_false_r.
  - rewrite IH. destruct c; simpl; try reflexivity;
      now rewrite orb_true_r.
Qed.

(** X1: [main] returns 2 exactly when [--help] or an unrecognised option
    occurs anywhere on the command line, or none of [--time], [--tempo],
    [--pitch], [--frequency] occurs, or the positional arguments are not
    two; the values the ratio options carry play no part. *)
Theorem usage_error_exactly {T : Type} {engine : Stretcher T}
    (bits : OptionFlag -> Z) (pow : float -> float -> float)
    (uninit : float) (fs : filesystem) (fuel : nat) (inv : invocation) :
  exit_code (main bits pow uninit fs fuel inv) = Some 2
  <-> (existsb is_help (opts inv) = true
       \/ existsb is_ratio_option (opts inv) = false
       \/ optind inv + 2 <> argc inv).
Proof.
  assert (Hu : usage_requested (parse_options (opts inv)) inv = true
               <-> (existsb is_help (opts inv) = true
                    \/ existsb is_ratio_option (opts inv) = false
                    \/ optind inv + 2 <> argc inv)).
  { unfold usage_requested, parse_options.
    rewrite help_parse_from, haveRatio_parse_from. simpl.
    destruct (existsb is_help (opts inv)),
      (existsb is_ratio_option (opts inv)),
      (Z.eqb_spec (optind inv + 2) (argc inv)); simpl;
      intuition (discriminate || lia). }
  rewrite <- Hu. unfold main.
  destruct (usage_requested (parse_options (opts inv)) inv).
  - simpl. tauto.
  - split; [|discriminate].
    destruct (sf_open_read fs (fileName inv)) as [f|]; [|discriminate].
    destruct (negb (sf_open_write fs (fileNameOut inv))); [discriminate|].
    destruct (passes uninit f fuel _ _) as [[|] w]; discriminate.
Qed.

(** ** How the options compose *)

Lemma ratio_option_switch (v1 v2 : locals) (c : cli_opt) :
  ratio v1 = ratio v2 ->
  ratio (option_switch v1 c) = ratio (option_switch v2 c).
Proof.
  intros H. destruct c; simpl; try exact H.
  - now rewrite H.
  - destruct (fneq m 0%float); simpl; [now rewrite H|exact H].
Qed.

Lemma ratio_parse_from_ext (os : list cli_opt) :
  forall v1 v2, ratio v1 = ratio v2 ->
    ratio (parse_from v1 os) = ratio (parse_from v2 os).
Proof.
  induction os as [|c os IH]; intros v1 v2 H; simpl; [exact H|].
  apply IH. now apply ratio_option_switch.
Qed.

(** X2: the time ratio handed to the stretcher depends on the [--time] and
    [--tempo] options alone, taken in command-line order: every other
    option can be dropped, or moved, without changing it. *)
Theorem ratio_from_time_and_tempo_only (os : list cli_opt) :
  ratio (configured os) = ratio (parse_options (filter is_time_or_tempo os)).
Proof.
  unfold configured.
  assert (Hc : forall v, ratio (crispness_switch v) = ratio v).
  { intros v. unfold crispness_switch.
    destruct (crispness v) as [|[[p|p|]|[p|p|]|]|[p|p|]]; try reflexivity;
      destruct p; reflexivity. }
  rewrite Hc. unfold parse_options. generalize initial_locals.
  induction os as [|c os IH]; intros v; simpl; [reflexivity|].
  destruct (is_time_or_tempo c) eqn:E; simpl.
  - apply IH.
  - rewrite <- IH. apply ratio_parse_from_ext.
    destruct c; try discriminate; reflexivity.
Qed.

(** A variable that none of the later options assigns keeps its value. *)
Lemma kept_through (A : Type) (field : locals -> A)
    (assigns : cli_opt -> bool) (post : list cli_opt) :
  (forall v c, assigns c = false -> field (option_switch v c) = field v) ->
  existsb assigns post = false ->
  forall v, field (parse_from v post) = field v.
Proof.
  intros Hkeep. induction post as [|c post IH]; intros Hno v; simpl;
    [reflexivity|].
  simpl in Hno. apply orb_false_iff in Hno as [Hc Hpost].
  rewrite IH by exact Hpost. now apply Hkeep.
Qed.

(** X3: of several [--pitch], [--frequency] or [--debug] options, and of
    [--no-threads] against [--threads], the last one on the command line
    decides. *)
Theorem last_option_decides (pre post : list cli_opt) (x : float) (n : Z) :
  (existsb is_pitch post = false ->
   pitchshift (configured (pre ++ OptPitch x :: post)) = x)
  /\ (existsb is_frequency post = false ->
      frequencyshift (configured (pre ++ OptFrequency x :: post)) = x)
  /\ (existsb is_debug post = false ->
      debug (configured (pre ++ OptDebug n :: post)) = n)
  /\ (existsb is_threading post = false ->
      has OptionThreadingNever
        (option_flags (configured (pre ++ OptNoThreads :: post))) = true
      /\ has OptionThreadingAlways
           (option_flags (configured (pre ++ OptThreads :: post))) = true).
Proof.
  assert (Hc : forall v,
             pitchshift (crispness_switch v) = pitchshift v
             /\ frequencyshift (crispness_switch v) = frequencyshift v
             /\ debug (crispness_switch v) = debug v).
  { intros v. unfold crispness_switch.
    destruct (crispness v) as [|[[p|p|]|[p|p|]|]|[p|p|]];
      try (repeat split; reflexivity); destruct p; repeat split; reflexivity. }
  unfold configured, parse_options.
  split; [|split; [|split]]; intros Hno.
  - rewrite (proj1 (Hc _)), parse_from_app. simpl.
    rewrite (kept_through float pitchshift is_pitch post); auto.
    intros v c E. destruct c; try discriminate; try reflexivity.
    simpl. now destruct (fneq m 0%float).
  - rewrite (proj1 (proj2 (Hc _))), parse_from_app. simpl.
    rewrite (kept_through float frequencyshift is_frequency post); auto.
    intros v c E. destruct c; try discriminate; try reflexivity.
    simpl. now destruct (fneq m 0%float).
  - rewrite (proj2 (proj2 (Hc _))), parse_from_app. simpl.
    rewrite (kept_through Z debug is_debug post); auto.
    intros v c E. destruct c; try discriminate; try reflexivity.
    simpl. now destruct (fneq m 0%float).
  - split.
    + destruct (has_option_flags
                  (crispness_switch
                     (parse_from initial_locals (pre ++ OptNoThreads :: post))))
        as (_ & _ & _ & -> & _).
      rewrite (proj2 (proj2 (crispness_switch_keeps _))), parse_from_app.
      simpl. now rewrite threading_parse_from.
    + destruct (has_option_flags
                  (crispness_switch
                     (parse_from initial_locals (pre ++ OptThreads :: post))))
        as (_ & _ & _ & _ & ->).
      rewrite (proj2 (proj2 (crispness_switch_keeps _))), parse_from_app.
      simpl. now rewrite threading_parse_from.
Qed.

Lemma last_option_decides_witness :
  pitchshift
    (configured ([OptPitch 5%float; OptTime 2%float]
                   ++ OptPitch 3%float :: [OptPrecise])) = 3%float
  /\ frequencyshift
       (configured ([OptFrequency 5%float]
                      ++ OptFrequency 3%float :: [OptPrecise])) = 3%float
  /\ debug (configured ([OptDebug 1] ++ OptDebug 2 :: [OptTime 2%float])) = 2
  /\ has OptionThreadingNever
       (option_flags
          (configured ([OptThreads] ++ OptNoThreads :: [OptTime 2%float])))
     = true
  /\ has OptionThreadingAlways
       (option_flags
          (configured ([OptNoThreads] ++ OptThreads :: [OptTime 2%float])))
     = true.
Proof.
  split; [|split; [|split]].
  - exact (proj1 (last_option_decides [OptPitch 5%float; OptTime 2%float]
                    [OptPrecise] 3%float 0) eq_refl).
  - exact (proj1 (proj2 (last_option_decides [OptFrequency 5%float]
                           [OptPrecise] 3%float 0)) eq_refl).
  - exact (proj1 (proj2 (proj2 (last_option_decides [OptDebug 1]
                                  [OptTime 2%float] 0%float 2))) eq_refl).
  - split.
    + exact (proj1 (proj2 (proj2 (proj2 (last_option_decides [OptThreads]
                                           [OptTime 2%float] 0%float 0)))
                      eq_refl)).
    + exact (proj2 (proj2 (proj2 (proj2 (last_option_decides [OptNoThreads]
                                           [OptTime 2%float] 0%float 0)))
                      eq_refl)).
Defined.

(** ** Crispness levels outside the table *)

Lemma crispness_switch_out_of_range (v : locals) :
  crispness v < -1 \/ 5 < crispness v -> crispness_switch v = v.
Proof.
  unfold crispness_switch. intros H.
  destruct (crispness v) as [|p|p]; [lia| |];
    repeat first [reflexivity | lia | destruct p as [p|p|]].
Qed.

(** X4: a crispness level below -1 or above 5 is not rejected: the switch
    has no case for it, so the level is kept as given and transient mode,
    peak locking and window size stay as the option loop left them; with
    no fine-tuning option on the command line that is row 4 of the table. *)
Theorem crispness_out_of_range_is_ignored (pre post : list cli_opt) (n : Z) :
  n < -1 \/ 5 < n ->
  existsb is_crisp post = false ->
  configured (pre ++ OptCrisp n :: post)
  = parse_options (pre ++ OptCrisp n :: post)
  /\ crispness (configured (pre ++ OptCrisp n :: post)) = n
  /\ (existsb is_fine_tuning (pre ++ OptCrisp n :: post) = false ->
      Some (configuration_of
              (option_flags (configured (pre ++ OptCrisp n :: post))))
      = spec_crispness_row 4).
Proof.
  intros Hn Hpost.
  pose proof (crispness_of_last_option pre post n Hpost) as Hc.
  assert (E : configured (pre ++ OptCrisp n :: post)
              = parse_options (pre ++ OptCrisp n :: post)).
  { unfold configured. apply crispness_switch_out_of_range. now rewrite Hc. }
  rewrite E. split; [reflexivity|]. split; [exact Hc|].
  intros Hfine. rewrite configuration_of_option_flags.
  destruct (fine_tuning_kept _ initial_locals Hfine) as (Ht & Hp & Hl & Hs).
  unfold parse_options. now rewrite Ht, Hp, Hl, Hs.
Qed.

Lemma crispness_out_of_range_is_ignored_witness :
  configured ([OptTime 2%float] ++ OptCrisp 7 :: [OptQuiet])
  = parse_options ([OptTime 2%float] ++ OptCrisp 7 :: [OptQuiet])
  /\ crispness (configured ([OptTime 2%float] ++ OptCrisp 7 :: [OptQuiet])) = 7
  /\ Some (configuration_of
             (option_flags
                (configured ([OptTime 2%float] ++ OptCrisp 7 :: [OptQuiet]))))
     = spec_crispness_row 4.
Proof.
  destruct (crispness_out_of_range_is_ignored [OptTime 2%float] [OptQuiet] 7
              ltac:(right; lia) eq_refl) as (H1 & H2 & H3).
  exact (conj H1 (conj H2 (H3 eq_refl))).
Defined.

(** ** The option word, constant by constant *)

Lemma has_quality_flags (v : locals) :
  has OptionPhaseIndependent (option_flags v) = negb (peaklock v)
  /\ has OptionPhasePeakLocked (option_flags v) = negb (softening v)
  /\ has OptionWindowLong (option_flags v) = longwin v
  /\ has OptionWindowShort (option_flags v) = shortwin v.
Proof.
  destruct v as [r p f d rt pr th pl lw sw so cr h q hr tr t0 t1 t2].
  unfold option_flags, has; simpl.
  destruct rt, pr, pl, so, lw, sw, tr;
    destruct th as [|[[t|t|]|[t|t|]|]|t]; repeat split; reflexivity.
Qed.

Lemma quality_parse_from (os : list cli_opt) (v : locals) :
  peaklock (parse_from v os) = peaklock v && negb (existsb is_no_peaklock os)
  /\ softening (parse_from v os)
     = softening v && negb (existsb is_no_softening os)
  /\ longwin (parse_from v os) = longwin v || existsb is_window_long os
  /\ shortwin (parse_from v os) = shortwin v || existsb is_window_short os.
Proof.
  revert v. induction os as [|c os IH]; intros v; simpl.
  - now rewrite !andb_true_r, !orb_false_r.
  - destruct (IH (option_switch v c)) as (-> & -> & -> & ->).
    destruct c; simpl; try (repeat split; reflexivity).
    + destruct (fneq m 0%float); repeat split; reflexivity.
    + rewrite !andb_false_r. repeat split; reflexivity.
    + rewrite !orb_true_r. repeat split; reflexivity.
    + rewrite !orb_true_r. repeat split; reflexivity.
    + rewrite !andb_false_r. repeat split; reflexivity.
Qed.

Lemma softening_crispness_switch (v : locals) :
  softening (crispness_switch v) = softening v.
Proof.
  unfold crispness_switch.
  destruct (crispness v) as [|[[p|p|]|[p|p|]|]|[p|p|]]; try reflexivity;
    destruct p; reflexivity.
Qed.

(** X5: without a crispness option, the option word holds the
    phase-independent constant exactly when [--no-peaklock] is given, the
    long-window constant exactly when [--window-long] is given and the
    short-window constant exactly when [--window-short] is given, so that
    [--window-long --window-short] puts both window constants in the word
    and names no window size; with or without a crispness option the word
    holds the peak-locked constant exactly when [--no-softening] is
    given. *)
Theorem fine_tuning_reaches_the_word (os os' : list cli_opt) :
  existsb is_crisp os = false ->
  has OptionPhaseIndependent (option_flags (configured os))
  = existsb is_no_peaklock os
  /\ has OptionWindowLong (option_flags (configured os))
     = existsb is_window_long os
  /\ has OptionWindowShort (option_flags (configured os))
     = existsb is_window_short os
  /\ (existsb is_window_long os = true ->
      existsb is_window_short os = true ->
      cfg_window (configuration_of (option_flags (configured os))) = None)
  /\ has OptionPhasePeakLocked (option_flags (configured os'))
     = existsb is_no_softening os'.
Proof.
  intros Hno.
  assert (E : configured os = set_crispness (parse_options os) 4).
  { unfold configured, crispness_switch, parse_options.
    now rewrite (crispness_kept os initial_locals Hno). }
  destruct (has_quality_flags (configured os)) as (H1 & _ & H3 & H4).
  destruct (quality_parse_from os initial_locals) as (Q1 & _ & Q3 & Q4).
  assert (P : has OptionPhaseIndependent (option_flags (configured os))
              = existsb is_no_peaklock os).
  { rewrite H1, E. simpl. unfold parse_options. rewrite Q1. simpl.
    apply negb_involutive. }
  assert (L : has OptionWindowLong (option_flags (configured os))
              = existsb is_window_long os).
  { rewrite H3, E. simpl. unfold parse_options. now rewrite Q3. }
  assert (S : has OptionWindowShort (option_flags (configured os))
              = existsb is_window_short os).
  { rewrite H4, E. simpl. unfold parse_options. now rewrite Q4. }
  split; [exact P|]. split; [exact L|]. split; [exact S|]. split.
  - intros El Es. unfold configuration_of. simpl. now rewrite L, S, El, Es.
  - destruct (has_quality_flags (configured os')) as (_ & -> & _ & _).
    unfold configured. rewrite softening_crispness_switch.
    destruct (quality_parse_from os' initial_locals) as (_ & Q2 & _ & _).
    unfold parse_options. rewrite Q2. simpl. apply negb_involutive.
Qed.

Lemma fine_tuning_reaches_the_word_witness :
  has OptionPhaseIndependent
    (option_flags (configured [OptWindowLong; OptTime 2%float; OptWindowShort]))
  = false
  /\ has OptionWindowLong
       (option_flags
          (configured [OptWindowLong; OptTime 2%float; OptWindowShort]))
     = true
  /\ has OptionWindowShort
       (option_flags
          (configured [OptWindowLong; OptTime 2%float; OptWindowShort]))
     = true
  /\ cfg_window
       (configuration_of
          (option_flags
             (configured [OptWindowLong; OptTime 2%float; OptWindowShort])))
     = None
  /\ has OptionPhasePeakLocked
       (option_flags (configured [OptCrisp 2; OptNoSoftening]))
     = true.
Proof.
  destruct (fine_tuning_reaches_the_word
              [OptWindowLong; OptTime 2%float; OptWindowShort]
              [OptCrisp 2; OptNoSoftening] eq_refl)
    as (H1 & H2 & H3 & H4 & H5).
  exact (conj H1 (conj H2 (conj H3 (conj (H4 eq_refl eq_refl) H5)))).
Defined.

Lemma threading_in_range (os : list cli_opt) :
  threading (parse_options os) = 0
  \/ threading (parse_options os) = 1
  \/ threading (parse_options os) = 2.
Proof.
  apply (parse_from_invariant
           (fun v => threading v = 0 \/ threading v = 1 \/ threading v = 2));
    [|now left].
  intros v c _ H. destruct c; simpl; try exact H; try tauto.
  now destruct (fneq m 0%float).
Qed.

(** X6: whatever the command line, the option word is built from exactly
    one of the three threading constants and exactly one of the three
    transients constants. *)
Theorem one_threading_one_transients_constant (os : list cli_opt) :
  length (filter is_threading_flag (option_flags (configured os))) = 1%nat
  /\ length (filter is_transients_flag (option_flags (configured os)))
     = 1%nat.
Proof.
  pose proof (threading_in_range os) as H.
  rewrite <- (proj2 (proj2 (crispness_switch_keeps (parse_options os)))) in H.
  fold (configured os) in H.
  destruct (configured os)
    as [r p f d rt pr th pl lw sw so cr h q hr tr t0 t1 t2].
  simpl in H. unfold option_flags; simpl.
  destruct H as [-> | [-> | ->]]; destruct rt, pr, pl, so, lw, sw, tr;
    split; reflexivity.
Qed.

Lemma options_word_testbit (bits : OptionFlag -> Z) (l : list OptionFlag) :
  forall acc i,
    Z.testbit (fold_left (fun options f => Z.lor options (bits f)) l acc) i
    = Z.testbit acc i || existsb (fun f => Z.testbit (bits f) i) l.
Proof.
  induction l as [|g l IH]; intros acc i; simpl.
  - now rewrite orb_false_r.
  - rewrite IH, Z.lor_spec. now rewrite orb_assoc.
Qed.

(** X7: the option word contains every constant that was or-ed in, and has
    no bit in common with a mask that none of those constants touches:
    whatever the header's values, a field of the word can be read back
    with a bitwise and. *)
Theorem options_word_decodes (bits : OptionFlag -> Z) (v : locals)
    (f : OptionFlag) (mask : Z) :
  In f (option_flags v) ->
  (forall g, In g (option_flags v) -> Z.land (bits g) mask = 0) ->
  Z.land (options_word bits v) (bits f) = bits f
  /\ Z.land (options_word bits v) mask = 0.
Proof.
  intros Hin Hmask. unfold options_word. split; apply Z.bits_inj'; intros i _.
  - rewrite Z.land_spec, options_word_testbit, Z.bits_0, orb_false_l.
    destruct (Z.testbit (bits f) i) eqn:E; [|apply andb_false_r].
    rewrite andb_true_r. apply existsb_exists. now exists f.
  - rewrite Z.land_spec, options_word_testbit, Z.bits_0, orb_false_l.
    destruct (existsb (fun g => Z.testbit (bits g) i) (option_flags v))
      eqn:E; [|reflexivity].
    apply existsb_exists in E as (g & Hg & Hbit).
    specialize (Hmask g Hg).
    apply (f_equal (fun z => Z.testbit z i)) in Hmask.
    rewrite Z.land_spec, Z.bits_0, Hbit in Hmask. exact Hmask.
Qed.

Lemma options_word_decodes_witness :
  Z.land (options_word sample_bits (configured [OptRealtime; OptTime 2%float]))
    (sample_bits OptionProcessRealTime)
  = sample_bits OptionProcessRealTime
  /\ Z.land
       (options_word sample_bits (configured [OptRealtime; OptTime 2%float]))
       (sample_bits OptionThreadingNever)
     = 0.
Proof.
  apply (options_word_decodes sample_bits
           (configured [OptRealtime; OptTime 2%float])
           OptionProcessRealTime (sample_bits OptionThreadingNever)).
  - now left.
  - intros g [<-|[<-|[<-|[]]]]; reflexivity.
Defined.

(** ** The shape of the trace: polls, retrieves and writes *)

Lemma driver_trace_app (ch : nat) (a b : list event) :
  driver_trace ch a -> driver_trace ch b -> driver_trace ch (a ++ b).
Proof.
  induction 1 as [|ibuf count final es H IH|ibuf count final es H IH
                  |x es Hx H IH|usec es H IH|x fobf es Hx Hlen H IH];
    intros Hb; simpl.
  - exact Hb.
  - apply dt_study. now apply IH.
  - apply dt_process. now apply IH.
  - apply dt_nothing; [exact Hx|now apply IH].
  - apply dt_sleep. now apply IH.
  - apply dt_output; [exact Hx|exact Hlen|now apply IH].
Qed.

Lemma driver_trace_study (ch : nat) (s : list event) :
  forallb is_study s = true -> driver_trace ch s.
Proof.
  induction s as [|e s IH]; simpl; [constructor|].
  intros H. apply andb_true_iff in H as [He Hs].
  destruct e; try discriminate. constructor. now apply IH.
Qed.

(** In a trace of that shape a retrieve comes right after the poll that
    announced its count and right before the write of that count. *)
Lemma driver_trace_retrieve (ch : nat) (es : list event) :
  driver_trace ch es ->
  forall l1 r l2, es = l1 ++ EvRetrieve r :: l2 ->
    0 < r
    /\ exists l0 fobf l3,
         l1 = l0 ++ [EvAvailable r]
         /\ l2 = EvWrite fobf r :: l3
         /\ length fobf = (ch * Z.to_nat r)%nat.
Proof.
  induction 1 as [|ibuf count final es H IH|ibuf count final es H IH
                  |a es Ha H IH|usec es H IH|a fobf es Ha Hlen H IH];
    intros l1 r l2 E.
  - destruct l1; discriminate.
  - destruct l1 as [|e l1]; [discriminate|]. injection E as <- E.
    destruct (IH _ _ _ E) as (Hr & l0 & fobf & l3 & -> & -> & Hl).
    split; [exact Hr|]. now exists (EvStudy ibuf count final :: l0), fobf, l3.
  - destruct l1 as [|e l1]; [discriminate|]. injection E as <- E.
    destruct (IH _ _ _ E) as (Hr & l0 & fobf & l3 & -> & -> & Hl).
    split; [exact Hr|].
    now exists (EvProcess ibuf count final :: l0), fobf, l3.
  - destruct l1 as [|e l1]; [discriminate|]. injection E as <- E.
    destruct (IH _ _ _ E) as (Hr & l0 & fobf & l3 & -> & -> & Hl).
    split; [exact Hr|]. now exists (EvAvailable a :: l0), fobf, l3.
  - destruct l1 as [|e l1]; [discriminate|]. injection E as <- E.
    destruct (IH _ _ _ E) as (Hr & l0 & fobf & l3 & -> & -> & Hl).
    split; [exact Hr|]. now exists (EvSleep usec :: l0), fobf, l3.
  - destruct l1 as [|e1 [|e2 [|e3 l1]]]; try discriminate.
    + injection E as <- <- <-. split; [exact Ha|].
      now exists [], fobf, es.
    + injection E as <- <- <- E.
      destruct (IH _ _ _ E) as (Hr & l0 & fobf' & l3 & -> & -> & Hl).
      split; [exact Hr|].
      now exists (EvAvailable a :: EvRetrieve a :: EvWrite fobf a :: l0),
        fobf', l3.
Qed.

(** ... and the samples written are [ch] per frame retrieved. *)
Lemma driver_trace_written (ch : nat) (es : list event) :
  driver_trace ch es ->
  0 <= retrieved_total es
  /\ length (flat_map written es) = (ch * Z.to_nat (retrieved_total es))%nat.
Proof.
  induction 1 as [|ibuf count final es H [IH0 IH]
                  |ibuf count final es H [IH0 IH]
                  |a es Ha H [IH0 IH]|usec es H [IH0 IH]
                  |a fobf es Ha Hlen H [IH0 IH]]; simpl; auto.
  - split; [lia|]. now rewrite Nat.mul_0_r.
  - split; [lia|]. rewrite length_app, Hlen, IH, Z2Nat.inj_add by lia. lia.
Qed.

Section TraceShape.

Context {T : Type} {engine : Stretcher T}.
Variable uninit : float.
Variable sndfile : sound_file.

Lemma output_trace (avail : Z) (w : world T) (ts : T) :
  0 < avail ->
  exists es,
    w_log (retrieve_and_write uninit sndfile avail
             (emit w ts [EvAvailable avail]))
    = w_log w ++ es
    /\ driver_trace (channels sndfile) es.
Proof.
  intros Ha. rewrite retrieve_and_write_log. simpl.
  rewrite <- app_assoc. eexists. split; [reflexivity|]. simpl.
  apply dt_output; [exact Ha| |constructor].
  now apply fill_fobf_spec; rewrite repeat_length.
Qed.

Lemma process_loop_shape (fuel : nat) :
  forall frame (w : world T), exists es,
    w_log (snd (process_loop uninit sndfile fuel frame w)) = w_log w ++ es
    /\ driver_trace (channels sndfile) es.
Proof.
  induction fuel as [|fuel IH]; intros frame w.
  - destruct (loop_O uninit sndfile frame w) as [_ ->].
    exists []. rewrite app_nil_r. split; [|constructor].
    now destruct (frame <? sf_frames sndfile).
  - rewrite process_loop_S.
    destruct (frame <? sf_frames sndfile);
      [|exists []; rewrite app_nil_r; split; [reflexivity|constructor]].
    cbv zeta.
    destruct (Z.of_nat (length (sf_readf_float sndfile (w_pos w) ibs)) <? 0);
      [exists []; simpl; rewrite app_nil_r; split;
       [reflexivity|constructor]|].
    match goal with
    | |- context [ts_available ?s] => destruct (ts_available s) as [avail ts]
    end.
    match goal with
    | |- context [process_loop uninit sndfile fuel ?f ?w'] =>
        destruct (IH f w') as (es & Hlog & Hes)
    end.
    rewrite Hlog.
    destruct (0 <? avail) eqn:Ea.
    + apply Z.ltb_lt in Ea.
      match goal with
      | |- context [retrieve_and_write uninit sndfile avail (emit ?w' ts _)] =>
          destruct (output_trace avail w' ts Ea) as (es' & -> & Hes')
      end.
      simpl. rewrite <- !app_assoc.
      eexists. split; [reflexivity|].
      simpl. constructor. apply driver_trace_app; assumption.
    + apply Z.ltb_ge in Ea. simpl. rewrite <- !app_assoc.
      eexists. split; [reflexivity|].
      simpl. constructor. now constructor.
Qed.

Lemma drain_loop_trace (fuel : nat) :
  forall w : world T, exists es,
    w_log (snd (drain_loop uninit sndfile fuel w)) = w_log w ++ es
    /\ driver_trace (channels sndfile) es.
Proof.
  induction fuel as [|fuel IH]; intros w; simpl.
  - exists []. rewrite app_nil_r. split; [reflexivity|constructor].
  - destruct (ts_available (w_ts w)) as [avail ts].
    destruct (0 <=? avail) eqn:E0.
    + match goal with
      | |- context [drain_loop uninit sndfile fuel ?w'] =>
          destruct (IH w') as (es & Hlog & Hes)
      end.
      rewrite Hlog.
      destruct (0 <? avail) eqn:Ea.
      * apply Z.ltb_lt in Ea.
        destruct (output_trace avail w ts Ea) as (es' & -> & Hes').
        rewrite <- !app_assoc.
        eexists. split; [reflexivity|].
        apply driver_trace_app; assumption.
      * apply Z.ltb_ge in Ea. simpl. rewrite <- !app_assoc.
        eexists. split; [reflexivity|].
        simpl. constructor; [exact Ea|]. now constructor.
    + apply Z.leb_gt in E0. simpl. eexists. split; [reflexivity|].
      constructor; [lia|constructor].
Qed.

Lemma passes_shape (fuel : nat) (rt : bool) (w : world T) :
  exists es,
    w_log (snd (passes uninit sndfile fuel rt w)) = w_log w ++ es
    /\ driver_trace (channels sndfile) es.
Proof.
  assert (Hrest : forall w1 : world T, exists es,
             w_log (snd (and_then (process_loop uninit sndfile fuel 0 w1)
                           (fun w => drain_loop uninit sndfile fuel w)))
             = w_log w1 ++ es
             /\ driver_trace (channels sndfile) es).
  { intros w1.
    destruct (process_loop_shape fuel 0 w1) as (es2 & H2 & F2).
    unfold and_then.
    destruct (process_loop uninit sndfile fuel 0 w1) as [[|] w2];
      simpl in *; [|now exists es2].
    destruct (drain_loop_trace fuel w2) as (es3 & H3 & F3).
    exists (es2 ++ es3). rewrite H3, H2, app_assoc.
    split; [reflexivity|]. now apply driver_trace_app. }
  unfold passes, input_passes. destruct rt; cbn [negb].
  - destruct (Hrest w) as (es & Hlog & Hes).
    exists es. unfold and_then in *. cbn [fst snd]. now split.
  - destruct (study_loop_log uninit sndfile fuel 0 w) as (s & Hs & Fs).
    destruct (study_loop sndfile fuel 0 w) as [[|] w1].
    + destruct (Hrest (seek w1 0%nat)) as (es & Hlog & Hes).
      exists (s ++ es). unfold and_then in *. cbn [fst snd] in *.
      change (w_log (seek w1 0%nat)) with (w_log w1) in Hlog.
      rewrite Hs, <- app_assoc in Hlog. split; [exact Hlog|].
      apply driver_trace_app; [now apply driver_trace_study|exact Hes].
    + exists s. unfold and_then. cbn [fst snd] in *.
      split; [exact Hs|now apply driver_trace_study].
Qed.

End TraceShape.

(** X8: in every run, each retrieve asks for exactly the positive count
    the poll just before it reported, and is followed at once by the write
    of a buffer of channels times that count samples; over the whole run
    the samples handed to the file writer number channels times the frames
    retrieved. *)
Theorem retrieves_follow_polls {T : Type} {engine : Stretcher T}
    (bits : OptionFlag -> Z) (pow : float -> float -> float)
    (uninit : float) (fs : filesystem) (fuel : nat) (inv : invocation)
    (f : sound_file) :
  usage_requested (parse_options (opts inv)) inv = false ->
  sf_open_read fs (fileName inv) = Some f ->
  sf_open_write fs (fileNameOut inv) = true ->
  driver_trace (channels f) (trace (main bits pow uninit fs fuel inv))
  /\ (forall l1 r l2,
        trace (main bits pow uninit fs fuel inv) = l1 ++ EvRetrieve r :: l2 ->
        0 < r
        /\ exists l0 fobf l3,
             l1 = l0 ++ [EvAvailable r]
             /\ l2 = EvWrite fobf r :: l3
             /\ length fobf = (channels f * Z.to_nat r)%nat)
  /\ length (flat_map written (trace (main bits pow uninit fs fuel inv)))
     = (channels f
        * Z.to_nat
            (retrieved_total (trace (main bits pow uninit fs fuel inv))))%nat.
Proof.
  intros Hu Hr Hw.
  rewrite (main_trace bits pow uninit fs fuel inv f Hu Hr Hw).
  destruct (passes_shape uninit f fuel (realtime (configured (opts inv)))
              (initial_world bits pow (configured (opts inv)) f))
    as (es & Hlog & Hes).
  rewrite Hlog. simpl. split; [exact Hes|]. split.
  - now apply driver_trace_retrieve.
  - now apply driver_trace_written.
Qed.

Lemma retrieves_follow_polls_witness :
  driver_trace (channels stereo_frames)
    (trace (sample_main stereo_frames 2 (sample_invocation [OptTime 1%float])))
  /\ (forall l1 r l2,
        trace (sample_main stereo_frames 2
                 (sample_invocation [OptTime 1%float]))
        = l1 ++ EvRetrieve r :: l2 ->
        0 < r
        /\ exists l0 fobf l3,
             l1 = l0 ++ [EvAvailable r]
             /\ l2 = EvWrite fobf r :: l3
             /\ length fobf = (channels stereo_frames * Z.to_nat r)%nat)
  /\ length
       (flat_map written
          (trace (sample_main stereo_frames 2
                    (sample_invocation [OptTime 1%float]))))
     = (channels stereo_frames
        * Z.to_nat
            (retrieved_total
               (trace (sample_main stereo_frames 2
                         (sample_invocation [OptTime 1%float])))))%nat.
Proof.
  apply (retrieves_follow_polls sample_bits sample_pow 0%float
           (sample_fs stereo_frames) 2 (sample_invocation [OptTime 1%float])
           stereo_frames); reflexivity.
Defined.

(** ** The two counters *)

Lemma processed_total_app (a b : list event) :
  processed_total (a ++ b) = processed_total a + processed_total b.
Proof.
  induction a as [|e a IH]; simpl; [reflexivity|].
  destruct e; rewrite IH; lia.
Qed.

Lemma retrieved_total_app (a b : list event) :
  retrieved_total (a ++ b) = retrieved_total a + retrieved_total b.
Proof.
  induction a as [|e a IH]; simpl; [reflexivity|].
  destruct e; rewrite IH; lia.
Qed.

Lemma wrap_size_t_add (x y : Z) :
  wrap_size_t (wrap_size_t x + y) = wrap_size_t (x + y).
Proof. unfold wrap_size_t. apply Z.add_mod_idemp_l. discriminate. Qed.

Section Counters.

Context {T : Type} {engine : Stretcher T}.
Variable uninit : float.
Variable sndfile : sound_file.

Lemma counted_retrieve (avail : Z) (w : world T) :
  counted w -> counted (retrieve_and_write uninit sndfile avail w).
Proof.
  intros [Hi Ho]. unfold counted. rewrite retrieve_and_write_log.
  rewrite processed_total_app, retrieved_total_app.
  unfold retrieve_and_write. destruct (ts_retrieve (w_ts w) avail); simpl.
  rewrite Hi, Ho, wrap_size_t_add, !Z.add_0_r. split; reflexivity.
Qed.

Lemma counted_process_loop (fuel : nat) :
  forall frame (w : world T),
    counted w -> counted (snd (process_loop uninit sndfile fuel frame w)).
Proof.
  induction fuel as [|fuel IH]; intros frame w Hw.
  - destruct (loop_O uninit sndfile frame w) as [_ ->].
    now destruct (frame <? sf_frames sndfile).
  - rewrite process_loop_S.
    destruct (frame <? sf_frames sndfile); [|exact Hw].
    cbv zeta.
    destruct (Z.of_nat (length (sf_readf_float sndfile (w_pos w) ibs)) <? 0);
      [exact Hw|].
    match goal with
    | |- context [ts_available ?s] => destruct (ts_available s) as [avail ts]
    end.
    apply IH.
    assert (Hp : counted
                   (emit
                      (emit
                         (add_countIn
                            (seek w (w_pos w
                                     + length (sf_readf_float sndfile
                                                 (w_pos w) ibs)))
                            (Z.of_nat
                               (length (sf_readf_float sndfile (w_pos w) ibs))))
                         (ts_process (w_ts w)
                            (deinterleave (channels sndfile)
                               (concat (sf_readf_float sndfile (w_pos w) ibs))
                               (length (sf_readf_float sndfile (w_pos w) ibs)))
                            (Z.of_nat
                               (length (sf_readf_float sndfile (w_pos w) ibs)))
                            (sf_frames sndfile <=? wrap_int (frame + ibs)))
                         [EvProcess
                            (deinterleave (channels sndfile)
                               (concat (sf_readf_float sndfile (w_pos w) ibs))
                               (length (sf_readf_float sndfile (w_pos w) ibs)))
                            (Z.of_nat
                               (length (sf_readf_float sndfile (w_pos w) ibs)))
                            (sf_frames sndfile <=? wrap_int (frame + ibs))])
                      ts [EvAvailable avail])).
    { destruct Hw as [Hi Ho]. unfold counted. simpl.
      rewrite !processed_total_app, !retrieved_total_app. simpl.
      rewrite Hi, Ho, wrap_size_t_add, !Z.add_0_r. split; reflexivity. }
    destruct (0 <? avail); [now apply counted_retrieve|exact Hp].
Qed.

Lemma counted_drain_loop (fuel : nat) :
  forall w : world T,
    counted w -> counted (snd (drain_loop uninit sndfile fuel w)).
Proof.
  induction fuel as [|fuel IH]; intros w Hw; simpl; [exact Hw|].
  destruct (ts_available (w_ts w)) as [avail ts].
  assert (Hp : counted (emit w ts [EvAvailable avail])).
  { destruct Hw as [Hi Ho]. unfold counted. simpl.
    rewrite processed_total_app, retrieved_total_app. simpl.
    now rewrite !Z.add_0_r. }
  destruct (0 <=? avail); [|exact Hp].
  apply IH. destruct (0 <? avail); [now apply counted_retrieve|].
  destruct Hp as [Hi Ho]. unfold counted. simpl.
  rewrite processed_total_app, retrieved_total_app. simpl.
  now rewrite !Z.add_0_r.
Qed.

Lemma counted_study_loop (fuel : nat) :
  forall frame (w : world T),
    counted w -> counted (snd (study_loop sndfile fuel frame w)).
Proof.
  induction fuel as [|fuel IH]; intros frame w Hw.
  - destruct (loop_O uninit sndfile frame w) as [-> _].
    now destruct (frame <? sf_frames sndfile).
  - rewrite study_loop_S.
    destruct (frame <? sf_frames sndfile); [|exact Hw].
    cbv zeta.
    destruct (Z.of_nat (length (sf_readf_float sndfile (w_pos w) ibs)) <=? 0);
      [exact Hw|].
    apply IH. destruct Hw as [Hi Ho]. unfold counted. simpl.
    rewrite processed_total_app, retrieved_total_app. simpl.
    now rewrite !Z.add_0_r.
Qed.

Lemma counted_passes (fuel : nat) (rt : bool) (w : world T) :
  w_countIn w = wrap_size_t (processed_total (w_log w)) ->
  w_countOut w = wrap_size_t (retrieved_total (w_log w)) ->
  w_countIn (snd (passes uninit sndfile fuel rt w))
  = wrap_size_t
      (processed_total (w_log (snd (passes uninit sndfile fuel rt w))))
  /\ w_countOut (snd (passes uninit sndfile fuel rt w))
     = wrap_size_t
         (retrieved_total (w_log (snd (passes uninit sndfile fuel rt w)))).
Proof.
  intros Hi Ho. assert (Hw : counted w) by now split.
  change (counted (snd (passes uninit sndfile fuel rt w))).
  assert (Hrest : forall w1 : world T, counted w1 ->
             counted (snd (and_then (process_loop uninit sndfile fuel 0 w1)
                             (fun w => drain_loop uninit sndfile fuel w)))).
  { intros w1 H1. unfold and_then.
    pose proof (counted_process_loop fuel 0 w1 H1) as H2.
    destruct (process_loop uninit sndfile fuel 0 w1) as [[|] w2];
      cbn [fst snd] in *; [now apply counted_drain_loop|exact H2]. }
  unfold passes, input_passes. destruct rt; cbn [negb].
  - unfold and_then in *. cbn [fst snd]. now apply Hrest.
  - pose proof (counted_study_loop fuel 0 w Hw) as H1.
    destruct (study_loop sndfile fuel 0 w) as [[|] w1];
      unfold and_then in *; cbn [fst snd] in *; [|exact H1].
    now apply (Hrest (seek w1 0%nat)).
Qed.

End Counters.

(** X9: whenever a run ends or is cut short, [countIn] is the sum of the
    counts handed to [process] and [countOut] the sum of the counts asked
    of [retrieve], both modulo 2^64 as [size_t] wraps: the two figures of
    the closing diagnostic are the frames fed in and the frames taken
    out. *)
Theorem counters_match_the_trace {T : Type} {engine : Stretcher T}
    (bits : OptionFlag -> Z) (pow : float -> float -> float)
    (uninit : float) (fs : filesystem) (fuel : nat) (inv : invocation)
    (w : world T) :
  final_world (main bits pow uninit fs fuel inv) = Some w ->
  w_countIn w = wrap_size_t (processed_total (w_log w))
  /\ w_countOut w = wrap_size_t (retrieved_total (w_log w)).
Proof.
  unfold main.
  destruct (usage_requested (parse_options (opts inv)) inv); [discriminate|].
  destruct (sf_open_read fs (fileName inv)) as [f|]; [|discriminate].
  destruct (negb (sf_open_write fs (fileNameOut inv))); [discriminate|].
  pose proof (counted_passes uninit f fuel
                (realtime (crispness_switch (parse_options (opts inv))))
                (initial_world bits pow
                   (crispness_switch (parse_options (opts inv))) f)
                eq_refl eq_refl) as H.
  destruct (passes uninit f fuel _ _) as [[|] w']; simpl in *;
    intros E; injection E as <-; exact H.
Qed.

Lemma counters_match_the_trace_witness :
  2 = wrap_size_t
        (processed_total
           [EvStudy [[0.5%float; (-2)%float]; [3%float; 0.25%float]] 2 true;
            EvProcess [[0.5%float; (-2)%float]; [3%float; 0.25%float]] 2 true;
            EvAvailable 2; EvRetrieve 2;
            EvWrite [0.5%float; 1%float; (-1)%float; 0.25%float] 2;
            EvAvailable (-1)])
  /\ 2 = wrap_size_t
           (retrieved_total
              [EvStudy [[0.5%float; (-2)%float]; [3%float; 0.25%float]] 2 true;
               EvProcess [[0.5%float; (-2)%float]; [3%float; 0.25%float]] 2
                 true;
               EvAvailable 2; EvRetrieve 2;
               EvWrite [0.5%float; 1%float; (-1)%float; 0.25%float] 2;
               EvAvailable (-1)]).
Proof.
  apply (counters_match_the_trace sample_bits sample_pow 0%float
           (sample_fs stereo_frames) 2 (sample_invocation [OptTime 1%float])
           {| w_ts := {| pt_queues := [[]; []]; pt_final := true |};
              w_pos := 2; w_countIn := 2; w_countOut := 2;
              w_log :=
                [EvStudy [[0.5%float; (-2)%float]; [3%float; 0.25%float]] 2
                   true;
                 EvProcess [[0.5%float; (-2)%float]; [3%float; 0.25%float]] 2
                   true;
                 EvAvailable 2; EvRetrieve 2;
                 EvWrite [0.5%float; 1%float; (-1)%float; 0.25%float] 2;
                 EvAvailable (-1)] |}).
  vm_compute. reflexivity.
Defined.

(** ** The calls of the two passes on any file *)

Lemma block_at (f : sound_file) (k : nat) :
  sf_readf_float f (Nat.min (1024 * k) (length (sf_data f))) ibs
  = whole_input_block f k.
Proof.
  unfold sf_readf_float, whole_input_block.
  change (Z.to_nat ibs) with 1024%nat. f_equal.
  destruct (Nat.le_gt_cases (1024 * k) (length (sf_data f))) as [H|H].
  - now rewrite Nat.min_l.
  - rewrite Nat.min_r by lia. rewrite skipn_all.
    symmetry. apply skipn_all2. lia.
Qed.

Lemma block_length (f : sound_file) (k : nat) :
  length (whole_input_block f k)
  = Nat.min 1024 (length (sf_data f) - 1024 * k).
Proof. unfold whole_input_block. now rewrite length_firstn, length_skipn. Qed.

Lemma blocks_held_spec (f : sound_file) (k : nat) :
  (k < blocks_held f)%nat <-> (1024 * k < length (sf_data f))%nat.
Proof.
  unfold blocks_held.
  pose proof (Nat.div_mod_eq (length (sf_data f) + 1023) 1024) as Hdm.
  pose proof (Nat.mod_upper_bound (length (sf_data f) + 1023) 1024
                ltac:(discriminate)) as Hb.
  split; intros H; lia.
Qed.

Lemma study_is_not_process (s : list event) :
  forallb is_study s = true -> filter is_process s = [].
Proof.
  induction s as [|e s IH]; simpl; [reflexivity|].
  intros H. apply andb_true_iff in H as [He Hs].
  destruct e; try discriminate. now apply IH.
Qed.

Lemma processed_total_filter (es : list event) :
  processed_total es = processed_total (filter is_process es).
Proof.
  induction es as [|e es IH]; simpl; [reflexivity|].
  destruct e; simpl; now rewrite IH.
Qed.

Lemma processed_total_calls (f : sound_file) (n : nat) :
  processed_total (map (process_call f) (seq 0 n))
  = Z.of_nat (Nat.min (length (sf_data f)) (1024 * n)).
Proof.
  induction n as [|n IH]; [simpl; now rewrite Nat.min_0_r|].
  rewrite seq_S, map_app, processed_total_app, IH. simpl.
  rewrite block_length. lia.
Qed.

Section PassCalls.

Context {T : Type} {engine : Stretcher T}.
Variable uninit : float.
Variable sndfile : sound_file.
Hypothesis frames_fit : sf_frames sndfile <= INT_MAX - ibs.

Lemma retrieve_and_write_pos (avail : Z) (w : world T) :
  w_pos (retrieve_and_write uninit sndfile avail w) = w_pos w.
Proof.
  unfold retrieve_and_write. now destruct (ts_retrieve (w_ts w) avail).
Qed.

Lemma past_the_blocks (k : nat) (l : list event) (call : nat -> event) :
  (1024 * Z.of_nat k <? sf_frames sndfile) = false ->
  l = l ++ map call (seq k (whole_input_blocks sndfile - k)).
Proof.
  intros E. apply Z.ltb_ge in E.
  assert (H : ~ (k < whole_input_blocks sndfile)%nat)
    by (rewrite whole_input_blocks_spec; lia).
  replace (whole_input_blocks sndfile - k)%nat with 0%nat by lia.
  simpl. now rewrite app_nil_r.
Qed.

(** Pass 2 does not stop at the end of the data: it calls [process] once
    per block of the frame count the file reports. *)
Lemma process_loop_calls (fuel : nat) :
  forall (k : nat) (w w' : world T),
    w_pos w = Nat.min (1024 * k) (length (sf_data sndfile)) ->
    process_loop uninit sndfile fuel (1024 * Z.of_nat k) w = (true, w') ->
    filter is_process (w_log w')
    = filter is_process (w_log w)
      ++ map (process_call sndfile) (seq k (whole_input_blocks sndfile - k)).
Proof.
  induction fuel as [|fuel IH]; intros k w w' Hpos Hrun.
  - destruct (loop_O uninit sndfile (1024 * Z.of_nat k) w) as [_ E].
    rewrite E in Hrun. clear E.
    destruct (1024 * Z.of_nat k <? sf_frames sndfile) eqn:E;
      [discriminate|].
    injection Hrun as <-. now apply past_the_blocks.
  - rewrite process_loop_S in Hrun.
    destruct (1024 * Z.of_nat k <? sf_frames sndfile) eqn:E;
      [|injection Hrun as <-; now apply past_the_blocks].
    apply Z.ltb_lt in E. cbv zeta in Hrun.
    assert (Hk : (k < whole_input_blocks sndfile)%nat)
      by (rewrite whole_input_blocks_spec; lia).
    rewrite Hpos, block_at in Hrun.
    pose proof (block_length sndfile k) as Hlen.
    set (blk := whole_input_block sndfile k) in *.
    destruct (Z.of_nat (length blk) <? 0) eqn:Ec;
      [apply Z.ltb_lt in Ec; lia|].
    destruct (ts_available _) as [avail ts] in Hrun.
    rewrite (next_frame sndfile frames_fit (1024 * Z.of_nat k)) in Hrun
      by lia.
    replace (1024 * Z.of_nat k + ibs) with (1024 * Z.of_nat (S k)) in Hrun
      by (unfold ibs; lia).
    apply IH in Hrun.
    + rewrite Hrun.
      replace (whole_input_blocks sndfile - k)%nat
        with (S (whole_input_blocks sndfile - S k)) by lia.
      cbn [seq map].
      match goal with
      | |- _ = ?a ++ ?c :: ?m => change (a ++ c :: m) with (a ++ [c] ++ m)
      end.
      rewrite app_assoc. f_equal.
      assert (Hcall : process_call sndfile k
                      = EvProcess
                          (deinterleave (channels sndfile) (concat blk)
                             (length blk))
                          (Z.of_nat (length blk))
                          (sf_frames sndfile <=? 1024 * Z.of_nat (S k))).
      { unfold process_call. fold blk. do 2 f_equal. lia. }
      rewrite Hcall.
      destruct (0 <? avail).
      * rewrite retrieve_and_write_log. unfold emit, add_countIn, seek.
        cbn [w_log]. rewrite !filter_app. simpl. now rewrite !app_nil_r.
      * unfold emit, add_countIn, seek. cbn [w_log].
        rewrite !filter_app. simpl. now rewrite !app_nil_r.
    + destruct (0 <? avail); [rewrite retrieve_and_write_pos|];
        unfold emit, add_countIn, seek; cbn [w_pos]; lia.
Qed.

(** Pass 1 stops at the end of the data or of the reported frame count,
    whichever comes first. *)
Lemma study_loop_calls (fuel : nat) :
  forall (k : nat) (w w' : world T),
    w_pos w = Nat.min (1024 * k) (length (sf_data sndfile)) ->
    study_loop sndfile fuel (1024 * Z.of_nat k) w = (true, w') ->
    w_log w'
    = w_log w
      ++ map (whole_input_study_call sndfile)
           (seq k (Nat.min (whole_input_blocks sndfile) (blocks_held sndfile)
                   - k)).
Proof.
  assert (Hend : forall (k : nat) (l : list event),
             (1024 * Z.of_nat k <? sf_frames sndfile) = false
             \/ (length (sf_data sndfile) <= 1024 * k)%nat ->
             l = l ++ map (whole_input_study_call sndfile)
                   (seq k (Nat.min (whole_input_blocks sndfile)
                             (blocks_held sndfile) - k))).
  { intros k l E.
    assert (H : ~ (k < whole_input_blocks sndfile)%nat
                \/ ~ (k < blocks_held sndfile)%nat).
    { destruct E as [E|E].
      - left. apply Z.ltb_ge in E. rewrite whole_input_blocks_spec. lia.
      - right. rewrite blocks_held_spec. lia. }
    replace (Nat.min (whole_input_blocks sndfile) (blocks_held sndfile) - k)%nat
      with 0%nat by lia.
    simpl. now rewrite app_nil_r. }
  induction fuel as [|fuel IH]; intros k w w' Hpos Hrun.
  - destruct (loop_O uninit sndfile (1024 * Z.of_nat k) w) as [E _].
    rewrite E in Hrun. clear E.
    destruct (1024 * Z.of_nat k <? sf_frames sndfile) eqn:E;
      [discriminate|].
    injection Hrun as <-. apply Hend. now left.
  - rewrite study_loop_S in Hrun.
    destruct (1024 * Z.of_nat k <? sf_frames sndfile) eqn:E;
      [|injection Hrun as <-; apply Hend; now left].
    apply Z.ltb_lt in E. cbv zeta in Hrun.
    assert (Hk : (k < whole_input_blocks sndfile)%nat)
      by (rewrite whole_input_blocks_spec; lia).
    rewrite Hpos, block_at in Hrun.
    pose proof (block_length sndfile k) as Hlen.
    unfold whole_input_study_call at 1 in Hend.
    set (blk := whole_input_block sndfile k) in *.
    destruct (Z.of_nat (length blk) <=? 0) eqn:Ec.
    + apply Z.leb_le in Ec. injection Hrun as <-.
      unfold seek; cbn [w_log]. apply Hend. right. lia.
    + apply Z.leb_gt in Ec.
      assert (Hh : (k < blocks_held sndfile)%nat)
        by (rewrite blocks_held_spec; lia).
      rewrite (next_frame sndfile frames_fit (1024 * Z.of_nat k)) in Hrun
        by lia.
      replace (1024 * Z.of_nat k + ibs) with (1024 * Z.of_nat (S k)) in Hrun
        by (unfold ibs; lia).
      apply IH in Hrun; [|unfold emit, seek; cbn [w_pos]; lia].
      rewrite Hrun. unfold emit, seek; cbn [w_log].
      rewrite <- app_assoc. f_equal.
      replace (Nat.min (whole_input_blocks sndfile) (blocks_held sndfile)
               - k)%nat
        with (S (Nat.min (whole_input_blocks sndfile) (blocks_held sndfile)
                 - S k)) by lia.
      simpl. f_equal. unfold whole_input_study_call.
      fold (whole_input_block sndfile k). fold blk.
      do 2 f_equal. lia.
Qed.

Lemma drain_loop_no_process (fuel : nat) :
  forall w : world T,
    filter is_process (w_log (snd (drain_loop uninit sndfile fuel w)))
    = filter is_process (w_log w)
    /\ filter is_study (w_log (snd (drain_loop uninit sndfile fuel w)))
       = filter is_study (w_log w).
Proof.
  induction fuel as [|fuel IH]; intros w; simpl; [now split|].
  destruct (ts_available (w_ts w)) as [avail ts].
  destruct (0 <=? avail).
  - match goal with
    | |- context [drain_loop uninit sndfile fuel ?w'] =>
        destruct (IH w') as [-> ->]
    end.
    destruct (0 <? avail).
    + rewrite retrieve_and_write_log. simpl. rewrite !filter_app. simpl.
      now rewrite !app_nil_r.
    + simpl. rewrite !filter_app. simpl. now rewrite !app_nil_r.
  - simpl. rewrite !filter_app. simpl. now rewrite !app_nil_r.
Qed.

(** A run that went through all three loops, taken apart. *)
Lemma passes_finished (fuel : nat) (rt : bool) (w : world T) :
  fst (passes uninit sndfile fuel rt w) = true ->
  exists w1 w2,
    process_loop uninit sndfile fuel 0 w1 = (true, w2)
    /\ (if rt then w1 = w
        else exists w0, study_loop sndfile fuel 0 w = (true, w0)
                        /\ w1 = seek w0 0%nat)
    /\ filter is_process (w_log (snd (passes uninit sndfile fuel rt w)))
       = filter is_process (w_log w2)
    /\ filter is_study (w_log (snd (passes uninit sndfile fuel rt w)))
       = filter is_study (w_log w2).
Proof.
  unfold passes, input_passes. intros Hfin.
  assert (Hrest : forall w1 : world T,
             fst (and_then (process_loop uninit sndfile fuel 0 w1)
                    (fun w => drain_loop uninit sndfile fuel w)) = true ->
             exists w2,
               process_loop uninit sndfile fuel 0 w1 = (true, w2)
               /\ filter is_process
                    (w_log (snd (and_then
                                   (process_loop uninit sndfile fuel 0 w1)
                                   (fun w => drain_loop uninit sndfile fuel w))))
                  = filter is_process (w_log w2)
               /\ filter is_study
                    (w_log (snd (and_then
                                   (process_loop uninit sndfile fuel 0 w1)
                                   (fun w => drain_loop uninit sndfile fuel w))))
                  = filter is_study (w_log w2)).
  { intros w1. unfold and_then.
    destruct (process_loop uninit sndfile fuel 0 w1) as [[|] w2];
      cbn [fst snd]; [|discriminate].
    intros _. exists w2. split; [reflexivity|].
    apply drain_loop_no_process. }
  destruct rt; cbn [negb] in *.
  - unfold and_then at 2 in Hfin. unfold and_then at 2. cbn [fst snd] in *.
    destruct (Hrest w Hfin) as (w2 & H2 & Hp & Hs).
    now exists w, w2.
  - destruct (study_loop sndfile fuel 0 w) as [[|] w0] eqn:E0.
    + unfold and_then at 2 3 in Hfin. unfold and_then at 2 3.
      cbn [fst snd] in *.
      destruct (Hrest (seek w0 0%nat) Hfin) as (w2 & H2 & Hp & Hs).
      exists (seek w0 0%nat), w2. split; [exact H2|].
      split; [now exists w0|]. now split.
    + unfold and_then in Hfin. cbn [fst snd] in Hfin. discriminate.
Qed.

End PassCalls.

Lemma later_is_not_study (uninit : float) (sndfile : sound_file)
    (es : list event) :
  Forall (later_event uninit sndfile) es -> filter is_study es = [].
Proof.
  induction 1 as [|e es He _ IH]; [reflexivity|].
  simpl. destruct e; simpl in *; try exact IH. now elim He.
Qed.

Lemma filter_study_calls (f : sound_file) (l : list nat) :
  filter is_study (map (whole_input_study_call f) l)
  = map (whole_input_study_call f) l.
Proof. induction l as [|k l IH]; simpl; [reflexivity|now rewrite IH]. Qed.

Lemma blocks_held_true (f : sound_file) :
  Z.of_nat (length (sf_data f)) = sf_frames f ->
  blocks_held f = whole_input_blocks f.
Proof.
  intros H. apply Nat.le_antisymm.
  - destruct (blocks_held f) as [|k] eqn:E; [lia|].
    assert (Hk : (k < blocks_held f)%nat) by lia.
    rewrite blocks_held_spec in Hk.
    assert (Hb : (k < whole_input_blocks f)%nat)
      by (rewrite whole_input_blocks_spec; lia).
    lia.
  - destruct (whole_input_blocks f) as [|k] eqn:E; [lia|].
    assert (Hk : (k < whole_input_blocks f)%nat) by lia.
    rewrite whole_input_blocks_spec in Hk.
    assert (Hb : (k < blocks_held f)%nat)
      by (rewrite blocks_held_spec; lia).
    lia.
Qed.

Section FinishedRuns.

Context {T : Type} {engine : Stretcher T}.
Variable bits : OptionFlag -> Z.
Variable pow : float -> float -> float.
Variable uninit : float.
Variable fs : filesystem.

(** The process calls, and offline the study calls, of a run that
    returned 0. *)
Lemma finished_run_calls (fuel : nat) (inv : invocation) (f : sound_file) :
  usage_requested (parse_options (opts inv)) inv = false ->
  sf_open_read fs (fileName inv) = Some f ->
  sf_open_write fs (fileNameOut inv) = true ->
  sf_frames f <= INT_MAX - ibs ->
  exit_code (main bits pow uninit fs fuel inv) = Some 0 ->
  filter is_process (trace (main bits pow uninit fs fuel inv))
  = map (process_call f) (seq 0 (whole_input_blocks f))
  /\ filter is_study (trace (main bits pow uninit fs fuel inv))
     = if existsb is_realtime (opts inv) then []
       else map (whole_input_study_call f)
              (seq 0 (Nat.min (whole_input_blocks f) (blocks_held f))).
Proof.
  intros Hu Hr Hw Hfit Hexit.
  rewrite (main_trace bits pow uninit fs fuel inv f Hu Hr Hw).
  rewrite (main_opened bits pow uninit fs fuel inv f Hu Hr Hw) in Hexit.
  destruct (fst (passes uninit f fuel (realtime (configured (opts inv)))
                   (initial_world bits pow (configured (opts inv)) f)))
    eqn:Hfin; [|discriminate].
  destruct (passes_finished uninit f fuel _ _ Hfin)
    as (w1 & w2 & H2 & H1 & -> & ->).
  rewrite realtime_configured in H1.
  destruct (process_loop_log uninit f fuel 0 w1) as (es2 & Hlog2 & Hes2).
  rewrite H2 in Hlog2. cbn [snd] in Hlog2.
  assert (Hcalls : w_pos w1 = 0%nat ->
            filter is_process (w_log w2)
            = filter is_process (w_log w1)
              ++ map (process_call f) (seq 0 (whole_input_blocks f))).
  { intros Hpos.
    rewrite (process_loop_calls uninit f Hfit fuel 0 w1 w2 Hpos H2).
    now rewrite Nat.sub_0_r. }
  destruct (existsb is_realtime (opts inv)).
  - subst w1. split.
    + now rewrite Hcalls.
    + rewrite Hlog2, filter_app. simpl.
      apply (later_is_not_study uninit f es2 Hes2).
  - destruct H1 as (w0 & H0 & ->).
    pose proof (study_loop_calls uninit f Hfit fuel 0
                  (initial_world bits pow (configured (opts inv)) f) w0
                  eq_refl H0) as Hs.
    simpl in Hs. rewrite Nat.sub_0_r in Hs. split.
    + rewrite Hcalls by reflexivity.
      cbn [seek w_log]. rewrite Hs.
      now rewrite study_is_not_process
        by (rewrite forallb_forall; intros e He;
            apply in_map_iff in He as (k & <- & _); reflexivity).
    + rewrite Hlog2, filter_app.
      rewrite (later_is_not_study uninit f es2 Hes2), app_nil_r.
      cbn [seek w_log]. rewrite Hs. apply filter_study_calls.
Qed.

End FinishedRuns.

(** X10: in a run that returns 0, whatever the file holds, [process] is
    called once per block of 1024 frames of the frame count the file
    reports, with the frames the file has for that block (none past its
    end) and final on the last call only; [countIn] adds up to the frames
    the file holds, up to that many blocks; offline, on a file that holds
    what it reports, pass 2 hands [process] call by call what pass 1
    handed [study]. *)
Theorem process_calls_follow_the_reported_count {T : Type}
    {engine : Stretcher T}
    (bits : OptionFlag -> Z) (pow : float -> float -> float)
    (uninit : float) (fs : filesystem) (fuel : nat) (inv : invocation)
    (f : sound_file) :
  usage_requested (parse_options (opts inv)) inv = false ->
  sf_open_read fs (fileName inv) = Some f ->
  sf_open_write fs (fileNameOut inv) = true ->
  sf_frames f <= INT_MAX - ibs ->
  exit_code (main bits pow uninit fs fuel inv) = Some 0 ->
  filter is_process (trace (main bits pow uninit fs fuel inv))
  = map (process_call f) (seq 0 (whole_input_blocks f))
  /\ map final_of (filter is_process (trace (main bits pow uninit fs fuel inv)))
     = map (fun k => (S k =? whole_input_blocks f)%nat)
         (seq 0 (whole_input_blocks f))
  /\ processed_total (trace (main bits pow uninit fs fuel inv))
     = Z.of_nat (Nat.min (length (sf_data f)) (1024 * whole_input_blocks f))
  /\ (existsb is_realtime (opts inv) = false ->
      Z.of_nat (length (sf_data f)) = sf_frames f ->
      map study_as_process
        (filter is_study (trace (main bits pow uninit fs fuel inv)))
      = filter is_process (trace (main bits pow uninit fs fuel inv))).
Proof.
  intros Hu Hr Hw Hfit Hexit.
  destruct (finished_run_calls bits pow uninit fs fuel inv f
              Hu Hr Hw Hfit Hexit) as [Hp Hs].
  split; [exact Hp|]. split; [|split].
  - rewrite Hp, map_map. apply map_ext_in. intros k Hk.
    apply in_seq in Hk. unfold process_call. cbn [final_of].
    apply whole_input_final. lia.
  - now rewrite processed_total_filter, Hp, processed_total_calls.
  - intros Hoff Htrue. rewrite Hs, Hp, Hoff, (blocks_held_true f Htrue).
    rewrite Nat.min_id, map_map. apply map_ext. intros k. reflexivity.
Qed.

Lemma process_calls_follow_the_reported_count_witness :
  filter is_process
    (trace (sample_main short_file 3 (sample_invocation [OptTime 1%float])))
  = map (process_call short_file) (seq 0 (whole_input_blocks short_file))
  /\ map final_of
       (filter is_process
          (trace (sample_main short_file 3
                    (sample_invocation [OptTime 1%float]))))
     = map (fun k => (S k =? whole_input_blocks short_file)%nat)
         (seq 0 (whole_input_blocks short_file))
  /\ processed_total
       (trace (sample_main short_file 3 (sample_invocation [OptTime 1%float])))
     = Z.of_nat (Nat.min (length (sf_data short_file))
                   (1024 * whole_input_blocks short_file))
  /\ (existsb is_realtime [OptTime 1%float] = false ->
      Z.of_nat (length (sf_data short_file)) = sf_frames short_file ->
      map study_as_process
        (filter is_study
           (trace (sample_main short_file 3
                     (sample_invocation [OptTime 1%float]))))
      = filter is_process
          (trace (sample_main short_file 3
                    (sample_invocation [OptTime 1%float])))).
Proof.
  apply (process_calls_follow_the_reported_count sample_bits sample_pow
           0%float (sample_fs short_file) 3
           (sample_invocation [OptTime 1%float]) short_file);
    try reflexivity.
  unfold INT_MAX, ibs. simpl. lia.
Defined.

(** X11: offline, in a run that returns 0, [study] is called on the blocks
    of 1024 frames the file holds, up to the frame count it reports, and no
    further: on a file that ends before the last block of the count it
    reports, no study call is marked final (while pass 2 goes on to its
    final call). *)
Theorem study_calls_stop_at_end_of_data {T : Type} {engine : Stretcher T}
    (bits : OptionFlag -> Z) (pow : float -> float -> float)
    (uninit : float) (fs : filesystem) (fuel : nat) (inv : invocation)
    (f : sound_file) :
  usage_requested (parse_options (opts inv)) inv = false ->
  sf_open_read fs (fileName inv) = Some f ->
  sf_open_write fs (fileNameOut inv) = true ->
  sf_frames f <= INT_MAX - ibs ->
  existsb is_realtime (opts inv) = false ->
  exit_code (main bits pow uninit fs fuel inv) = Some 0 ->
  filter is_study (trace (main bits pow uninit fs fuel inv))
  = map (whole_input_study_call f)
      (seq 0 (Nat.min (whole_input_blocks f) (blocks_held f)))
  /\ ((blocks_held f < whole_input_blocks f)%nat ->
      existsb final_of
        (filter is_study (trace (main bits pow uninit fs fuel inv))) = false
      /\ existsb final_of
           (filter is_process (trace (main bits pow uninit fs fuel inv)))
         = true).
Proof.
  intros Hu Hr Hw Hfit Hoff Hexit.
  destruct (finished_run_calls bits pow uninit fs fuel inv f
              Hu Hr Hw Hfit Hexit) as [Hp Hs].
  rewrite Hoff in Hs. split; [exact Hs|].
  intros Hshort. rewrite Hs, Hp. split.
  - destruct (existsb final_of _) eqn:E; [|reflexivity].
    apply existsb_exists in E as (e & He & Hf).
    apply in_map_iff in He as (k & <- & Hk). apply in_seq in Hk.
    unfold whole_input_study_call in Hf. cbn [final_of] in Hf.
    rewrite whole_input_final in Hf by lia.
    apply Nat.eqb_eq in Hf. lia.
  - apply existsb_exists.
    exists (process_call f (whole_input_blocks f - 1)). split.
    + apply in_map, in_seq. lia.
    + unfold process_call. cbn [final_of]. rewrite whole_input_final by lia.
      apply Nat.eqb_eq. lia.
Qed.

Lemma study_calls_stop_at_end_of_data_witness :
  filter is_study
    (trace (sample_main short_file 3 (sample_invocation [OptTime 1%float])))
  = map (whole_input_study_call short_file)
      (seq 0 (Nat.min (whole_input_blocks short_file)
                (blocks_held short_file)))
  /\ existsb final_of
       (filter is_study
          (trace (sample_main short_file 3
                    (sample_invocation [OptTime 1%float])))) = false
  /\ existsb final_of
       (filter is_process
          (trace (sample_main short_file 3
                    (sample_invocation [OptTime 1%float])))) = true.
Proof.
  destruct (study_calls_stop_at_end_of_data sample_bits sample_pow 0%float
              (sample_fs short_file) 3 (sample_invocation [OptTime 1%float])
              short_file eq_refl eq_refl eq_refl) as [H1 H2];
    try reflexivity.
  - unfold INT_MAX, ibs. simpl. lia.
  - split; [exact H1|]. apply H2. vm_compute. lia.
Defined.

(** ** Interleaving *)

Lemma nth_map_seq (A : Type) (F : nat -> A) (n c : nat) (d : A) :
  (c < n)%nat -> nth c (map F (seq 0 n)) d = F c.
Proof.
  intros H. rewrite (nth_indep _ d (F 0%nat)) by now rewrite length_map, length_seq.
  rewrite map_nth, seq_nth by exact H. reflexivity.
Qed.

Lemma deinterleave_nth (ch : nat) (fbuf : list float) (count c i : nat) :
  (c < ch)%nat -> (i < count)%nat ->
  nth i (nth c (deinterleave ch fbuf count) []) 0%float
  = nth (i * ch + c) fbuf 0%float.
Proof.
  intros Hc Hi. unfold deinterleave.
  rewrite nth_map_seq by exact Hc. now rewrite nth_map_seq by exact Hi.
Qed.

(** X12: the two index computations are inverse to each other: filling
    the output buffer from the channel arrays that [deinterleave] makes of
    an interleaved buffer of [count] frames gives that buffer back, sample
    by sample and in order, each sample clamped, whatever the output
    buffer held before. *)
Theorem interleave_undoes_deinterleave (ch count : nat)
    (fbuf fobf : list float) :
  length fbuf = (ch * count)%nat ->
  length fobf = (ch * count)%nat ->
  fill_fobf ch count
    (fun c i => nth i (nth c (deinterleave ch fbuf count) []) 0%float) fobf
  = map clamp fbuf.
Proof.
  intros Hin Hout.
  destruct (fill_fobf_spec ch count
              (fun c i => nth i (nth c (deinterleave ch fbuf count) []) 0%float)
              fobf Hout) as (Hlen & Hnth & _).
  apply (nth_ext _ _ 0%float (clamp 0%float)).
  - now rewrite Hlen, length_map, Hin.
  - intros j Hj. rewrite Hlen in Hj.
    assert (Hch : (0 < ch)%nat) by (destruct ch; simpl in *; lia).
    assert (Hm : (j mod ch < ch)%nat) by (apply Nat.mod_upper_bound; lia).
    assert (Hd : (j / ch < count)%nat)
      by (apply Nat.Div0.div_lt_upper_bound; lia).
    rewrite map_nth.
    assert (Ej : j = (j / ch * ch + j mod ch)%nat)
      by (rewrite (Nat.div_mod_eq j ch) at 1; lia).
    remember (j / ch)%nat as i. remember (j mod ch)%nat as c.
    rewrite Ej, Hnth by assumption.
    now rewrite deinterleave_nth by assumption.
Qed.

Lemma interleave_undoes_deinterleave_witness :
  fill_fobf 2 2
    (fun c i =>
       nth i
         (nth c
            (deinterleave 2 [0.5%float; 3%float; (-2)%float; 0.25%float] 2) [])
         0%float)
    [9%float; 9%float; 9%float; 9%float]
  = map clamp [0.5%float; 3%float; (-2)%float; 0.25%float].
Proof.
  apply (interleave_undoes_deinterleave 2 2
           [0.5%float; 3%float; (-2)%float; 0.25%float]
           [9%float; 9%float; 9%float; 9%float]); reflexivity.
Defined.

(** ** Elapsed time *)

Lemma wrap_long_small (z : Z) :
  -9223372036854775808 <= z <= 9223372036854775807 -> wrap_long z = z.
Proof.
  unfold wrap_long. intros H. rewrite Z.mod_small by lia. lia.
Qed.

(** X13: for two readings of the clock with microseconds in 0..999999 (and
    seconds within 2^62 of zero, far from the ends of [long]), the subtraction with its borrow
    leaves microseconds in 0..999999 again, loses nothing (seconds times a
    million plus microseconds is the difference of the two readings), and
    gives seconds that are not negative when the second reading is not
    earlier than the first. *)
Theorem elapsed_is_normalised (tv etv : timeval) :
  0 <= tv_usec tv < 1000000 ->
  0 <= tv_usec etv < 1000000 ->
  -4611686018427387904 <= tv_sec tv < 4611686018427387904 ->
  -4611686018427387904 <= tv_sec etv < 4611686018427387904 ->
  0 <= tv_usec (elapsed tv etv) < 1000000
  /\ microseconds (elapsed tv etv) = microseconds etv - microseconds tv
  /\ (microseconds tv <= microseconds etv -> 0 <= tv_sec (elapsed tv etv)).
Proof.
  intros Hu He Hs Hse. unfold elapsed, microseconds. cbn [tv_sec tv_usec].
  rewrite (wrap_long_small (tv_sec etv - tv_sec tv)) by lia.
  destruct (Z.ltb_spec (tv_usec etv) (tv_usec tv)) as [Hlt|Hge];
    cbn [tv_sec tv_usec].
  - rewrite (wrap_long_small (tv_usec etv + 1000000)) by lia.
    rewrite (wrap_long_small (tv_sec etv - tv_sec tv - 1)) by lia.
    rewrite (wrap_long_small (tv_usec etv + 1000000 - tv_usec tv)) by lia.
    lia.
  - rewrite (wrap_long_small (tv_usec etv - tv_usec tv)) by lia.
    lia.
Qed.

Lemma elapsed_is_normalised_witness :
  0 <= tv_usec (elapsed (mkTimeval 10 900000) (mkTimeval 12 100000)) < 1000000
  /\ microseconds (elapsed (mkTimeval 10 900000) (mkTimeval 12 100000))
     = microseconds (mkTimeval 12 100000) - microseconds (mkTimeval 10 900000)
  /\ (microseconds (mkTimeval 10 900000) <= microseconds (mkTimeval 12 100000)
      -> 0 <= tv_sec (elapsed (mkTimeval 10 900000) (mkTimeval 12 100000))).
Proof.
  apply (elapsed_is_normalised (mkTimeval 10 900000) (mkTimeval 12 100000));
    simpl; lia.
Defined.

(** * The loops against the engine *)

(** ** Every event is the call it records *)

Section EngineRunFacts.

Context {T : Type} {engine : Stretcher T}.
Variable uninit : float.
Variable sndfile : sound_file.

Lemma engine_run_app (ts ts1 ts2 : T) (a b : list event) :
  engine_run uninit (channels sndfile) ts a ts1 ->
  engine_run uninit (channels sndfile) ts1 b ts2 ->
  engine_run uninit (channels sndfile) ts (a ++ b) ts2.
Proof.
  induction 1; intros Hb; simpl.
  - exact Hb.
  - apply er_study. auto.
  - apply er_process. auto.
  - apply er_available. auto.
  - apply er_output. auto.
  - apply er_sleep. auto.
Qed.

(** The engine state a record leads to is determined by the record. *)
Lemma engine_run_functional (ts ts1 ts2 : T) (es : list event) :
  engine_run uninit (channels sndfile) ts es ts1 ->
  engine_run uninit (channels sndfile) ts es ts2 ->
  ts1 = ts2.
Proof.
  induction 1; intros H2; inversion H2; subst; auto.
Qed.

(** The study calls at the head of a record were made first. *)
Lemma engine_run_after_study (s : list event) :
  forall (ts ts' : T) (es : list event),
    forallb is_study s = true ->
    engine_run uninit (channels sndfile) ts (s ++ es) ts' ->
    exists ts1,
      engine_run uninit (channels sndfile) ts s ts1
      /\ engine_run uninit (channels sndfile) ts1 es ts'.
Proof.
  induction s as [|e s IH]; intros ts ts' es Hs Hrun; simpl in *.
  - exists ts. split; [constructor|exact Hrun].
  - apply andb_true_iff in Hs as [He Hs].
    destruct e; try discriminate.
    inversion Hrun; subst.
    destruct (IH _ _ _ Hs H5) as (ts1 & H1 & H2).
    exists ts1. split; [now apply er_study|exact H2].
Qed.

(** A write in a record: the retrieve just before it, the engine state that
    retrieve was made on, and the buffer written. *)
Lemma engine_run_write (ts ts' : T) (es : list event) :
  engine_run uninit (channels sndfile) ts es ts' ->
  forall l1 fobf avail l2,
    es = l1 ++ EvWrite fobf avail :: l2 ->
    exists l0 ts1,
      l1 = l0 ++ [EvRetrieve avail]
      /\ engine_run uninit (channels sndfile) ts l0 ts1
      /\ fobf = fill_fobf (channels sndfile) (Z.to_nat avail)
                  (fst (ts_retrieve ts1 avail))
                  (repeat uninit (channels sndfile * Z.to_nat avail)).
Proof.
  induction 1 as [ts|ts ibuf count final es ts' H IH
                  |ts ibuf count final es ts' H IH
                  |ts es ts' H IH|ts a es ts' H IH|ts usec es ts' H IH];
    intros l1 fobf avail l2 E.
  - destruct l1; discriminate.
  - destruct l1 as [|e l1]; [discriminate|]. injection E as <- E.
    destruct (IH _ _ _ _ E) as (l0 & ts1 & -> & H1 & ->).
    exists (EvStudy ibuf count final :: l0), ts1.
    split; [reflexivity|]. split; [now apply er_study|reflexivity].
  - destruct l1 as [|e l1]; [discriminate|]. injection E as <- E.
    destruct (IH _ _ _ _ E) as (l0 & ts1 & -> & H1 & ->).
    exists (EvProcess ibuf count final :: l0), ts1.
    split; [reflexivity|]. split; [now apply er_process|reflexivity].
  - destruct l1 as [|e l1]; [discriminate|]. injection E as <- E.
    destruct (IH _ _ _ _ E) as (l0 & ts1 & -> & H1 & ->).
    exists (EvAvailable (fst (ts_available ts)) :: l0), ts1.
    split; [reflexivity|]. split; [now apply er_available|reflexivity].
  - destruct l1 as [|e1 [|e2 l1]]; try discriminate.
    + injection E as <- <- <- <-.
      exists [], ts. split; [reflexivity|]. split; [constructor|reflexivity].
    + injection E as <- <- E.
      destruct (IH _ _ _ _ E) as (l0 & ts1 & -> & H1 & ->).
      eexists (EvRetrieve a :: EvWrite _ a :: l0), ts1.
      split; [reflexivity|]. split; [now apply er_output|reflexivity].
  - destruct l1 as [|e l1]; [discriminate|]. injection E as <- E.
    destruct (IH _ _ _ _ E) as (l0 & ts1 & -> & H1 & ->).
    exists (EvSleep usec :: l0), ts1.
    split; [reflexivity|]. split; [now apply er_sleep|reflexivity].
Qed.

Lemma output_run (avail : Z) (w : world T) :
  exists es,
    w_log (retrieve_and_write uninit sndfile avail w) = w_log w ++ es
    /\ engine_run uninit (channels sndfile) (w_ts w) es
         (w_ts (retrieve_and_write uninit sndfile avail w)).
Proof.
  eexists. split; [apply retrieve_and_write_log|].
  rewrite retrieve_and_write_ts. apply er_output. constructor.
Qed.

Lemma study_loop_run (fuel : nat) :
  forall frame (w : world T), exists es,
    w_log (snd (study_loop sndfile fuel frame w)) = w_log w ++ es
    /\ engine_run uninit (channels sndfile) (w_ts w) es
         (w_ts (snd (study_loop sndfile fuel frame w))).
Proof.
  induction fuel as [|fuel IH]; intros frame w.
  - destruct (loop_O uninit sndfile frame w) as [-> _].
    exists []. rewrite app_nil_r.
    destruct (frame <? sf_frames sndfile); split;
      try reflexivity; constructor.
  - rewrite study_loop_S.
    destruct (frame <? sf_frames sndfile);
      [|exists []; rewrite app_nil_r; split; [reflexivity|constructor]].
    cbv zeta.
    destruct (Z.of_nat (length (sf_readf_float sndfile (w_pos w) ibs)) <=? 0);
      [exists []; simpl; rewrite app_nil_r; split;
       [reflexivity|constructor]|].
    match goal with
    | |- context [study_loop sndfile fuel ?f ?w'] =>
        destruct (IH f w') as (es & Hlog & Hes)
    end.
    rewrite Hlog. simpl in *. rewrite <- app_assoc.
    eexists. split; [reflexivity|]. simpl. apply er_study. exact Hes.
Qed.

Lemma process_loop_run (fuel : nat) :
  forall frame (w : world T), exists es,
    w_log (snd (process_loop uninit sndfile fuel frame w)) = w_log w ++ es
    /\ engine_run uninit (channels sndfile) (w_ts w) es
         (w_ts (snd (process_loop uninit sndfile fuel frame w))).
Proof.
  induction fuel as [|fuel IH]; intros frame w.
  - destruct (loop_O uninit sndfile frame w) as [_ ->].
    exists []. rewrite app_nil_r.
    destruct (frame <? sf_frames sndfile); split;
      try reflexivity; constructor.
  - rewrite process_loop_S.
    destruct (frame <? sf_frames sndfile);
      [|exists []; rewrite app_nil_r; split; [reflexivity|constructor]].
    cbv zeta.
    destruct (Z.of_nat (length (sf_readf_float sndfile (w_pos w) ibs)) <? 0);
      [exists []; simpl; rewrite app_nil_r; split;
       [reflexivity|constructor]|].
    match goal with
    | |- context [ts_available ?s] =>
        rewrite (surjective_pairing (ts_available s))
    end.
    match goal with
    | |- context [process_loop uninit sndfile fuel ?f ?w'] =>
        destruct (IH f w') as (es & Hlog & Hes)
    end.
    rewrite Hlog.
    match type of Hes with
    | engine_run _ _ (w_ts (if ?b then _ else _)) _ _ => destruct b
    end.
    + match type of Hes with
      | context [retrieve_and_write uninit sndfile ?a ?w'] =>
          destruct (output_run a w') as (es' & Hlog' & Hes')
      end.
      rewrite Hlog'. simpl in *. rewrite <- !app_assoc.
      eexists. split; [reflexivity|].
      simpl. apply er_process, er_available.
      eapply engine_run_app; eassumption.
    + simpl in *. rewrite <- !app_assoc.
      eexists. split; [reflexivity|].
      simpl. apply er_process, er_available. exact Hes.
Qed.

Lemma drain_loop_run (fuel : nat) :
  forall w : world T, exists es,
    w_log (snd (drain_loop uninit sndfile fuel w)) = w_log w ++ es
    /\ engine_run uninit (channels sndfile) (w_ts w) es
         (w_ts (snd (drain_loop uninit sndfile fuel w))).
Proof.
  induction fuel as [|fuel IH]; intros w; simpl.
  - exists []. rewrite app_nil_r. split; [reflexivity|constructor].
  - rewrite (surjective_pairing (ts_available (w_ts w))).
    destruct (0 <=? fst (ts_available (w_ts w))).
    + match goal with
      | |- context [drain_loop uninit sndfile fuel ?w'] =>
          destruct (IH w') as (es & Hlog & Hes)
      end.
      rewrite Hlog.
      destruct (0 <? fst (ts_available (w_ts w))).
      * match type of Hes with
        | context [retrieve_and_write uninit sndfile ?a ?w'] =>
            destruct (output_run a w') as (es' & Hlog' & Hes')
        end.
        rewrite Hlog'. simpl in *. rewrite <- !app_assoc.
        eexists. split; [reflexivity|].
        simpl. apply er_available.
        eapply engine_run_app; eassumption.
      * simpl in *. rewrite <- !app_assoc.
        eexists. split; [reflexivity|].
        simpl. apply er_available, er_sleep. exact Hes.
    + simpl. eexists. split; [reflexivity|].
      apply er_available. constructor.
Qed.

Lemma passes_run (fuel : nat) (rt : bool) (w : world T) :
  exists es,
    w_log (snd (passes uninit sndfile fuel rt w)) = w_log w ++ es
    /\ engine_run uninit (channels sndfile) (w_ts w) es
         (w_ts (snd (passes uninit sndfile fuel rt w))).
Proof.
  assert (Hrest : forall w1 : world T, exists es,
             w_log (snd (and_then (process_loop uninit sndfile fuel 0 w1)
                           (fun w => drain_loop uninit sndfile fuel w)))
             = w_log w1 ++ es
             /\ engine_run uninit (channels sndfile) (w_ts w1) es
                  (w_ts (snd (and_then
                                (process_loop uninit sndfile fuel 0 w1)
                                (fun w => drain_loop uninit sndfile fuel w))))).
  { intros w1.
    destruct (process_loop_run fuel 0 w1) as (es2 & H2 & F2).
    unfold and_then.
    destruct (process_loop uninit sndfile fuel 0 w1) as [[|] w2];
      cbn [fst snd] in *; [|now exists es2].
    destruct (drain_loop_run fuel w2) as (es3 & H3 & F3).
    exists (es2 ++ es3). rewrite H3, H2, app_assoc.
    split; [reflexivity|]. eapply engine_run_app; eassumption. }
  unfold passes, input_passes. destruct rt; cbn [negb].
  - destruct (Hrest w) as (es & Hlog & Hes).
    exists es. unfold and_then in *. cbn [fst snd]. now split.
  - destruct (study_loop_run fuel 0 w) as (s & Hs & Fs).
    destruct (study_loop sndfile fuel 0 w) as [[|] w1].
    + destruct (Hrest (seek w1 0%nat)) as (es & Hlog & Hes).
      exists (s ++ es). unfold and_then in *. cbn [fst snd] in *.
      change (w_log (seek w1 0%nat)) with (w_log w1) in Hlog.
      change (w_ts (seek w1 0%nat)) with (w_ts w1) in Hes.
      rewrite Hs, <- app_assoc in Hlog. split; [exact Hlog|].
      eapply engine_run_app; eassumption.
    + exists s. unfold and_then. cbn [fst snd] in *. now split.
Qed.

End EngineRunFacts.

Lemma concat_nth_uniform (ch : nat) (l : list (list float)) :
  Forall (fun frame => length frame = ch) l ->
  forall i c d, (c < ch)%nat ->
    nth (i * ch + c) (concat l) d = nth c (nth i l []) d.
Proof.
  induction 1 as [|frame l Hf _ IH]; intros i c d Hc.
  - simpl. now destruct (i * ch + c)%nat, i, c.
  - destruct i as [|i]; simpl.
    + rewrite app_nth1 by lia. reflexivity.
    + rewrite app_nth2 by lia. rewrite <- (IH i c d Hc). f_equal. lia.
Qed.

Section RunAgainstEngine.

Context {T : Type} {engine : Stretcher T}.
Variable bits : OptionFlag -> Z.
Variable pow : float -> float -> float.
Variable uninit : float.
Variable fs : filesystem.

(** The world a run past the two [sf_open]s ends in, or is cut short in. *)
Lemma main_world (fuel : nat) (inv : invocation) (f : sound_file) :
  usage_requested (parse_options (opts inv)) inv = false ->
  sf_open_read fs (fileName inv) = Some f ->
  sf_open_write fs (fileNameOut inv) = true ->
  final_world (main bits pow uninit fs fuel inv)
  = Some (snd (passes uninit f fuel (realtime (configured (opts inv)))
                 (initial_world bits pow (configured (opts inv)) f))).
Proof.
  intros Hu Hr Hw. rewrite (main_opened bits pow uninit fs fuel inv f Hu Hr Hw).
  now destruct (fst (passes uninit f fuel _ _)).
Qed.

(** The whole trace of [main] is the record of the calls made on the
    stretcher it constructed. *)
Lemma main_run (fuel : nat) (inv : invocation) (f : sound_file)
    (w : world T) :
  sf_open_read fs (fileName inv) = Some f ->
  final_world (main bits pow uninit fs fuel inv) = Some w ->
  trace (main bits pow uninit fs fuel inv) = w_log w
  /\ engine_run uninit (channels f)
       (w_ts (initial_world bits pow (configured (opts inv)) f))
       (w_log w) (w_ts w).
Proof.
  intros Hr Hfin.
  destruct (usage_requested (parse_options (opts inv)) inv) eqn:Hu.
  { unfold main in Hfin. rewrite Hu in Hfin. discriminate. }
  destruct (sf_open_write fs (fileNameOut inv)) eqn:Hw.
  2:{ unfold main in Hfin. rewrite Hu, Hr, Hw in Hfin. discriminate. }
  rewrite (main_trace bits pow uninit fs fuel inv f Hu Hr Hw).
  rewrite (main_world fuel inv f Hu Hr Hw) in Hfin. injection Hfin as <-.
  split; [reflexivity|].
  destruct (passes_run uninit f fuel (realtime (configured (opts inv)))
              (initial_world bits pow (configured (opts inv)) f))
    as (es & Hlog & Hes).
  rewrite Hlog. exact Hes.
Qed.

(** A run with a trace went past the usage test and both [sf_open]s. *)
Lemma trace_not_nil (fuel : nat) (inv : invocation) :
  trace (main bits pow uninit fs fuel inv) <> [] ->
  usage_requested (parse_options (opts inv)) inv = false
  /\ sf_open_write fs (fileNameOut inv) = true.
Proof.
  intros Hne.
  destruct (usage_requested (parse_options (opts inv)) inv) eqn:Hu;
    [elim Hne; apply main_trace_nil; now left|].
  destruct (sf_open_write fs (fileNameOut inv)) eqn:Hw;
    [now split|].
  elim Hne. apply main_trace_nil. right. now right.
Qed.

End RunAgainstEngine.

(** ** Every write is a retrieve, clamped *)

(** C9 (amended): every buffer handed to the file writer, in the
    processing loop and in the drain loop alike, comes right after a
    retrieve and holds, at index [i * channels + c], the clamp of sample
    [i] of channel [c] of what that retrieve delivered, the engine being
    in the state the calls recorded so far have put it in: 1.0 for a
    sample above 1.0, -1.0 for one below -1.0, the sample itself otherwise.
    So no written sample is above 1.0 or below -1.0, and each lies in
    [-1.0, 1.0] unless it is a NaN, which the two comparisons let
    through. *)
Theorem written_samples_are_clamped {T : Type} {engine : Stretcher T}
    (bits : OptionFlag -> Z) (pow : float -> float -> float)
    (uninit : float) (fs : filesystem) (fuel : nat) (inv : invocation)
    (f : sound_file) (l1 l2 : list event) (fobf : list float) (avail : Z) :
  sf_open_read fs (fileName inv) = Some f ->
  trace (main bits pow uninit fs fuel inv) = l1 ++ EvWrite fobf avail :: l2 ->
  exists l0 ts,
    l1 = l0 ++ [EvRetrieve avail]
    /\ engine_run uninit (channels f)
         (w_ts (initial_world bits pow (configured (opts inv)) f)) l0 ts
    /\ 0 < avail
    /\ length fobf = (channels f * Z.to_nat avail)%nat
    /\ (forall c i, (c < channels f)%nat -> (i < Z.to_nat avail)%nat ->
          nth (i * channels f + c) fobf 0%float
          = clamp (fst (ts_retrieve ts avail) c i))
    /\ (forall v, In v fobf ->
          (exists c i,
             (c < channels f)%nat /\ (i < Z.to_nat avail)%nat
             /\ v = clamp (fst (ts_retrieve ts avail) c i))
          /\ PrimFloat.ltb 1%float v = false
          /\ PrimFloat.ltb v (-1)%float = false
          /\ (PrimFloat.is_nan v = false -> in_range v = true))
    /\ (forall x,
          (PrimFloat.ltb 1%float x = true -> clamp x = 1%float)
          /\ (PrimFloat.ltb x (-1)%float = true -> clamp x = (-1)%float)
          /\ (PrimFloat.ltb 1%float x = false ->
              PrimFloat.ltb x (-1)%float = false -> clamp x = x)).
Proof.
  intros Hr Htrace.
  assert (Hne : trace (main bits pow uninit fs fuel inv) <> [])
    by (rewrite Htrace; intros E; symmetry in E;
        exact (app_cons_not_nil _ _ _ E)).
  destruct (trace_not_nil bits pow uninit fs fuel inv Hne) as [Hu Hw].
  pose proof (main_world bits pow uninit fs fuel inv f Hu Hr Hw) as Hfin.
  destruct (main_run bits pow uninit fs fuel inv f _ Hr Hfin) as [Hlog Hrun].
  rewrite <- Hlog, Htrace in Hrun.
  destruct (engine_run_write uninit f _ _ _ Hrun _ _ _ _ eq_refl)
    as (l0 & ts & -> & Hl0 & Hfobf).
  pose proof (main_trace bits pow uninit fs fuel inv f Hu Hr Hw) as Ht.
  destruct (passes_shape uninit f fuel (realtime (configured (opts inv)))
              (initial_world bits pow (configured (opts inv)) f))
    as (es & Hes & Hshape).
  rewrite <- Ht, Htrace in Hes. simpl in Hes. rewrite <- Hes in Hshape.
  rewrite <- app_assoc in Hshape. simpl in Hshape.
  destruct (driver_trace_retrieve _ _ Hshape _ _ _ eq_refl) as [Hpos _].
  destruct (fill_fobf_spec (channels f) (Z.to_nat avail)
              (fst (ts_retrieve ts avail))
              (repeat uninit (channels f * Z.to_nat avail))
              (repeat_length _ _)) as (Hlen & Hnth & Hin).
  rewrite <- Hfobf in Hlen, Hnth, Hin.
  exists l0, ts. split; [reflexivity|]. split; [exact Hl0|].
  split; [exact Hpos|]. split; [exact Hlen|].
  split; [intros c i Hc Hi; now apply Hnth|]. split.
  - intros v Hv. destruct (Hin v Hv) as (c & i & Hc & Hi & ->).
    destruct (clamp_range (fst (ts_retrieve ts avail) c i))
      as (R1 & R2 & R3).
    split; [now exists c, i|]. split; [exact R1|]. split; [exact R2|].
    intros Hn. rewrite R3.
    destruct (PrimFloat.is_nan (fst (ts_retrieve ts avail) c i)) eqn:En;
      [|reflexivity].
    destruct (nan_not_lt 1%float _ En) as [N1 _].
    destruct (nan_not_lt (-1)%float _ En) as [_ N2].
    destruct (clamp_cases (fst (ts_retrieve ts avail) c i)) as (_ & _ & C3).
    rewrite (C3 N1 N2) in Hn. congruence.
  - exact clamp_cases.
Qed.

Lemma written_samples_are_clamped_witness :
  sf_open_read (sample_fs stereo_frames)
    (fileName (sample_invocation [OptTime 1%float])) = Some stereo_frames
  /\ trace (sample_main stereo_frames 2 (sample_invocation [OptTime 1%float]))
     = [EvStudy [[0.5%float; (-2)%float]; [3%float; 0.25%float]] 2 true;
        EvProcess [[0.5%float; (-2)%float]; [3%float; 0.25%float]] 2 true;
        EvAvailable 2; EvRetrieve 2]
       ++ EvWrite [0.5%float; 1%float; (-1)%float; 0.25%float] 2
          :: [EvAvailable (-1)]
  /\ exists l0 ts,
       [EvStudy [[0.5%float; (-2)%float]; [3%float; 0.25%float]] 2 true;
        EvProcess [[0.5%float; (-2)%float]; [3%float; 0.25%float]] 2 true;
        EvAvailable 2; EvRetrieve 2] = l0 ++ [EvRetrieve 2]
       /\ engine_run 0%float (channels stereo_frames)
            (w_ts (initial_world sample_bits sample_pow
                     (configured (opts (sample_invocation [OptTime 1%float])))
                     stereo_frames)) l0 ts
       /\ 0 < 2
       /\ length [0.5%float; 1%float; (-1)%float; 0.25%float]
          = (channels stereo_frames * Z.to_nat 2)%nat
       /\ (forall c i, (c < channels stereo_frames)%nat ->
             (i < Z.to_nat 2)%nat ->
             nth (i * channels stereo_frames + c)
               [0.5%float; 1%float; (-1)%float; 0.25%float] 0%float
             = clamp (fst (ts_retrieve ts 2) c i))
       /\ (forall v, In v [0.5%float; 1%float; (-1)%float; 0.25%float] ->
             (exists c i,
                (c < channels stereo_frames)%nat /\ (i < Z.to_nat 2)%nat
                /\ v = clamp (fst (ts_retrieve ts 2) c i))
             /\ PrimFloat.ltb 1%float v = false
             /\ PrimFloat.ltb v (-1)%float = false
             /\ (PrimFloat.is_nan v = false -> in_range v = true))
       /\ (forall x,
             (PrimFloat.ltb 1%float x = true -> clamp x = 1%float)
             /\ (PrimFloat.ltb x (-1)%float = true -> clamp x = (-1)%float)
             /\ (PrimFloat.ltb 1%float x = false ->
                 PrimFloat.ltb x (-1)%float = false -> clamp x = x)).
Proof.
  split; [reflexivity|]. split; [vm_compute; reflexivity|].
  apply (written_samples_are_clamped sample_bits sample_pow 0%float
           (sample_fs stereo_frames) 2 (sample_invocation [OptTime 1%float])
           stereo_frames _ [EvAvailable (-1)]).
  - reflexivity.
  - vm_compute. reflexivity.
Defined.

(** ** Study before process *)

Lemma firstn_plus (A : Type) (a b : nat) :
  forall l : list A,
    firstn (a + b) l = firstn a l ++ firstn b (skipn a l).
Proof.
  induction a as [|a IH]; intros l; [reflexivity|].
  destruct l as [|x l]; [simpl; now rewrite firstn_nil|].
  cbn [Nat.add firstn skipn app]. now rewrite IH.
Qed.

Lemma blocks_prefix (A : Type) (n : nat) :
  forall l : list A,
    concat (map (fun k => firstn 1024 (skipn (1024 * k) l)) (seq 0 n))
    = firstn (1024 * n) l.
Proof.
  induction n as [|n IH]; intros l.
  - reflexivity.
  - rewrite <- cons_seq, <- seq_shift.
    cbn [map concat]. rewrite map_map, Nat.mul_0_r. cbn [skipn].
    replace (1024 * S n)%nat with (1024 + 1024 * n)%nat by lia.
    rewrite firstn_plus. f_equal.
    rewrite <- IH. f_equal. apply map_ext. intros k.
    rewrite skipn_skipn. do 2 f_equal. lia.
Qed.

Lemma Forall_block (A : Type) (P : A -> Prop) (n m : nat) (l : list A) :
  Forall P l -> Forall P (firstn n (skipn m l)).
Proof.
  intros H. revert m n. induction H as [|x l Hx H IH]; intros m n.
  - rewrite skipn_nil, firstn_nil. constructor.
  - destruct m as [|m]; [|exact (IH m n)].
    cbn [skipn]. destruct n as [|n]; [constructor|].
    cbn [firstn]. constructor; [exact Hx|]. exact (IH 0%nat n).
Qed.

(** Frame [i] of block [k] is frame [1024 k + i] of the file. *)
Lemma block_frame (f : sound_file) (k i : nat) :
  (i < length (whole_input_block f k))%nat ->
  nth i (whole_input_block f k) [] = nth (1024 * k + i) (sf_data f) [].
Proof.
  intros Hi. rewrite block_length in Hi. unfold whole_input_block.
  rewrite nth_firstn.
  destruct (Nat.ltb_spec i 1024) as [_|H]; [|lia].
  apply nth_skipn.
Qed.

(** What study call [k] of pass 1 carries: as many channel arrays as the
    file has channels, each of the length of block [k], holding that
    block's samples channel by channel. *)
Lemma whole_input_study_call_spec (f : sound_file) (k : nat) :
  exists ibuf,
    whole_input_study_call f k
    = EvStudy ibuf (Z.of_nat (length (whole_input_block f k)))
        (sf_frames f <=? 1024 * (Z.of_nat k + 1))
    /\ length ibuf = sf_channels f
    /\ forall c, (c < sf_channels f)%nat ->
         length (nth c ibuf []) = length (whole_input_block f k)
         /\ (forall i, (i < length (whole_input_block f k))%nat ->
               nth i (nth c ibuf []) 0%float
               = nth (i * sf_channels f + c)
                   (concat (whole_input_block f k)) 0%float)
         /\ (Forall (fun frame => length frame = sf_channels f) (sf_data f) ->
             forall i, (i < length (whole_input_block f k))%nat ->
               nth i (nth c ibuf []) 0%float
               = nth c (nth (1024 * k + i) (sf_data f) []) 0%float).
Proof.
  exists (deinterleave (sf_channels f) (concat (whole_input_block f k))
            (length (whole_input_block f k))).
  split; [reflexivity|]. split.
  - unfold deinterleave. now rewrite length_map, length_seq.
  - intros c Hc. split; [|split].
    + unfold deinterleave. rewrite nth_map_seq by exact Hc.
      now rewrite length_map, length_seq.
    + intros i Hi. now apply deinterleave_nth.
    + intros Hall i Hi. rewrite deinterleave_nth by assumption.
      rewrite (concat_nth_uniform (sf_channels f)) by
        (try exact Hc; apply Forall_block; exact Hall).
      now rewrite block_frame.
Qed.


Section StudyFirst.

Context {T : Type} {engine : Stretcher T}.
Variable bits : OptionFlag -> Z.
Variable pow : float -> float -> float.
Variable uninit : float.
Variable fs : filesystem.

(** The study calls of an offline run that got past pass 1. *)
Lemma study_calls_of_run (fuel : nat) (inv : invocation) (f : sound_file)
    (s : list event) (w1 : world T) :
  sf_frames f <= INT_MAX - ibs ->
  study_loop f fuel 0 (initial_world bits pow (configured (opts inv)) f)
  = (true, w1) ->
  w_log w1 = s ->
  s = map (whole_input_study_call f) (seq 0 (studied_blocks f)).
Proof.
  intros Hfit Hrun <-.
  pose proof (study_loop_calls uninit f Hfit fuel 0
                (initial_world bits pow (configured (opts inv)) f) w1
                eq_refl Hrun) as H.
  rewrite H. unfold studied_blocks. now rewrite Nat.sub_0_r.
Qed.

End StudyFirst.

Lemma studied_blocks_true (f : sound_file) :
  Z.of_nat (length (sf_data f)) = sf_frames f ->
  studied_blocks f = whole_input_blocks f.
Proof.
  intros H. unfold studied_blocks. rewrite (blocks_held_true f H). lia.
Qed.

Lemma studied_blocks_held (f : sound_file) :
  (blocks_held f <= whole_input_blocks f)%nat ->
  firstn (1024 * studied_blocks f) (sf_data f) = sf_data f.
Proof.
  intros H. unfold studied_blocks. rewrite Nat.min_r by exact H.
  apply firstn_all2.
  destruct (Nat.le_gt_cases (length (sf_data f)) (1024 * blocks_held f))
    as [L|L]; [exact L|].
  apply blocks_held_spec in L. lia.
Qed.

Lemma studied_block_not_empty (f : sound_file) (k : nat) :
  (k < studied_blocks f)%nat -> (0 < length (whole_input_block f k))%nat.
Proof.
  unfold studied_blocks. intros Hk.
  assert (H : (k < blocks_held f)%nat) by lia.
  apply blocks_held_spec in H. rewrite block_length. lia.
Qed.



(** ** The drain loop against the engine *)

Lemma drains_within_eq {T : Type} {engine : Stretcher T} (n : nat) (ts : T) :
  drains_within n ts
  = (if fst (ts_available ts) <? 0 then true
     else match n with
          | O => false
          | S n' =>
              drains_within n'
                (if 0 <? fst (ts_available ts)
                 then snd (ts_retrieve (snd (ts_available ts))
                             (fst (ts_available ts)))
                 else snd (ts_available ts))
          end).
Proof. destruct n; simpl; now destruct (ts_available ts). Qed.

Lemma drains_within_more {T : Type} {engine : Stretcher T} (n : nat) :
  forall (m : nat) (ts : T),
    (n <= m)%nat -> drains_within n ts = true -> drains_within m ts = true.
Proof.
  induction n as [|n IH]; intros m ts Hm H; rewrite drains_within_eq in *.
  - destruct (fst (ts_available ts) <? 0); [reflexivity|discriminate].
  - destruct (fst (ts_available ts) <? 0); [reflexivity|].
    destruct m as [|m]; [lia|]. apply (IH m); [lia|exact H].
Qed.

Section DrainExit.

Context {T : Type} {engine : Stretcher T}.
Variable uninit : float.
Variable sndfile : sound_file.

(** A drain loop that has ended has met the sentinel. *)
Lemma drain_loop_exits (fuel : nat) :
  forall w : world T,
    fst (drain_loop uninit sndfile fuel w) = true ->
    exists n, (n < fuel)%nat /\ drains_within n (w_ts w) = true.
Proof.
  induction fuel as [|fuel IH]; intros w H; [discriminate|].
  simpl in H. rewrite (surjective_pairing (ts_available (w_ts w))) in H.
  destruct (0 <=? fst (ts_available (w_ts w))) eqn:E.
  - apply IH in H as (n & Hn & Hd). exists (S n). split; [lia|].
    rewrite drains_within_eq.
    apply Z.leb_le in E.
    destruct (Z.ltb_spec (fst (ts_available (w_ts w))) 0); [lia|].
    destruct (0 <? fst (ts_available (w_ts w))).
    + now rewrite retrieve_and_write_ts in Hd.
    + exact Hd.
  - exists 0%nat. split; [lia|]. rewrite drains_within_eq.
    apply Z.leb_gt in E.
    now destruct (Z.ltb_spec (fst (ts_available (w_ts w))) 0); [|lia].
Qed.

End DrainExit.

(** ** Terminal convergence of the engine of the specification *)

Lemma min_length_map_skipn (n : nat) (qs : list (list float)) :
  min_length (map (skipn n) qs) = (min_length qs - n)%nat.
Proof.
  induction qs as [|q qs IH]; [reflexivity|].
  destruct qs as [|q' qs].
  - simpl. apply length_skipn.
  - change (min_length (map (skipn n) (q :: q' :: qs)))
      with (Nat.min (length (skipn n q))
              (min_length (map (skipn n) (q' :: qs)))).
    rewrite IH, length_skipn.
    change (min_length (q :: q' :: qs))
      with (Nat.min (length q) (min_length (q' :: qs))).
    lia.
Qed.

Section SpecEngine.

Variable vocoder : bool -> list (list float)
                   -> list (list float) * list (list float).

(** The final call is remembered, whatever came before. *)
Lemma spec_process_final (s : spec_engine) (ibuf : list (list float))
    (count : Z) (final : bool) :
  se_final (spec_process vocoder s ibuf count final) = se_final s || final.
Proof.
  unfold spec_process. destruct (se_final s) eqn:E; [now rewrite E|].
  now destruct (vocoder final _).
Qed.

Lemma spec_process_latent (s : spec_engine) (ibuf : list (list float))
    (count : Z) (final : bool) :
  (length (se_latent (spec_process vocoder s ibuf count final))
   <= S (length (se_latent s)))%nat.
Proof.
  unfold spec_process. destruct (se_final s); [lia|].
  destruct (vocoder final _). simpl. rewrite length_app. simpl. lia.
Qed.

Lemma spec_available_state (s : spec_engine) :
  se_final (snd (spec_available s)) = se_final s
  /\ se_latent (snd (spec_available s)) = tl (se_latent s).
Proof. unfold spec_available. now destruct (se_latent s). Qed.

Lemma spec_available_queues (s : spec_engine) :
  se_latent s = [] -> se_queues (snd (spec_available s)) = se_queues s.
Proof. unfold spec_available. now intros ->. Qed.

Lemma spec_available_sentinel (s : spec_engine) :
  fst (spec_available s) < 0
  <-> se_final s = true
      /\ se_latent (snd (spec_available s)) = []
      /\ min_length (se_queues (snd (spec_available s))) = 0%nat.
Proof.
  unfold spec_available.
  destruct (se_latent s) as [|block [|b rest]]; cbn [fst snd se_latent se_queues];
    destruct (se_final s); cbn [andb];
    try (destruct (Z.eqb_spec (Z.of_nat (min_length (se_queues s))) 0));
    try (destruct (Z.eqb_spec
                     (Z.of_nat (min_length (append_each (se_queues s) block)))
                     0));
    split; intros H; try lia; try (destruct H as (H1 & H2 & H3));
    try discriminate; repeat split; lia.
Qed.

Lemma spec_available_ready (s : spec_engine) :
  0 <= fst (spec_available s) ->
  fst (spec_available s)
  = Z.of_nat (min_length (se_queues (snd (spec_available s)))).
Proof.
  unfold spec_available.
  destruct (se_latent s) as [|block rest]; cbn [fst snd se_queues];
    match goal with |- context [if ?b then _ else _] => destruct b end;
    intros H; try lia; reflexivity.
Qed.

(** Terminal convergence: once the final call has been seen, polling and
    retrieving what is available meets the sentinel after one poll per
    block of latent output, and one more. *)
Lemma spec_drains (n : nat) :
  forall s : spec_engine,
    se_final s = true ->
    length (se_latent s) = n ->
    drains_within (engine := spec_stretcher vocoder) (S n) s = true.
Proof.
  induction n as [|n IH]; intros s Hf Hl.
  - rewrite drains_within_eq. cbn [ts_available ts_retrieve spec_stretcher].
    destruct (Z.ltb_spec (fst (spec_available s)) 0) as [|H0]; [reflexivity|].
    destruct (spec_available_state s) as [Ef El].
    pose proof (spec_available_ready s H0) as Er.
    assert (Hpos : 0 < fst (spec_available s)).
    { destruct (Z.eq_dec (fst (spec_available s)) 0) as [E0|]; [|lia].
      exfalso.
      assert (Hs : fst (spec_available s) < 0); [|lia].
      apply spec_available_sentinel. split; [exact Hf|].
      split; [rewrite El; now destruct (se_latent s)|]. lia. }
    destruct (Z.ltb_spec 0 (fst (spec_available s))) as [_|]; [|lia].
    rewrite drains_within_eq. cbn [ts_available ts_retrieve spec_stretcher].
    match goal with
    | |- (if fst (spec_available ?s') <? 0 then _ else _) = _ =>
        assert (Hs : fst (spec_available s') < 0)
    end.
    { assert (El' : se_latent (snd (spec_available s)) = [])
        by (rewrite El; now destruct (se_latent s)).
      apply spec_available_sentinel. unfold spec_retrieve.
      cbn [snd se_final]. split; [now rewrite Ef|].
      match goal with
      | |- context [spec_available ?s'] =>
          destruct (spec_available_state s') as [_ El2];
          pose proof (spec_available_queues s' El') as Eq2
      end.
      cbn [se_latent se_queues] in El2, Eq2.
      split; [rewrite El2, El'; reflexivity|].
      rewrite Eq2, min_length_map_skipn, Er. lia. }
    now destruct (Z.ltb_spec (fst (spec_available
                   (snd (spec_retrieve (snd (spec_available s))
                           (fst (spec_available s)))))) 0); [|lia].
  - rewrite drains_within_eq. cbn [ts_available ts_retrieve spec_stretcher].
    destruct (fst (spec_available s) <? 0); [reflexivity|].
    destruct (spec_available_state s) as [Ef El].
    apply IH.
    + destruct (0 <? fst (spec_available s)); [|now rewrite Ef].
      unfold spec_retrieve. cbn [snd se_final]. now rewrite Ef.
    + destruct (0 <? fst (spec_available s));
        [unfold spec_retrieve; cbn [snd se_latent]|];
        rewrite El; destruct (se_latent s); simpl in *; lia.
Qed.

End SpecEngine.

Section SpecRun.

Variable vocoder : bool -> list (list float)
                   -> list (list float) * list (list float).
Variable uninit : float.
Variable sndfile : sound_file.
Hypothesis frames_fit : sf_frames sndfile <= INT_MAX - ibs.

(** [study] leaves the engine of the specification as it was, as far as
    [available] can tell. *)
Lemma spec_study_loop_ts (fuel : nat) :
  forall (frame : Z) (w : world spec_engine),
    w_ts (snd (study_loop (engine := spec_stretcher vocoder) sndfile fuel
                 frame w))
    = w_ts w.
Proof.
  induction fuel as [|fuel IH]; intros frame w.
  - destruct (loop_O (engine := spec_stretcher vocoder) uninit sndfile
                frame w) as [-> _].
    now destruct (frame <? sf_frames sndfile).
  - rewrite study_loop_S.
    destruct (frame <? sf_frames sndfile); [|reflexivity]. cbv zeta.
    destruct (Z.of_nat (length (sf_readf_float sndfile (w_pos w) ibs)) <=? 0);
      [reflexivity|].
    now rewrite IH.
Qed.

(** Pass 2 on the engine of the specification: each poll takes up the
    block the call before it produced, and once the loop has made its
    last call, the one marked final, the engine has seen the final
    block. *)
Lemma spec_process_loop_final (fuel : nat) :
  forall (frame : Z) (w w' : world spec_engine),
    0 <= frame ->
    process_loop (engine := spec_stretcher vocoder) uninit sndfile fuel
      frame w = (true, w') ->
    se_latent (w_ts w) = [] ->
    se_latent (w_ts w') = []
    /\ (se_final (w_ts w) = true -> se_final (w_ts w') = true)
    /\ exists es,
         w_log w' = w_log w ++ es
         /\ (frame < sf_frames sndfile ->
             se_final (w_ts w') = true
             /\ exists pre ibuf count post,
                  es = pre ++ EvProcess ibuf count true :: post).
Proof.
  induction fuel as [|fuel IH]; intros frame w w' H0 Hrun Hl.
  - destruct (loop_O (engine := spec_stretcher vocoder) uninit sndfile
                frame w) as [_ E].
    rewrite E in Hrun. clear E.
    destruct (Z.ltb_spec frame (sf_frames sndfile)); [discriminate|].
    injection Hrun as <-. split; [exact Hl|]. split; [tauto|].
    exists []. rewrite app_nil_r. split; [reflexivity|lia].
  - rewrite process_loop_S in Hrun.
    destruct (Z.ltb_spec frame (sf_frames sndfile)) as [Hlt|Hge].
    2:{ injection Hrun as <-. split; [exact Hl|]. split; [tauto|].
        exists []. rewrite app_nil_r. split; [reflexivity|lia]. }
    cbv zeta in Hrun.
    destruct (Z.ltb_spec
                (Z.of_nat (length (sf_readf_float sndfile (w_pos w) ibs))) 0);
      [lia|].
    rewrite (next_frame sndfile frames_fit frame H0 Hlt) in Hrun.
    rewrite (surjective_pairing (ts_available _)) in Hrun.
    cbn [emit seek add_countIn w_ts w_log ts_process ts_available
         spec_stretcher] in Hrun.
    set (blk := sf_readf_float sndfile (w_pos w) ibs) in *.
    set (ibuf := deinterleave (channels sndfile) (concat blk) (length blk))
      in *.
    set (final := sf_frames sndfile <=? frame + ibs) in *.
    set (s1 := spec_process vocoder (w_ts w) ibuf (Z.of_nat (length blk))
                 final) in *.
    destruct (spec_available_state s1) as [Ef El].
    assert (Hl1 : se_latent (snd (spec_available s1)) = []).
    { rewrite El.
      pose proof (spec_process_latent vocoder (w_ts w) ibuf
                    (Z.of_nat (length blk)) final) as Hlen.
      fold s1 in Hlen. rewrite Hl in Hlen.
      destruct (se_latent s1) as [|b [|b' r]]; simpl in *;
        [reflexivity|reflexivity|lia]. }
    assert (Hf1 : se_final (snd (spec_available s1))
                  = se_final (w_ts w) || final)
      by (rewrite Ef; apply spec_process_final).
    match type of Hrun with
    | process_loop _ _ _ _ ?w3 = _ =>
        assert (H3 : se_latent (w_ts w3) = []
                     /\ se_final (w_ts w3) = se_final (w_ts w) || final
                     /\ exists post,
                          w_log w3
                          = w_log w
                            ++ EvProcess ibuf (Z.of_nat (length blk)) final
                               :: post);
          [|apply IH in Hrun; [|unfold ibs; lia|exact (proj1 H3)]]
    end.
    { destruct (0 <? fst (spec_available s1)).
      - rewrite retrieve_and_write_ts, retrieve_and_write_log.
        unfold emit, add_countIn, seek.
        cbn [w_ts w_log ts_retrieve spec_stretcher spec_retrieve snd
             se_latent se_final].
        split; [exact Hl1|]. split; [exact Hf1|].
        eexists. rewrite <- !app_assoc. reflexivity.
      - unfold emit, add_countIn, seek. cbn [w_ts w_log].
        split; [exact Hl1|]. split; [exact Hf1|].
        eexists. rewrite <- !app_assoc. reflexivity. }
    destruct H3 as (_ & Hf3 & post3 & Hlog3).
    destruct Hrun as (Hl' & Hkeep & es' & Hlog' & Hlast).
    split; [exact Hl'|]. split.
    + intros Hf. apply Hkeep. rewrite Hf3, Hf. reflexivity.
    + exists (EvProcess ibuf (Z.of_nat (length blk)) final :: post3 ++ es').
      split.
      * rewrite Hlog', Hlog3, <- app_assoc. reflexivity.
      * intros _.
        destruct (Z.ltb_spec (frame + ibs) (sf_frames sndfile))
          as [Hmore|Hend].
        -- destruct (Hlast Hmore) as (Hf' & pre & ib & cnt & post & ->).
           split; [exact Hf'|].
           exists (EvProcess ibuf (Z.of_nat (length blk)) final
                   :: post3 ++ pre), ib, cnt, post.
           cbn [app]. now rewrite <- app_assoc.
        -- assert (Efin : final = true) by (apply Z.leb_le; exact Hend).
           split; [apply Hkeep; rewrite Hf3, Efin; apply orb_true_r|].
           exists [], ibuf, (Z.of_nat (length blk)), (post3 ++ es').
           now rewrite Efin.
Qed.

End SpecRun.

Section SpecMain.

Variable vocoder : bool -> list (list float)
                   -> list (list float) * list (list float).
Variable bits : OptionFlag -> Z.
Variable pow : float -> float -> float.
Variable uninit : float.
Variable fs : filesystem.

(** The two input passes on the engine of the specification leave it
    with the final block seen and no block waiting to be taken up. *)
Lemma spec_input_passes (fuel : nat) (rt : bool) (f : sound_file)
    (w : world spec_engine) :
  0 < sf_frames f ->
  sf_frames f <= INT_MAX - ibs ->
  sf_frames f <= ibs * Z.of_nat fuel ->
  se_latent (w_ts w) = [] ->
  exists w2,
    input_passes (engine := spec_stretcher vocoder) uninit f fuel rt w
    = (true, w2)
    /\ se_final (w_ts w2) = true
    /\ se_latent (w_ts w2) = []
    /\ exists pre ibuf count post,
         w_log w2 = w_log w ++ pre ++ EvProcess ibuf count true :: post.
Proof.
  intros Hpos Hfit Hfuel Hl.
  pose proof (input_passes_terminate (engine := spec_stretcher vocoder)
                uninit f Hfit fuel rt w Hfuel) as Hin.
  exists (snd (input_passes (engine := spec_stretcher vocoder) uninit f fuel
                 rt w)).
  split; [rewrite <- Hin; apply surjective_pairing|].
  revert Hin. unfold input_passes, and_then. destruct rt; cbn [negb fst snd].
  - intros Hin.
    destruct (spec_process_loop_final vocoder uninit f Hfit fuel 0 w _
                ltac:(lia)
                (eq_trans (surjective_pairing _)
                   (f_equal (fun b => (b, _)) Hin)) Hl)
      as (Hl2 & _ & es & Hlog & Hlast).
    destruct (Hlast Hpos) as (Hf2 & pre & ibuf & count & post & ->).
    split; [exact Hf2|]. split; [exact Hl2|].
    now exists pre, ibuf, count, post.
  - pose proof (study_loop_terminates (engine := spec_stretcher vocoder)
                  uninit f Hfit fuel 0 w ltac:(lia) ltac:(lia)) as H1.
    pose proof (spec_study_loop_ts vocoder uninit f fuel 0 w) as Hts.
    destruct (study_loop_log (engine := spec_stretcher vocoder) uninit f
                fuel 0 w) as (s & Hs & _).
    rewrite H1. cbn [fst snd]. intros Hin.
    destruct (spec_process_loop_final vocoder uninit f Hfit fuel 0
                (seek (snd (study_loop (engine := spec_stretcher vocoder)
                              f fuel 0 w)) 0%nat) _
                ltac:(lia)
                (eq_trans (surjective_pairing _)
                   (f_equal (fun b => (b, _)) Hin))
                ltac:(cbn [seek w_ts]; now rewrite Hts))
      as (Hl2 & _ & es & Hlog & Hlast).
    destruct (Hlast Hpos) as (Hf2 & pre & ibuf & count & post & ->).
    split; [exact Hf2|]. split; [exact Hl2|].
    exists (s ++ pre), ibuf, count, post.
    rewrite Hlog. cbn [seek w_log]. rewrite Hs. now rewrite <- !app_assoc.
Qed.

(** A whole run on the engine of the specification. *)
Lemma spec_run (fuel : nat) (inv : invocation) (f : sound_file) :
  usage_requested (parse_options (opts inv)) inv = false ->
  sf_open_read fs (fileName inv) = Some f ->
  sf_open_write fs (fileNameOut inv) = true ->
  0 < sf_frames f ->
  sf_frames f <= INT_MAX - ibs ->
  sf_frames f <= ibs * Z.of_nat fuel ->
  (2 <= fuel)%nat ->
  exists w2 es ps a,
    input_passes (engine := spec_stretcher vocoder) uninit f fuel
      (existsb is_realtime (opts inv))
      (initial_world (engine := spec_stretcher vocoder) bits pow
         (configured (opts inv)) f)
    = (true, w2)
    /\ se_final (w_ts w2) = true
    /\ (exists pre ibuf count post,
          w_log w2 = pre ++ EvProcess ibuf count true :: post)
    /\ main (engine := spec_stretcher vocoder) bits pow uninit fs fuel inv
       = Returned 0
           (Some (snd (drain_loop (engine := spec_stretcher vocoder)
                         uninit f fuel w2)))
    /\ w_log (snd (drain_loop (engine := spec_stretcher vocoder)
                     uninit f fuel w2))
       = w_log w2 ++ es
    /\ engine_run (engine := spec_stretcher vocoder) uninit (channels f)
         (w_ts w2) es
         (w_ts (snd (drain_loop (engine := spec_stretcher vocoder)
                       uninit f fuel w2)))
    /\ drain_shape es = true
    /\ polls es = ps ++ [a] /\ a < 0 /\ Forall (fun p => 0 <= p) ps.
Proof.
  intros Hu Hr Hw Hpos Hfit Hfuel H2.
  destruct (spec_input_passes fuel (existsb is_realtime (opts inv)) f
              (initial_world (engine := spec_stretcher vocoder) bits pow
                 (configured (opts inv)) f)
              Hpos Hfit Hfuel eq_refl)
    as (w2 & Hin & Hf2 & Hl2 & pre & ibuf & count & post & Hlog2).
  pose proof (spec_drains vocoder 0 (w_ts w2) Hf2
                ltac:(now rewrite Hl2)) as Hd.
  pose proof (drain_loop_terminates (engine := spec_stretcher vocoder)
                uninit f 1 fuel w2 Hd ltac:(lia)) as Hfin.
  destruct (drain_loop_shape (engine := spec_stretcher vocoder) uninit f
              fuel w2) as (es & Hlog & Hshape).
  rewrite Hfin in Hshape.
  destruct (drain_loop_run (engine := spec_stretcher vocoder) uninit f
              fuel w2) as (es' & Hlog' & Hrun).
  assert (Ees : es' = es)
    by (rewrite Hlog in Hlog'; now apply app_inv_head in Hlog').
  subst es'.
  destruct (drain_shape_polls (length es) es (le_n _) Hshape)
    as (ps & a & Hp & Ha & Hps).
  exists w2, es, ps, a.
  split; [exact Hin|]. split; [exact Hf2|].
  split; [now exists pre, ibuf, count, post|].
  split.
  - rewrite (main_opened (engine := spec_stretcher vocoder) bits pow uninit
               fs fuel inv f Hu Hr Hw).
    rewrite realtime_configured. unfold passes, and_then.
    rewrite Hin. cbn [fst snd]. now rewrite Hfin.
  - split; [exact Hlog|]. split; [exact Hrun|]. tauto.
Qed.

End SpecMain.


